(** * Continuation power flow (GridCal, [grid/ContinuationPowerFlow.py])

    A shallow embedding of the predictor-corrector continuation power flow:
    [dSbus_dV], [jacobian], [cpf_p], [cpf_p_jac], [cpf_corrector],
    [cpf_predictor] and the driver [runcpf2].

    Conventions of the embedding.
    - A Python/numpy float is a rational ([Q]); arithmetic is exact.  A
      division whose divisor is zero has no rational value (numpy goes on
      with [inf] or [nan]): the embedding stops there with [Raise NonFinite],
      which is not an exception of the source.  It happens at a zero voltage
      ([dSbus_dV]), at a tangent of norm zero ([cpf_predictor]) and at a zero
      prediction error met with a step or a tolerance that is not positive
      ([adapt]).
    - A Python int is a [Z]; a bus index is a [nat] (buses are numbered
      [0 .. nb-1]); a numpy vector is a [list]; a matrix is the list of its
      rows (dense, whether the source holds it sparse or not).
    - An exception is a value of [exn]; a function that can raise returns a
      [result].
    - The transcendental and linear-algebra routines of numpy and scipy
      ([angle], [abs] of a complex number, [exp(1j*a)], the square root inside
      [linalg.norm], [spsolve]) are the fields of the class [kernels]; every
      definition and theorem is stated for arbitrary kernels.
    - Progress printing ([print], [verbose]) is left out. *)

From Stdlib Require Import String Ascii.
From Stdlib Require Import QArith Qabs Qminmax ZArith List Bool Lia Lqa.
Import ListNotations.
Open Scope Q_scope.

(** ** Exceptions and results *)

Inductive exn : Type :=
| IndexError
| ValueError
| UnboundLocalError
| StopNotRecognised (stop_at : string)
| NonFinite.

Inductive result (A : Type) : Type :=
| Ok (a : A)
| Raise (e : exn).

Arguments Ok {A} a.
Arguments Raise {A} e.

Definition bind {A B : Type} (m : result A) (k : A -> result B) : result B :=
  match m with
  | Ok a => k a
  | Raise e => Raise e
  end.

Notation "x <- m ;; k" := (bind m (fun x => k))
  (at level 61, m at next level, right associativity).
Notation "' pat <- m ;; k" := (bind m (fun x => match x with pat => k end))
  (at level 61, pat pattern, m at next level, right associativity).

Fixpoint mapM {A B : Type} (f : A -> result B) (l : list A) : result (list B) :=
  match l with
  | [] => Ok []
  | x :: xs => y <- f x ;; ys <- mapM f xs ;; Ok (y :: ys)
  end.

(** ** Python truth values

    [converged], [continuation], [adapt_step] and [success] hold [0], [1],
    [True] or [False] in the source; only their truth value is tested. *)

Inductive pyflag : Type :=
| PyInt (n : Z)
| PyBool (b : bool).

Definition truthy (v : pyflag) : bool :=
  match v with
  | PyInt n => negb (n =? 0)%Z
  | PyBool b => b
  end.

(** ** Strings

    A string is the sequence of its bytes.  [upper] is [str.upper] on ASCII
    text, the strings for which [is_ascii] holds: Python also maps letters
    outside ASCII to capitals, some of them to ASCII ones, and the theorems
    that depend on the letters of a string are stated for ASCII strings. *)

Definition upper_ascii (c : ascii) : ascii :=
  let n := nat_of_ascii c in
  if ((97 <=? n) && (n <=? 122))%nat then ascii_of_nat (n - 32) else c.

Fixpoint upper (s : string) : string :=
  match s with
  | EmptyString => EmptyString
  | String c s' => String (upper_ascii c) (upper s')
  end.

(** Every character of [s] has a code below 128. *)
Fixpoint is_ascii (s : string) : bool :=
  match s with
  | EmptyString => true
  | String c s' => (nat_of_ascii c <? 128)%nat && is_ascii s'
  end.

(** ** Scalars *)

Definition Qlt_bool (x y : Q) : bool := negb (Qle_bool y x).

(** The value of a float expression: a rational, or one of the IEEE
    specials that a division by [0.0] produces in numpy. *)
Inductive fval : Type :=
| Finite (q : Q)
| PosInf
| NegInf
| NaN.

(** [x / y] in numpy, the divisor being a non-negative float. *)
Definition fdiv_ext (x y : Q) : fval :=
  if Qeq_bool y 0 then
    if Qlt_bool 0 x then PosInf else if Qlt_bool x 0 then NegInf else NaN
  else Finite (x / y).

(** [a > b] and [a < b]; a comparison with [nan] is false. *)
Definition fgt (a : fval) (b : Q) : bool :=
  match a with
  | Finite q => Qlt_bool b q
  | PosInf => true
  | NegInf | NaN => false
  end.

Definition flt (a : fval) (b : Q) : bool :=
  match a with
  | Finite q => Qlt_bool q b
  | NegInf => true
  | PosInf | NaN => false
  end.

(** Only a finite value is kept; the embedding stops on a special. *)
Definition to_float (a : fval) : result Q :=
  match a with
  | Finite q => Ok q
  | _ => Raise NonFinite
  end.

(** [x / y] on floats. *)
Definition fdiv (x y : Q) : result Q := to_float (fdiv_ext x y).

(** ** numpy vectors *)

Module np.

(** [v[i]] *)
Definition getitem {A : Type} (v : list A) (i : nat) : result A :=
  match nth_error v i with
  | Some x => Ok x
  | None => Raise IndexError
  end.

(** [v[idx]] for an index array [idx]. *)
Definition take {A : Type} (v : list A) (idx : list nat) : result (list A) :=
  mapM (getitem v) idx.

Fixpoint set_nth {A : Type} (v : list A) (i : nat) (x : A) : list A :=
  match v, i with
  | [], _ => []
  | _ :: t, O => x :: t
  | h :: t, S j => h :: set_nth t j x
  end.

Fixpoint put_seq {A : Type} (v : list A) (idx : list nat) (vals : list A)
  : list A :=
  match idx, vals with
  | i :: idx', x :: vals' => put_seq (set_nth v i x) idx' vals'
  | _, _ => v
  end.

(** [v[idx] = vals]: every index is checked, a one-element [vals] is
    broadcast, any other length mismatch is a [ValueError]; with a repeated
    index the last assignment wins. *)
Definition put {A : Type} (v : list A) (idx : list nat) (vals : list A)
  : result (list A) :=
  if forallb (fun i => (i <? length v)%nat) idx then
    let vals' := match vals with
                 | [x] => repeat x (length idx)
                 | _ => vals
                 end in
    if (length vals' =? length idx)%nat then Ok (put_seq v idx vals')
    else Raise ValueError
  else Raise IndexError.

(** [v[a:b]]: a slice never raises. *)
Definition slice {A : Type} (v : list A) (a b : nat) : list A :=
  firstn (b - a) (skipn a v).

Fixpoint zipWith {A B C : Type} (f : A -> B -> C) (a : list A) (b : list B)
  : list C :=
  match a, b with
  | x :: a', y :: b' => f x y :: zipWith f a' b'
  | _, _ => []
  end.

(** Element-wise operations.  Every pair of operands in the source is
    built with the same index arrays, hence of equal length. *)
Definition add (a b : list Q) : list Q := zipWith Qplus a b.
Definition sub (a b : list Q) : list Q := zipWith Qminus a b.
Definition scale (k : Q) (a : list Q) : list Q := map (Qmult k) a.
Definition neg (a : list Q) : list Q := map Qopp a.

(** [sum(a)] *)
Definition sum (a : list Q) : Q := fold_left Qplus a 0.

(** [a**2] *)
Definition sq (a : list Q) : list Q := map (fun x => x ^ 2) a.

(** [dot(a, b)] *)
Definition dot (a b : list Q) : Q := sum (zipWith Qmult a b).

(** [linalg.norm(a, Inf)] *)
Definition norm_inf (a : list Q) : Q :=
  fold_right (fun x m => Qmax (Qabs x) m) 0 a.

(** [zeros(n)] *)
Definition zeros (n : nat) : list Q := repeat 0 n.

End np.

(** ** Complex numbers *)

Record C : Type := mkC { re : Q; im : Q }.

Definition Cadd (a b : C) : C := mkC (re a + re b) (im a + im b).
Definition Csub (a b : C) : C := mkC (re a - re b) (im a - im b).
Definition Cmul (a b : C) : C :=
  mkC (re a * re b - im a * im b) (re a * im b + im a * re b).
Definition Cconj (a : C) : C := mkC (re a) (- im a).
Definition Cscale (k : Q) (a : C) : C := mkC (k * re a) (k * im a).
Definition C0 : C := mkC 0 0.
Definition Cj : C := mkC 0 1.

(** [a / k] for a complex [a] and a float [k]. *)
Definition Cdivr (a : C) (k : Q) : result C :=
  x <- fdiv (re a) k ;; y <- fdiv (im a) k ;; Ok (mkC x y).

(** ** The numerical kernels taken from numpy and scipy *)

Class kernels : Type := {
  angle : C -> Q;                            (* numpy.angle *)
  cabs : C -> Q;                             (* abs of a complex number *)
  expj : Q -> C;                             (* exp(1j * a) *)
  sqrtq : Q -> Q;                            (* the root in linalg.norm *)
  spsolve : list (list Q) -> list Q -> list Q  (* scipy.sparse.linalg.spsolve *)
}.

(** ** Dense matrices *)

Module mat.

Definition matrix : Type := list (list C).

Definition ncols (m : matrix) : nat :=
  match m with
  | [] => O
  | r :: _ => length r
  end.

(** [m.shape == (r, c)] *)
Definition is_shape (m : matrix) (r c : nat) : bool :=
  (length m =? r)%nat && forallb (fun row => (length row =? c)%nat) m.

Definition col (m : matrix) (j : nat) : list C :=
  map (fun r => nth j r C0) m.

Definition Csum (l : list C) : C := fold_left Cadd l C0.

Definition cdot (a b : list C) : C := Csum (np.zipWith Cmul a b).

(** [m * v] *)
Definition mulv (m : matrix) (v : list C) : list C :=
  map (fun r => cdot r v) m.

(** [a * b] *)
Definition mul (a b : matrix) : matrix :=
  map (fun r => map (fun j => cdot r (col b j)) (seq 0 (ncols b))) a.

Definition add (a b : matrix) : matrix := np.zipWith (np.zipWith Cadd) a b.
Definition sub (a b : matrix) : matrix := np.zipWith (np.zipWith Csub) a b.
Definition conj (a : matrix) : matrix := map (map Cconj) a.
Definition cmul (k : C) (a : matrix) : matrix := map (map (Cmul k)) a.

(** [diag(v)] *)
Definition diag (v : list C) : matrix :=
  map (fun i => map (fun j => if (i =? j)%nat then nth i v C0 else C0)
                    (seq 0 (length v)))
      (seq 0 (length v)).

(** [m[array([rows]).T, cols]] *)
Definition sub_take {A : Type} (m : list (list A)) (rows cols : list nat)
  : result (list (list A)) :=
  rs <- np.take m rows ;; mapM (fun r => np.take r cols) rs.

(** [hstack([a, b])] *)
Definition hstack {A : Type} (a b : list (list A)) : list (list A) :=
  np.zipWith (@app A) a b.

(** [vstack([a, b])] *)
Definition vstack {A : Type} (a b : list (list A)) : list (list A) := a ++ b.

End mat.

Section Flow.

Context {K : kernels}.

(** [linalg.norm(a)]: the Euclidean norm. *)
Definition norm2 (a : list Q) : Q := sqrtq (np.sum (np.sq a)).

(** *** dSbus_dV

    [Ybus * V], the diagonal matrices built on [ib = range(len(V))] and the
    products and the difference of lines 73-74 ask for a [Ybus] that is
    square, of the order of [V]: with any other shape one of them raises a
    [ValueError], whatever the voltages are.  At a zero voltage
    [V / abs(V)] has no rational value; numpy puts [nan] there and goes
    on, the embedding stops. *)
Definition dSbus_dV (Ybus : mat.matrix) (V : list C)
  : result (mat.matrix * mat.matrix) :=
  let nb := length V in
  if mat.is_shape Ybus nb nb then
    let Ibus := mat.mulv Ybus V in
    let diagV := mat.diag V in
    let diagIbus := mat.diag Ibus in
    Vnorm <- mapM (fun v => Cdivr v (cabs v)) V ;;
    let diagVnorm := mat.diag Vnorm in
    let dS_dVm :=
      mat.add (mat.mul diagV (mat.conj (mat.mul Ybus diagVnorm)))
              (mat.mul (mat.conj diagIbus) diagVnorm) in
    let dS_dVa :=
      mat.mul (mat.cmul Cj diagV)
              (mat.conj (mat.sub diagIbus (mat.mul Ybus diagV))) in
    Ok (dS_dVm, dS_dVa)
  else Raise ValueError.

(** *** jacobian *)
Definition jacobian (Ybus : mat.matrix) (V : list C) (pvpq pq : list nat)
  : result (list (list Q)) :=
  ' (dS_dVm, dS_dVa) <- dSbus_dV Ybus V ;;
  A11 <- mat.sub_take dS_dVa pvpq pvpq ;;
  A12 <- mat.sub_take dS_dVm pvpq pq ;;
  A21 <- mat.sub_take dS_dVa pq pvpq ;;
  A22 <- mat.sub_take dS_dVm pq pq ;;
  let J11 := map (map re) A11 in
  let J12 := map (map re) A12 in
  let J21 := map (map im) A21 in
  let J22 := map (map im) A22 in
  Ok (mat.vstack (mat.hstack J11 J12) (mat.hstack J21 J22)).

(** *** cpf_p *)
Definition cpf_p (parameterization : Z) (step : Q) (z : list Q)
    (V : list C) (lam : Q) (Vprv : list C) (lamprv : Q)
    (pv pq pvpq : list nat) : result Q :=
  if (parameterization =? 1)%Z then
    if Qle_bool lamprv lam then Ok (lam - lamprv - step)
    else Ok (lamprv - lam - step)
  else if (parameterization =? 2)%Z then
    let Va := map angle V in
    let Vm := map cabs V in
    let Vaprv := map angle Vprv in
    let Vmprv := map cabs Vprv in
    a1 <- np.take Va pvpq ;;
    a2 <- np.take Vm pq ;;
    let a := a1 ++ a2 ++ [lam] in
    b1 <- np.take Vaprv pvpq ;;
    b2 <- np.take Vmprv pq ;;
    let b := b1 ++ b2 ++ [lamprv] in
    Ok (np.sum (np.sq (np.sub a b)) - step ^ 2)
  else if (parameterization =? 3)%Z then
    let nb := length V in
    let Va := map angle V in
    let Vm := map cabs V in
    let Vaprv := map angle Vprv in
    let Vmprv := map cabs Vprv in
    a <- np.take z (pv ++ pq ++ map (Nat.add nb) pq ++ [2 * nb + 1]%nat) ;;
    b1 <- np.take Va pvpq ;;
    b2 <- np.take Vm pq ;;
    let b := b1 ++ b2 ++ [lam] in
    c1 <- np.take Vaprv pvpq ;;
    c2 <- np.take Vmprv pq ;;
    let c := c1 ++ c2 ++ [lamprv] in
    Ok (np.dot a (np.sub b c) - step)
  else Raise UnboundLocalError.

(** *** cpf_p_jac

    In the third branch [z[2*nb+1]] is a float, and subscripting a float
    with [[0]] is itself an [IndexError]. *)
Definition cpf_p_jac (parameterization : Z) (z : list Q)
    (V : list C) (lam : Q) (Vprv : list C) (lamprv : Q)
    (pv pq pvpq : list nat) : result (list Q * Q) :=
  if (parameterization =? 1)%Z then
    let npv := length pv in
    let npq := length pq in
    let dP_dV := np.zeros (npv + 2 * npq) in
    if Qle_bool lamprv lam then Ok (dP_dV, 1) else Ok (dP_dV, -1)
  else if (parameterization =? 2)%Z then
    let Va := map angle V in
    let Vm := map cabs V in
    let Vaprv := map angle Vprv in
    let Vmprv := map cabs Vprv in
    a1 <- np.take Va pvpq ;;
    a2 <- np.take Vm pq ;;
    b1 <- np.take Vaprv pvpq ;;
    b2 <- np.take Vmprv pq ;;
    let dP_dV := np.scale 2 (np.sub (a1 ++ a2) (b1 ++ b2)) in
    if Qeq_bool lam lamprv then Ok (dP_dV, 1)
    else Ok (dP_dV, 2 * (lam - lamprv))
  else if (parameterization =? 3)%Z then
    let nb := length V in
    dP_dV <- np.take z (pv ++ pq ++ map (Nat.add nb) pq) ;;
    _ <- np.getitem z (2 * nb + 1) ;;
    Raise IndexError
  else Raise UnboundLocalError.

(** The bus power mismatch [V * conj(Ybus * V) - Sbus - lam * Sxfr]. *)
Definition mismatch (Ybus : mat.matrix) (Sbus : list C) (V : list C)
    (lam : Q) (Sxfr : list C) : list C :=
  np.zipWith Csub
    (np.zipWith Csub (np.zipWith Cmul V (map Cconj (mat.mulv Ybus V))) Sbus)
    (map (Cscale lam) Sxfr).

(** [Vm * exp(1j * Va)] *)
Definition polar (Vm Va : list Q) : list C :=
  np.zipWith (fun m a => Cscale m (expj a)) Vm Va.

(** The augmented matrix [[J, dF_dlam], [dP_dV, dP_dlam]]. *)
Definition augment (J : list (list Q)) (dF_dlam dP_dV : list Q) (dP_dlam : Q)
  : list (list Q) :=
  mat.vstack (mat.hstack J (map (fun x => [x]) dF_dlam))
             [dP_dV ++ [dP_dlam]].

(** [a[idx] += d] *)
Definition iadd_at (a : list Q) (idx : list nat) (d : list Q)
  : result (list Q) :=
  cur <- np.take a idx ;; np.put a idx (np.add cur d).

(** *** cpf_corrector *)

Record corrector_state : Type := {
  c_V : list C;
  c_Va : list Q;
  c_Vm : list Q;
  c_lam : Q;
  c_F : list Q;
  c_normF : Q;
  c_converged : pyflag;
  c_i : Z
}.

Section Corrector.

Variables (Ybus : mat.matrix) (Sbus : list C) (pv pq : list nat)
          (Sxfr Vprv : list C) (lamprv : Q) (z : list Q) (step : Q)
          (parameterization : Z) (tol : Q) (max_it : Z).

Let npv := length pv.
Let npq := length pq.
Let pvpq := pv ++ pq.
Let j1 := O.
Let j2 := npv.
Let j3 := j2.
Let j4 := (j2 + npq)%nat.
Let j5 := j4.
Let j6 := (j4 + npq)%nat.
Let j7 := j6.
Let j8 := (j6 + 1)%nat.

(** Lines 322-344: [F(x0, lam0)] augmented with [P(x0, lam0)], and the
    first tolerance check. *)
Definition corrector_init (V0 : list C) (lam0 : Q)
  : result corrector_state :=
  let V := V0 in
  let Va := map angle V in
  let Vm := map cabs V in
  let lam := lam0 in
  let mis := mismatch Ybus Sbus V lam Sxfr in
  m1 <- np.take mis pvpq ;;
  m2 <- np.take mis pq ;;
  let F := map re m1 ++ map im m2 in
  P <- cpf_p parameterization step z V lam Vprv lamprv pv pq pvpq ;;
  let F := F ++ [P] in
  let normF := np.norm_inf F in
  Ok {| c_V := V; c_Va := Va; c_Vm := Vm; c_lam := lam; c_F := F;
        c_normF := normF;
        c_converged := if Qlt_bool normF tol then PyBool true else PyInt 0;
        c_i := 0%Z |}.

(** Lines 347-407: the body of the Newton loop. *)
Definition corrector_iteration (s : corrector_state)
  : result corrector_state :=
  let i := (c_i s + 1)%Z in
  J <- jacobian Ybus (c_V s) pvpq pq ;;
  sx1 <- np.take Sxfr pvpq ;;
  sx2 <- np.take Sxfr pq ;;
  let dF_dlam := np.neg (map re sx1 ++ map im sx2) in
  ' (dP_dV, dP_dlam) <-
     cpf_p_jac parameterization z (c_V s) (c_lam s) Vprv lamprv pv pq pvpq ;;
  let J := augment J dF_dlam dP_dV dP_dlam in
  let dx := np.neg (spsolve J (c_F s)) in
  Va <- (if (npv =? 0)%nat then Ok (c_Va s)
         else iadd_at (c_Va s) pv (np.slice dx j1 j2)) ;;
  ' (Va, Vm) <-
     (if (npq =? 0)%nat then Ok (Va, c_Vm s)
      else Va' <- iadd_at Va pq (np.slice dx j3 j4) ;;
           Vm' <- iadd_at (c_Vm s) pq (np.slice dx j5 j6) ;;
           Ok (Va', Vm')) ;;
  let V := polar Vm Va in
  let Vm := map cabs V in
  let Va := map angle V in
  dlam <- np.getitem (np.slice dx j7 j8) 0 ;;
  let lam := c_lam s + dlam in
  let mis := mismatch Ybus Sbus V lam Sxfr in
  m1 <- np.take mis pv ;;
  m2 <- np.take mis pq ;;
  m3 <- np.take mis pq ;;
  let F := map re m1 ++ map re m2 ++ map im m3 in
  P <- cpf_p parameterization step z V lam Vprv lamprv pv pq pvpq ;;
  let F := F ++ [P] in
  let normF := np.norm_inf F in
  Ok {| c_V := V; c_Va := Va; c_Vm := Vm; c_lam := lam; c_F := F;
        c_normF := normF;
        c_converged := if Qlt_bool normF tol then PyInt 1
                       else c_converged s;
        c_i := i |}.

(** [while not converged and i < max_it].  The loop runs at most
    [max_it] times; [fuel] is that budget (see [corrector_loop_exit]). *)
Fixpoint corrector_loop (fuel : nat) (s : corrector_state)
  : result corrector_state :=
  if negb (truthy (c_converged s)) && (c_i s <? max_it)%Z then
    match fuel with
    | O => Ok s
    | S fuel' => s' <- corrector_iteration s ;; corrector_loop fuel' s'
    end
  else Ok s.

Definition cpf_corrector (V0 : list C) (lam0 : Q)
  : result (list C * pyflag * Z * Q * Q) :=
  s0 <- corrector_init V0 lam0 ;;
  s <- corrector_loop (Z.to_nat max_it) s0 ;;
  Ok (c_V s, c_converged s, c_i s, c_lam s, c_normF s).

End Corrector.

(** *** cpf_predictor *)
Definition cpf_predictor (V : list C) (lam : Q) (Ybus : mat.matrix)
    (Sxfr : list C) (pv pq : list nat) (step : Q) (z : list Q)
    (Vprv : list C) (lamprv : Q) (parameterization : Z)
  : result (list C * Q * list Q) :=
  let nb := length V in
  let npv := length pv in
  let npq := length pq in
  let pvpq := pv ++ pq in
  J <- jacobian Ybus V pvpq pq ;;
  sx1 <- np.take Sxfr pvpq ;;
  sx2 <- np.take Sxfr pq ;;
  let dF_dlam := np.neg (map re sx1 ++ map im sx2) in
  ' (dP_dV, dP_dlam) <-
     cpf_p_jac parameterization z V lam Vprv lamprv pv pq pvpq ;;
  let J := augment J dF_dlam dP_dV dP_dlam in
  let Vaprv := map angle V in
  let Vmprv := map cabs V in
  let s := np.set_nth (np.zeros (npv + 2 * npq + 1)) (npv + 2 * npq) 1 in
  z <- np.put z (pvpq ++ map (Nat.add nb) pq ++ [2 * nb]%nat) (spsolve J s) ;;
  let n := norm2 z in
  z <- mapM (fun x => fdiv x n) z ;;
  a <- np.take Vaprv pvpq ;;
  za <- np.take z pvpq ;;
  Va0 <- np.put Vaprv pvpq (np.add a (np.scale step za)) ;;
  m <- np.take Vmprv pq ;;
  zm <- np.take z (map (Nat.add nb) pq) ;;
  Vm0 <- np.put Vmprv pq (np.add m (np.scale step zm)) ;;
  zl <- np.getitem z (2 * nb) ;;
  let lam0 := lam + step * zl in
  let V0 := polar Vm0 Va0 in
  Ok (V0, lam0, z).

(** *** runcpf2 *)

(** [stop_at] is a string or a number. *)
Inductive stop_target : Type :=
| StopStr (s : string)
| StopNum (q : Q).

(** The state of the driver: its local variables.  [normF] and [success]
    are unbound until the first corrector call returns. *)
Record driver_state : Type := {
  d_V : list C;
  d_lam : Q;
  d_V_prev : list C;
  d_lam_prev : Q;
  d_continuation : pyflag;
  d_cont_steps : Z;
  d_z : list Q;
  d_Voltage_series : list (list C);
  d_Lambda_series : list Q;
  d_step : Q;
  d_approximation_order : Z;
  d_adapt_step : pyflag;
  d_normF : option Q;
  d_success : option pyflag
}.

(** The calls the driver makes, in order: what it passes to the predictor
    and to the corrector (the step, the scheme, and the value [adapt_step]
    has at that moment), and what the corrector returns. *)
Inductive event : Type :=
| CallPredictor (step : Q) (approximation_order : Z) (adapt_step : pyflag)
| CallCorrector (step : Q) (approximation_order : Z) (adapt_step : pyflag)
| CorrectorReturned (V : list C) (converged : pyflag) (i : Z) (lam normF : Q).

Inductive outcome : Type :=
| Returned (Voltage_series : list (list C)) (Lambda_series : list Q)
           (normF : Q) (success : pyflag)
| Raised (e : exn)
| OutOfFuel.

Section Driver.

Variables (Ybus : mat.matrix) (Sbus_base : list C) (Sxfr : list C)
          (pv pq : list nat) (step_min step_max error_tol tol : Q)
          (max_it : Z) (stop_at : stop_target).

Let pvpq := pv ++ pq.

(** Lines 861-895: the stopping rule after an accepted step. *)
Definition stop_rule (st : driver_state) : result driver_state :=
  let lam := d_lam st in
  let lam_prev := d_lam_prev st in
  let step := d_step st in
  let stopped :=
    {| d_V := d_V st; d_lam := d_lam st; d_V_prev := d_V_prev st;
       d_lam_prev := d_lam_prev st; d_continuation := PyInt 0;
       d_cont_steps := d_cont_steps st; d_z := d_z st;
       d_Voltage_series := d_Voltage_series st;
       d_Lambda_series := d_Lambda_series st; d_step := d_step st;
       d_approximation_order := d_approximation_order st;
       d_adapt_step := d_adapt_step st; d_normF := d_normF st;
       d_success := d_success st |} in
  let shortened (new_step : Q) :=
    {| d_V := d_V st; d_lam := d_lam st; d_V_prev := d_V_prev st;
       d_lam_prev := d_lam_prev st; d_continuation := d_continuation st;
       d_cont_steps := d_cont_steps st; d_z := d_z st;
       d_Voltage_series := d_Voltage_series st;
       d_Lambda_series := d_Lambda_series st; d_step := new_step;
       d_approximation_order := 1%Z;
       d_adapt_step := PyInt 0; d_normF := d_normF st;
       d_success := d_success st |} in
  match stop_at with
  | StopStr s =>
      if String.eqb (upper s) "FULL" then
        if Qlt_bool (Qabs lam) (1 # 100000000) then Ok stopped
        else if Qlt_bool lam lam_prev && Qlt_bool (lam - step) 0
             then Ok (shortened lam)
             else Ok st
      else if String.eqb (upper s) "NOSE" then
        if Qlt_bool lam lam_prev then Ok stopped else Ok st
      else Raise (StopNotRecognised s)
  | StopNum target =>
      if Qlt_bool lam lam_prev then Ok stopped
      else if Qlt_bool (Qabs (target - lam)) (1 # 100000000) then Ok stopped
      else if Qlt_bool target (lam + step) then Ok (shortened (target - lam))
      else Ok st
  end.

(** Line 899: the local prediction error. *)
Definition cpf_error (V : list C) (lam : Q) (V0 : list C) (lam0 : Q)
  : result Q :=
  v1 <- np.take V pq ;;
  v2 <- np.take V pvpq ;;
  w1 <- np.take V0 pq ;;
  w2 <- np.take V0 pvpq ;;
  Ok (np.norm_inf
        (np.sub (map angle v1 ++ map cabs v2 ++ [lam])
                (map angle w1 ++ map cabs w2 ++ [lam0]))).

(** Lines 901-911: the new step for a prediction error [err]. *)
Definition adapted_step (step err : Q) : fval :=
  if Qlt_bool err error_tol then
    let s := fdiv_ext (step * error_tol) err in
    if fgt s step_max then Finite step_max else s
  else
    let s := fdiv_ext (step * error_tol) err in
    if flt s step_min then Finite step_min else s.

(** Lines 897-911.  When the new step is [nan] or infinite (a zero error
    met with a step or a tolerance that is not positive) the source keeps
    it and goes on; the embedding, whose steps are rationals, stops.  With
    a positive step and tolerance this does not happen ([adapt_finite]). *)
Definition adapt (st : driver_state) (V0 : list C) (lam0 : Q)
  : result driver_state :=
  if truthy (d_adapt_step st) && truthy (d_continuation st) then
    err <- cpf_error (d_V st) (d_lam st) V0 lam0 ;;
    step <- to_float (adapted_step (d_step st) err) ;;
    Ok {| d_V := d_V st; d_lam := d_lam st; d_V_prev := d_V_prev st;
          d_lam_prev := d_lam_prev st;
          d_continuation := d_continuation st;
          d_cont_steps := d_cont_steps st; d_z := d_z st;
          d_Voltage_series := d_Voltage_series st;
          d_Lambda_series := d_Lambda_series st; d_step := step;
          d_approximation_order := d_approximation_order st;
          d_adapt_step := d_adapt_step st; d_normF := d_normF st;
          d_success := d_success st |}
  else Ok st.

(** Lines 833-911: one pass through the body of [while continuation],
    with the calls it makes.  After [break] the state has
    [continuation = 0], which ends the loop as [break] does. *)
Definition runcpf2_body (st : driver_state)
  : list event * result driver_state :=
  let cont_steps := (d_cont_steps st + 1)%Z in
  let step := d_step st in
  let order := d_approximation_order st in
  let e1 := CallPredictor step order (d_adapt_step st) in
  match cpf_predictor (d_V st) (d_lam st) Ybus Sxfr pv pq step (d_z st)
                      (d_V_prev st) (d_lam_prev st) order with
  | Raise e => ([e1], Raise e)
  | Ok (V0, lam0, z) =>
      let V_prev := d_V st in
      let lam_prev := d_lam st in
      let e2 := CallCorrector step order (d_adapt_step st) in
      match cpf_corrector Ybus Sbus_base pv pq Sxfr V_prev lam_prev z step
                          order tol max_it V0 lam0 with
      | Raise e => ([e1; e2], Raise e)
      | Ok (V, success, i, lam, normF) =>
          let e3 := CorrectorReturned V success i lam normF in
          if negb (truthy success) then
            ([e1; e2; e3],
             Ok {| d_V := V; d_lam := lam; d_V_prev := V_prev;
                   d_lam_prev := lam_prev; d_continuation := PyInt 0;
                   d_cont_steps := cont_steps; d_z := z;
                   d_Voltage_series := d_Voltage_series st;
                   d_Lambda_series := d_Lambda_series st;
                   d_step := step; d_approximation_order := order;
                   d_adapt_step := d_adapt_step st;
                   d_normF := Some normF; d_success := Some success |})
          else
            let st1 :=
              {| d_V := V; d_lam := lam; d_V_prev := V_prev;
                 d_lam_prev := lam_prev;
                 d_continuation := d_continuation st;
                 d_cont_steps := cont_steps; d_z := z;
                 d_Voltage_series := d_Voltage_series st ++ [V];
                 d_Lambda_series := d_Lambda_series st ++ [lam];
                 d_step := step; d_approximation_order := order;
                 d_adapt_step := d_adapt_step st;
                 d_normF := Some normF; d_success := Some success |} in
            ([e1; e2; e3], st2 <- stop_rule st1 ;; adapt st2 V0 lam0)
      end
  end.

(** Line 913: [return Voltage_series, Lambda_series, normF, success]. *)
Definition driver_return (st : driver_state) : outcome :=
  match d_normF st, d_success st with
  | Some normF, Some success =>
      Returned (d_Voltage_series st) (d_Lambda_series st) normF success
  | _, _ => Raised UnboundLocalError
  end.

(** [while continuation]: the loop need not end, so it is run for at
    most [fuel] passes. *)
Fixpoint runcpf2_loop (fuel : nat) (st : driver_state)
  : list event * outcome :=
  if truthy (d_continuation st) then
    match fuel with
    | O => ([], OutOfFuel)
    | S fuel' =>
        match runcpf2_body st with
        | (evs, Raise e) => (evs, Raised e)
        | (evs, Ok st') =>
            let (evs', out) := runcpf2_loop fuel' st' in (evs ++ evs', out)
        end
    end
  else ([], driver_return st).

End Driver.

(** Lines 812-826: the initial state. *)
Definition driver_init (Sbus_base : list C) (V : list C) (step : Q)
    (approximation_order : Z) (adapt_step : pyflag) : driver_state :=
  let nb := length Sbus_base in
  let lam := 0 in
  {| d_V := V; d_lam := lam; d_V_prev := V; d_lam_prev := lam;
     d_continuation := PyInt 1; d_cont_steps := 0%Z;
     d_z := np.set_nth (np.zeros (2 * nb + 1)) (2 * nb) 1;
     d_Voltage_series := []; d_Lambda_series := [];
     d_step := step; d_approximation_order := approximation_order;
     d_adapt_step := adapt_step; d_normF := None; d_success := None |}.

Definition runcpf2 (fuel : nat) (Ybus : mat.matrix)
    (Sbus_base Sbus_target : list C) (V : list C) (pv pq : list nat)
    (step : Q) (approximation_order : Z) (adapt_step : pyflag)
    (step_min step_max error_tol tol : Q) (max_it : Z)
    (stop_at : stop_target) : list event * outcome :=
  let Sxfr := np.zipWith Csub Sbus_target Sbus_base in
  runcpf2_loop Ybus Sbus_base Sxfr pv pq step_min step_max error_tol tol
               max_it stop_at fuel
               (driver_init Sbus_base V step approximation_order adapt_step).

End Flow.

(** ** Concrete kernels and a two-bus network

    Kernels that are exact on the values the examples below reach: voltages on
    the real axis ([angle] is [0.0] on a positive real and the float nearest
    to pi on a negative one, [abs] is the absolute value), the angle [0.0]
    ([exp(0j) = 1]), the norms [0.0] and [1.0], and lower-triangular systems
    with a non-zero diagonal (solved by forward substitution). *)

Definition pi_float : Q := 884279719003555 # 281474976710656.

Fixpoint forward_subst (rows : list (list Q)) (b : list Q) (x : list Q)
  : list Q :=
  match rows, b with
  | r :: rows', bi :: b' =>
      let k := length x in
      let xi := (bi - np.dot (firstn k r) x) / nth k r 0 in
      forward_subst rows' b' (x ++ [xi])
  | _, _ => x
  end.

Definition axis_kernels : kernels := {|
  angle := fun c => if Qlt_bool (re c) 0 then pi_float else 0;
  cabs := fun c => Qabs (re c);
  expj := fun _ => mkC 1 0;
  sqrtq := fun x => x;
  spsolve := fun J b => map Qred (forward_subst J b [])
|}.

(** Bus 0 is the reference bus and bus 1 a PQ bus, joined by a line of
    reactance 1 p.u.; no load in the base case nor in the target case. *)
Module two_bus.

Definition Ybus : mat.matrix :=
  [ [mkC 0 (-1); mkC 0 1];
    [mkC 0 1; mkC 0 (-1)] ].
Definition Sbus : list C := [C0; C0].
Definition V : list C := [mkC 1 0; mkC 1 0].
Definition pv : list nat := [].
Definition pq : list nat := [1%nat].

End two_bus.

(** Kernels for voltages within a rounding error of the real axis, after a
    half turn: [exp(1j * pi)] for the float [pi] is [-1 + 1.2246e-16j] in
    numpy, of magnitude [1.0] and angle [pi] again. *)

Definition sin_pi_float : Q :=
  4967757600021511 # 40564819207303340847894502572032.

Definition half_turn_kernels : kernels := {|
  angle := fun c => if Qlt_bool (re c) 0 then pi_float else 0;
  cabs := fun c => Qabs (re c);
  expj := fun a => if Qeq_bool a pi_float then mkC (-1) sin_pi_float
                   else mkC 1 0;
  sqrtq := fun x => x;
  spsolve := fun J b => map Qred (forward_subst J b [])
|}.

(** Bus 0 is the reference bus, bus 1 a PV bus and bus 2 a PQ bus.  Bus 1
    hangs on bus 0 by a line of admittance [pi - 2j] and is scheduled to
    inject [2 * pi]; bus 2 hangs on bus 0 by a line of reactance 1 p.u.,
    without load.  The target case is the base case.  With unit voltages
    the mismatch at bus 1 is [-2 * pi] when its angle is [0] and vanishes
    when its angle is [pi]. *)
Module pv_bus.

Definition y1 : C := mkC pi_float (-2).
Definition y2 : C := mkC 0 (-1).
Definition Ybus : mat.matrix :=
  [ [Cadd y1 y2; Csub C0 y1; Csub C0 y2];
    [Csub C0 y1; y1; C0];
    [Csub C0 y2; C0; y2] ].
Definition Sbus : list C := [C0; mkC (2 * pi_float) 0; C0].
Definition V : list C := [mkC 1 0; mkC 1 0; mkC 1 0].
Definition pv : list nat := [1%nat].
Definition pq : list nat := [2%nat].

End pv_bus.

(** ** The parameterization functions in the specification's words *)

(** Every index of [idx] is a position of [v]. *)
Definition in_range {A : Type} (v : list A) (idx : list nat) : Prop :=
  Forall (fun i => (i < length v)%nat) idx.

Section Specification.

Context {K : kernels}.

(** The state in the (angle at non-reference buses, magnitude at PQ buses)
    layout. *)
Definition state_layout (V : list C) (pvpq pq : list nat) : list Q :=
  map (fun i => angle (nth i V C0)) pvpq ++
  map (fun i => cabs (nth i V C0)) pq.

(** The sum over the positions of two vectors of the square of the
    difference of their entries. *)
Fixpoint sum_sq_diff (a b : list Q) : Q :=
  match a, b with
  | x :: a', y :: b' => (x - y) * (x - y) + sum_sq_diff a' b'
  | _, _ => 0
  end.

(** Twice the difference of two vectors, position by position. *)
Fixpoint twice_diff (a b : list Q) : list Q :=
  match a, b with
  | x :: a', y :: b' => 2 * (x - y) :: twice_diff a' b'
  | _, _ => []
  end.

(** Arc-length: [P = sum (delta state)^2 - step^2], the difference taken
    against the previous accepted solution and including [lam]. *)
Definition arc_length_P (step : Q) (V : list C) (lam : Q) (Vprv : list C)
    (lamprv : Q) (pvpq pq : list nat) : Q :=
  sum_sq_diff (state_layout V pvpq pq ++ [lam])
              (state_layout Vprv pvpq pq ++ [lamprv])
  - step * step.

(** Arc-length: [dP/dV = 2 * delta state]. *)
Definition arc_length_dP_dV (V Vprv : list C) (pvpq pq : list nat)
  : list Q :=
  twice_diff (state_layout V pvpq pq) (state_layout Vprv pvpq pq).

(** The augmented mismatch at [(V, lam)]: the power mismatch, real part at
    the non-reference buses and imaginary part at the PQ buses, followed by
    the parameterization residual [P]. *)
Definition augmented_mismatch (Ybus : mat.matrix) (Sbus : list C)
    (pv pq : list nat) (Sxfr Vprv : list C) (lamprv : Q) (z : list Q)
    (step : Q) (parameterization : Z) (V : list C) (lam : Q)
  : result (list Q) :=
  let mis := mismatch Ybus Sbus V lam Sxfr in
  m1 <- np.take mis (pv ++ pq) ;;
  m2 <- np.take mis pq ;;
  P <- cpf_p parameterization step z V lam Vprv lamprv pv pq (pv ++ pq) ;;
  Ok (map re m1 ++ map im m2 ++ [P]).

(** What holds of the corrector's variables each time the test of its
    loop is evaluated: [F] is the augmented mismatch at [(V, lam)], [normF]
    its infinity norm, and [converged] tells whether it is below [tol]. *)
Definition corrector_inv (Ybus : mat.matrix) (Sbus : list C)
    (pv pq : list nat) (Sxfr Vprv : list C) (lamprv : Q) (z : list Q)
    (step : Q) (parameterization : Z) (tol : Q) (s : corrector_state)
  : Prop :=
  augmented_mismatch Ybus Sbus pv pq Sxfr Vprv lamprv z step
                     parameterization (c_V s) (c_lam s) = Ok (c_F s) /\
  c_normF s = np.norm_inf (c_F s) /\
  truthy (c_converged s) = Qlt_bool (c_normF s) tol.

End Specification.

(** ** The adaptive step in the specification's words *)

Section StepPolicy.

Context {K : kernels}.

Definition angles_at (V : list C) (idx : list nat) : list Q :=
  map (fun i => angle (nth i V C0)) idx.

Definition magnitudes_at (V : list C) (idx : list nat) : list Q :=
  map (fun i => cabs (nth i V C0)) idx.

(** The infinity norm of the difference of two vectors: the largest
    absolute difference between entries at the same position. *)
Fixpoint max_abs_diff (a b : list Q) : Q :=
  match a, b with
  | x :: a', y :: b' => Qmax (Qabs (x - y)) (max_abs_diff a' b')
  | _, _ => 0
  end.

(** The prediction error over (angle at the non-reference buses, magnitude
    at the non-reference buses, lam). *)
Definition prediction_error_nonref (pv pq : list nat) (V : list C) (lam : Q)
    (V0 : list C) (lam0 : Q) : Q :=
  let nonref := pv ++ pq in
  max_abs_diff (angles_at V nonref ++ magnitudes_at V nonref ++ [lam])
               (angles_at V0 nonref ++ magnitudes_at V0 nonref ++ [lam0]).

(** The prediction error over (angle at the PQ buses, magnitude at the
    non-reference buses, lam). *)
Definition prediction_error (pv pq : list nat) (V : list C) (lam : Q)
    (V0 : list C) (lam0 : Q) : Q :=
  let nonref := pv ++ pq in
  max_abs_diff (angles_at V pq ++ magnitudes_at V nonref ++ [lam])
               (angles_at V0 pq ++ magnitudes_at V0 nonref ++ [lam0]).

(** The step multiplied by [error_tol / err], capped at [step_max] when
    the error is below the tolerance and floored at [step_min] otherwise. *)
Definition rescaled_step (step_min step_max error_tol step err : Q) : Q :=
  match err ?= error_tol with
  | Lt => Qmin (step * (error_tol / err)) step_max
  | _ => Qmax (step * (error_tol / err)) step_min
  end.

End StepPolicy.

(** ** The driver's calls *)

(** The step passed by a call lies in [[step_min, step_max]]. *)
Definition step_in_bounds (step_min step_max : Q) (e : event) : Prop :=
  match e with
  | CallPredictor step _ _ | CallCorrector step _ _ =>
      step_min <= step <= step_max
  | CorrectorReturned _ _ _ _ _ => True
  end.

(** The same, asked only of the calls made while [adapt_step] is true. *)
Definition step_in_bounds_while_adapting (step_min step_max : Q) (e : event)
  : Prop :=
  match e with
  | CallPredictor step _ adapt_step | CallCorrector step _ adapt_step =>
      truthy adapt_step = true -> step_min <= step <= step_max
  | CorrectorReturned _ _ _ _ _ => True
  end.

(** The step passed by a call made while [adapt_step] is true is
    positive. *)
Definition step_positive_while_adapting (e : event) : Prop :=
  match e with
  | CallPredictor step _ adapt_step | CallCorrector step _ adapt_step =>
      truthy adapt_step = true -> 0 < step
  | CorrectorReturned _ _ _ _ _ => True
  end.

(** The points accepted along a run: what the corrector returned with
    [converged] true, in order. *)
Fixpoint accepted (tr : list event) : list (list C * Q) :=
  match tr with
  | [] => []
  | CorrectorReturned V converged _ lam _ :: tr' =>
      if truthy converged then (V, lam) :: accepted tr' else accepted tr'
  | _ :: tr' => accepted tr'
  end.

(** The point a pass of the driver starts from: the last point accepted
    before it, or the initial voltage with [lam = 0]. *)
Definition current_point (V : list C) (tr : list event) : list C * Q :=
  last (accepted tr) (V, 0).

(** The driver's variables keep the step within bounds as long as the step
    is being adapted. *)
Definition step_inv (step_min step_max : Q) (st : driver_state) : Prop :=
  truthy (d_adapt_step st) = true -> step_min <= d_step st <= step_max.

(** The step is positive as long as it is being adapted. *)
Definition step_positive (st : driver_state) : Prop :=
  truthy (d_adapt_step st) = true -> 0 < d_step st.

(** ** The stop target, read letter by letter *)

(** [c] is the capital letter [d] or the small letter that goes with it. *)
Definition same_letter (c d : ascii) : bool :=
  Ascii.eqb c d || (nat_of_ascii c =? nat_of_ascii d + 32)%nat.

(** [t] is written in the capital letters "A" to "Z". *)
Fixpoint capitals (t : string) : bool :=
  match t with
  | EmptyString => true
  | String d t' =>
      (65 <=? nat_of_ascii d)%nat && (nat_of_ascii d <=? 90)%nat
      && capitals t'
  end.

(** [s] spells the word [t], given in capitals, in any case of letters. *)
Fixpoint spells (s t : string) : bool :=
  match s, t with
  | EmptyString, EmptyString => true
  | String c s', String d t' => same_letter c d && spells s' t'
  | _, _ => false
  end.

(** ** The stopping rule, read as a condition *)

(** What makes the driver stop after an accepted step, as a condition on
    the previous and the new [lam]. *)
Definition stop_condition (stop_at : stop_target) (lam_prev lam : Q) : Prop :=
  match stop_at with
  | StopStr s =>
      if spells s "FULL" then Qabs lam < 1 # 100000000
      else if spells s "NOSE" then lam < lam_prev
      else False
  | StopNum target =>
      lam < lam_prev \/ Qabs (target - lam) < 1 # 100000000
  end.

(** The stop target is a number or an ASCII string. *)
Definition ascii_target (stop_at : stop_target) : Prop :=
  match stop_at with
  | StopStr s => is_ascii s = true
  | StopNum _ => True
  end.

(** The stop target is not the mode "FULL". *)
Definition not_full (stop_at : stop_target) : Prop :=
  match stop_at with
  | StopStr s => String.eqb (upper s) "FULL" = false
  | StopNum _ => True
  end.

(** A call made with the scheme [order] and the flag [adapt_step]. *)
Definition call_with (order : Z) (adapt_step : pyflag) (e : event) : Prop :=
  match e with
  | CallPredictor _ o a | CallCorrector _ o a => o = order /\ a = adapt_step
  | CorrectorReturned _ _ _ _ _ => True
  end.

(** A matrix with [r] rows of [c] entries. *)
Definition has_shape {A : Type} (m : list (list A)) (r c : nat) : Prop :=
  length m = r /\ Forall (fun row => length row = c) m.

(** What is known of the returned trajectory before the loop test:
    while the loop goes on, [lam] is the last accepted value; once it has
    stopped with success, the last accepted step met the stop condition. *)
Definition stop_inv (stop_at : stop_target) (st : driver_state) : Prop :=
  (truthy (d_continuation st) = true ->
   d_lam st = last (d_Lambda_series st) 0) /\
  (truthy (d_continuation st) = false ->
   forall s, d_success st = Some s -> truthy s = true ->
   exists Ls' lam,
     d_Lambda_series st = Ls' ++ [lam] /\
     stop_condition stop_at (last Ls' 0) lam).

(** The values of a list never decrease from one position to the next. *)
Fixpoint nondecreasing (l : list Q) : Prop :=
  match l with
  | [] => True
  | a :: t =>
      match t with
      | [] => True
      | b :: _ => a <= b
      end /\ nondecreasing t
  end.

(** While the loop goes on, the accepted values of [lam] (after the initial
    0) have not decreased and [lam] is the last of them; once it has stopped,
    they have not decreased up to the last one. *)
Definition lam_inv (st : driver_state) : Prop :=
  (truthy (d_continuation st) = true ->
   nondecreasing (0 :: d_Lambda_series st) /\
   d_lam st = last (d_Lambda_series st) 0) /\
  (truthy (d_continuation st) = false ->
   nondecreasing (removelast (0 :: d_Lambda_series st))).


(** ** Matrix entries *)

(** Equality of complex numbers, component by component. *)
Definition Ceq (a b : C) : Prop := re a == re b /\ im a == im b.

(** The entry in row [i] and column [j]. *)
Definition entry (m : mat.matrix) (i j : nat) : C := nth j (nth i m []) C0.

(** [V / abs(V)] for one voltage. *)
Definition unit_voltage {K : kernels} (v : C) : C :=
  mkC (re v / cabs v) (im v / cabs v).

(** * Properties *)

(** ** Index arrays *)

Lemma bind_ok_inv {A B : Type} (m : result A) (k : A -> result B) (b : B) :
  bind m k = Ok b -> exists a, m = Ok a /\ k a = Ok b.
Proof.
  destruct m as [a | e]; simpl; intros H; [ eauto | discriminate ].
Qed.

Lemma getitem_raise {A : Type} (v : list A) (i : nat) (e : exn) :
  np.getitem v i = Raise e -> e = IndexError.
Proof.
  unfold np.getitem. destruct (nth_error v i); congruence.
Qed.

Lemma getitem_out_of_range {A : Type} (v : list A) (i : nat) :
  (length v <= i)%nat -> np.getitem v i = Raise IndexError.
Proof.
  intros H. unfold np.getitem.
  apply nth_error_None in H. now rewrite H.
Qed.

Lemma getitem_in_range {A : Type} (v : list A) (i : nat) (d : A) :
  (i < length v)%nat -> np.getitem v i = Ok (nth i v d).
Proof.
  intros H. unfold np.getitem.
  now rewrite (nth_error_nth' v d H).
Qed.

Lemma take_raise {A : Type} (v : list A) (idx : list nat) (e : exn) :
  np.take v idx = Raise e -> e = IndexError.
Proof.
  unfold np.take. induction idx as [| i idx IH]; simpl; [ discriminate | ].
  destruct (np.getitem v i) eqn:Hi; simpl.
  - destruct (mapM (np.getitem v) idx); simpl; [ discriminate | ].
    intros H. apply IH. congruence.
  - intros H. apply (getitem_raise v i). congruence.
Qed.

Lemma take_out_of_range {A : Type} (v : list A) (idx : list nat) (i : nat) :
  In i idx -> (length v <= i)%nat -> np.take v idx = Raise IndexError.
Proof.
  intros Hin Hi. unfold np.take.
  induction idx as [| k idx IH]; simpl in *; [ contradiction | ].
  destruct (np.getitem v k) eqn:Hk; simpl.
  - destruct Hin as [-> | Hin].
    + rewrite (getitem_out_of_range v i Hi) in Hk. discriminate.
    + now rewrite (IH Hin).
  - f_equal. eapply getitem_raise; eauto.
Qed.

Lemma take_in_range {A : Type} (v : list A) (d : A) (idx : list nat) :
  Forall (fun i => (i < length v)%nat) idx ->
  np.take v idx = Ok (map (fun i => nth i v d) idx).
Proof.
  unfold np.take. induction 1 as [| i idx Hi _ IH]; simpl; [ reflexivity | ].
  now rewrite (getitem_in_range v i d Hi), IH.
Qed.

Lemma take_length {A : Type} (v : list A) (idx : list nat) (l : list A) :
  np.take v idx = Ok l -> length l = length idx.
Proof.
  unfold np.take. revert l. induction idx as [| i idx IH]; simpl; intros l H.
  - now inversion H.
  - apply bind_ok_inv in H as (x & _ & H).
    apply bind_ok_inv in H as (xs & Hxs & H).
    inversion H; subst. simpl. f_equal. now apply IH.
Qed.

Lemma take_app {A : Type} (v : list A) (i1 i2 : list nat) :
  np.take v (i1 ++ i2) =
  (x <- np.take v i1 ;; y <- np.take v i2 ;; Ok (x ++ y)).
Proof.
  unfold np.take. induction i1 as [| i i1 IH]; simpl.
  - now destruct (mapM (np.getitem v) i2).
  - destruct (np.getitem v i); simpl; [ | reflexivity ].
    rewrite IH.
    destruct (mapM (np.getitem v) i1); simpl; [ | reflexivity ].
    now destruct (mapM (np.getitem v) i2).
Qed.

Section Parameterization.

Context {K : kernels}.

(** *** Pseudo arc-length: the index past the end of [z] *)

Lemma cpf_p_jac_pseudo_arc_length_raises
    (z : list Q) (V : list C) (lam : Q) (Vprv : list C) (lamprv : Q)
    (pv pq pvpq : list nat) :
  cpf_p_jac 3 z V lam Vprv lamprv pv pq pvpq = Raise IndexError.
Proof.
  unfold cpf_p_jac. simpl.
  destruct (np.take z _) eqn:Ht; simpl.
  - destruct (np.getitem z _) eqn:Hg; simpl; [ reflexivity | ].
    f_equal. eapply getitem_raise; eauto.
  - f_equal. eapply take_raise; eauto.
Qed.

Lemma cpf_p_pseudo_arc_length_raises
    (step : Q) (z : list Q) (V : list C) (lam : Q) (Vprv : list C)
    (lamprv : Q) (pv pq pvpq : list nat) :
  (length z <= 2 * length V + 1)%nat ->
  cpf_p 3 step z V lam Vprv lamprv pv pq pvpq = Raise IndexError.
Proof.
  intros Hz. unfold cpf_p. simpl.
  rewrite (take_out_of_range z _ (length V + (length V + 0) + 1)%nat);
    [ reflexivity | | simpl in Hz; lia ].
  rewrite !in_app_iff. right. right. right. now left.
Qed.

(** C1 (as the code has it): with the tangent vector the driver builds and
    every predictor returns, of length [2*nb+1], the pseudo arc-length
    branch of [cpf_p] reads [z[2*nb+1]], one past the last component, and
    raises [IndexError] instead of returning
    [z . (state - state_prev) - step]; [cpf_p_jac] raises as well. *)
Theorem cpf_pseudo_arc_length_index_error
    (step : Q) (z : list Q) (V : list C) (lam : Q) (Vprv : list C)
    (lamprv : Q) (pv pq pvpq : list nat) :
  length z = (2 * length V + 1)%nat ->
  cpf_p 3 step z V lam Vprv lamprv pv pq pvpq = Raise IndexError /\
  cpf_p_jac 3 z V lam Vprv lamprv pv pq pvpq = Raise IndexError.
Proof.
  intros Hz. split.
  - apply cpf_p_pseudo_arc_length_raises. lia.
  - apply cpf_p_jac_pseudo_arc_length_raises.
Qed.

(** *** Unknown schemes *)

(** C10: for a parameterization other than 1, 2 and 3 neither [cpf_p] nor
    [cpf_p_jac] returns: no branch binds the returned variable and the
    [return] raises [UnboundLocalError]. *)
Theorem cpf_unknown_parameterization
    (parameterization : Z) (step : Q) (z : list Q) (V : list C) (lam : Q)
    (Vprv : list C) (lamprv : Q) (pv pq pvpq : list nat) :
  parameterization <> 1%Z -> parameterization <> 2%Z ->
  parameterization <> 3%Z ->
  cpf_p parameterization step z V lam Vprv lamprv pv pq pvpq
    = Raise UnboundLocalError /\
  cpf_p_jac parameterization z V lam Vprv lamprv pv pq pvpq
    = Raise UnboundLocalError.
Proof.
  intros H1 H2 H3. unfold cpf_p, cpf_p_jac.
  apply Z.eqb_neq in H1, H2, H3. now rewrite H1, H2, H3.
Qed.

End Parameterization.

Lemma sum_acc (l : list Q) (a : Q) : fold_left Qplus l a == a + np.sum l.
Proof.
  unfold np.sum. revert a. induction l as [| x l IH]; intros a; simpl.
  - ring.
  - rewrite (IH (a + x)), (IH (0 + x)). ring.
Qed.

Lemma sum_cons (x : Q) (l : list Q) : np.sum (x :: l) == x + np.sum l.
Proof.
  unfold np.sum at 1. simpl. rewrite sum_acc. ring.
Qed.

(** The code's [sum((a - b)**2)] and [2 * (a - b)] against the sum of squared
    differences and the doubled difference written out. *)
Lemma sum_sq_sub (a b : list Q) :
  np.sum (np.sq (np.sub a b)) == sum_sq_diff a b.
Proof.
  revert b. induction a as [| x a IH]; intros [| y b];
    try (unfold np.sum; simpl; reflexivity).
  change (np.sq (np.sub (x :: a) (y :: b)))
    with ((x - y) ^ 2 :: np.sq (np.sub a b)).
  rewrite sum_cons, IH. simpl. ring.
Qed.

Lemma scale_sub (a b : list Q) :
  np.scale 2 (np.sub a b) = twice_diff a b.
Proof.
  revert b. induction a as [| x a IH]; intros [| y b]; try reflexivity.
  change (np.scale 2 (np.sub (x :: a) (y :: b)))
    with (2 * (x - y) :: np.scale 2 (np.sub a b)).
  simpl. now rewrite IH.
Qed.

Section ArcLength.

Context {K : kernels}.

Lemma take_angle (V : list C) (idx : list nat) :
  in_range V idx ->
  np.take (map angle V) idx = Ok (map (fun i => angle (nth i V C0)) idx).
Proof.
  intros H. rewrite (take_in_range _ (angle C0)).
  - f_equal. apply map_ext. intros i. apply map_nth.
  - unfold in_range in H. now rewrite length_map.
Qed.

Lemma take_cabs (V : list C) (idx : list nat) :
  in_range V idx ->
  np.take (map cabs V) idx = Ok (map (fun i => cabs (nth i V C0)) idx).
Proof.
  intros H. rewrite (take_in_range _ (cabs C0)).
  - f_equal. apply map_ext. intros i. apply map_nth.
  - unfold in_range in H. now rewrite length_map.
Qed.

(** C9: in arc-length mode [cpf_p] returns the sum of the squared
    differences of (angles at non-reference buses, magnitudes at PQ buses,
    lam) against the previous solution, minus [step^2]; [cpf_p_jac] returns
    [dP/dV = 2 * delta state] in the same layout and [dP/dlam =
    2 * (lam - lamprv)], replaced by [1] when [lam = lamprv]. *)
Theorem cpf_arc_length
    (step : Q) (z : list Q) (V : list C) (lam : Q) (Vprv : list C)
    (lamprv : Q) (pv pq pvpq : list nat) :
  in_range V pvpq -> in_range V pq ->
  in_range Vprv pvpq -> in_range Vprv pq ->
  (exists P,
     cpf_p 2 step z V lam Vprv lamprv pv pq pvpq = Ok P /\
     P == arc_length_P step V lam Vprv lamprv pvpq pq) /\
  exists dP_dlam,
    cpf_p_jac 2 z V lam Vprv lamprv pv pq pvpq
      = Ok (arc_length_dP_dV V Vprv pvpq pq, dP_dlam) /\
    (lam == lamprv -> dP_dlam = 1) /\
    (~ lam == lamprv -> dP_dlam = 2 * (lam - lamprv)).
Proof.
  intros H1 H2 H3 H4. split.
  - unfold cpf_p. simpl.
    rewrite (take_angle V pvpq H1), (take_cabs V pq H2),
      (take_angle Vprv pvpq H3), (take_cabs Vprv pq H4). simpl.
    eexists. split; [ reflexivity | ].
    unfold arc_length_P, state_layout. rewrite sum_sq_sub, <- !app_assoc.
    simpl. ring.
  - unfold cpf_p_jac. simpl.
    rewrite (take_angle V pvpq H1), (take_cabs V pq H2),
      (take_angle Vprv pvpq H3), (take_cabs Vprv pq H4). simpl.
    rewrite scale_sub. fold (state_layout V pvpq pq).
    fold (state_layout Vprv pvpq pq).
    fold (arc_length_dP_dV V Vprv pvpq pq).
    destruct (Qeq_bool lam lamprv) eqn:E.
    + exists 1. split; [ reflexivity | split; [ reflexivity | ] ].
      intros Hn. apply Qeq_bool_iff in E. contradiction.
    + exists (2 * (lam - lamprv)).
      split; [ reflexivity | split; [ | reflexivity ] ].
      intros He. apply Qeq_bool_iff in He. congruence.
Qed.

End ArcLength.

Lemma Qlt_bool_iff (x y : Q) : Qlt_bool x y = true <-> x < y.
Proof.
  unfold Qlt_bool. rewrite negb_true_iff, <- not_true_iff_false, Qle_bool_iff.
  split; [ apply Qnot_le_lt | apply Qlt_not_le ].
Qed.

Lemma Qlt_bool_false_iff (x y : Q) : Qlt_bool x y = false <-> y <= x.
Proof.
  unfold Qlt_bool. now rewrite negb_false_iff, Qle_bool_iff.
Qed.

(** ** The corrector *)

Ltac inv_bind H :=
  repeat match type of H with
    | bind ?m ?k = Ok _ =>
        let x := fresh "x" in
        let Hx := fresh "Hx" in
        apply bind_ok_inv in H as (x & Hx & H)
    | (let (_, _) := ?p in _) = Ok _ => destruct p
    | (if ?b then _ else _) = Ok _ => destruct b eqn:?
    end.

Section CorrectorProperties.

Context {K : kernels}.

Variables (Ybus : mat.matrix) (Sbus : list C) (pv pq : list nat)
          (Sxfr Vprv : list C) (lamprv : Q) (z : list Q) (step : Q)
          (parameterization : Z) (tol : Q) (max_it : Z).

Local Notation "'F_at'" :=
  (augmented_mismatch Ybus Sbus pv pq Sxfr Vprv lamprv z step
                      parameterization).
Local Notation "'init'" :=
  (corrector_init Ybus Sbus pv pq Sxfr Vprv lamprv z step parameterization
                  tol).
Local Notation "'iteration'" :=
  (corrector_iteration Ybus Sbus pv pq Sxfr Vprv lamprv z step
                       parameterization tol).
Local Notation "'loop'" :=
  (corrector_loop Ybus Sbus pv pq Sxfr Vprv lamprv z step parameterization
                  tol max_it).
Local Notation "'corrector'" :=
  (cpf_corrector Ybus Sbus pv pq Sxfr Vprv lamprv z step parameterization
                 tol max_it).

(** The initial evaluation is the augmented mismatch at the trial point. *)
Lemma corrector_init_eq (V0 : list C) (lam0 : Q) :
  init V0 lam0 =
  (F <- F_at V0 lam0 ;;
   Ok {| c_V := V0; c_Va := map angle V0; c_Vm := map cabs V0;
         c_lam := lam0; c_F := F; c_normF := np.norm_inf F;
         c_converged := if Qlt_bool (np.norm_inf F) tol then PyBool true
                        else PyInt 0;
         c_i := 0%Z |}).
Proof.
  unfold corrector_init, augmented_mismatch. cbv zeta.
  destruct (np.take _ (pv ++ pq)) as [m1 | e]; simpl; [ | reflexivity ].
  destruct (np.take _ pq) as [m2 | e]; simpl; [ | reflexivity ].
  destruct (cpf_p _ _ _ _ _ _ _ _ _ _) as [P | e]; simpl; [ | reflexivity ].
  now rewrite <- app_assoc.
Qed.

Local Notation "'inv'" :=
  (corrector_inv Ybus Sbus pv pq Sxfr Vprv lamprv z step parameterization
                 tol).

Lemma corrector_init_inv (V0 : list C) (lam0 : Q) (s : corrector_state) :
  init V0 lam0 = Ok s ->
  inv s /\ c_i s = 0%Z /\ c_V s = V0 /\ c_lam s = lam0.
Proof.
  rewrite corrector_init_eq. intros H.
  apply bind_ok_inv in H as (F & HF & H). inversion H; subst; clear H.
  unfold corrector_inv; simpl. repeat split; try assumption.
  now destruct (Qlt_bool (np.norm_inf F) tol).
Qed.

Lemma corrector_iteration_inv (s s' : corrector_state) :
  truthy (c_converged s) = false ->
  iteration s = Ok s' ->
  inv s' /\ c_i s' = (c_i s + 1)%Z.
Proof.
  intros Hc H. unfold corrector_iteration in H. cbv zeta in H.
  inv_bind H. inversion H; subst; clear H.
  assert (x6 = x5) as -> by congruence.
  unfold corrector_inv, augmented_mismatch; simpl.
  repeat split.
  - rewrite take_app, Hx6, Hx7. cbn [bind]. rewrite Hx9. cbn [bind].
    now rewrite map_app, <- !app_assoc.
  - destruct (Qlt_bool _ tol); [ reflexivity | assumption ].
Qed.

(** The Newton loop ends by its own test: with a budget of [max_it - i]
    passes it stops converged or with [i >= max_it], after at most
    [max_it] iterations in all. *)
Lemma corrector_loop_exit (fuel : nat) (s s' : corrector_state) :
  inv s ->
  loop fuel s = Ok s' ->
  inv s' /\
  (c_i s <= c_i s')%Z /\
  (c_i s' <= Z.max (c_i s) max_it)%Z /\
  ((max_it - c_i s <= Z.of_nat fuel)%Z ->
   truthy (c_converged s') = true \/ (max_it <= c_i s')%Z).
Proof.
  revert s. induction fuel as [| fuel IH]; intros s Hinv H; simpl in H.
  - destruct (negb (truthy (c_converged s)) && (c_i s <? max_it)%Z) eqn:E;
      inversion H; subst; clear H;
      (split; [ assumption | split; [ lia | split; [ lia | intros Hf ] ] ]).
    + apply andb_true_iff in E as [_ E]. apply Z.ltb_lt in E.
      simpl in Hf. lia.
    + apply andb_false_iff in E as [E | E].
      * left. now apply negb_false_iff in E.
      * right. apply Z.ltb_ge in E. lia.
  - destruct (negb (truthy (c_converged s)) && (c_i s <? max_it)%Z) eqn:E.
    + apply andb_true_iff in E as [Ec E]. apply Z.ltb_lt in E.
      apply negb_true_iff in Ec.
      apply bind_ok_inv in H as (s1 & H1 & H).
      destruct (corrector_iteration_inv s s1 Ec H1) as [Hinv1 Hi].
      destruct (IH s1 Hinv1 H) as (Hinv' & Hle & Hmax & Hexit).
      split; [ assumption | split; [ lia | split; [ lia | intros Hf ] ] ].
      apply Hexit. lia.
    + inversion H; subst; clear H.
      split; [ assumption | split; [ lia | split; [ lia | intros Hf ] ] ].
      apply andb_false_iff in E as [E | E].
      * left. now apply negb_false_iff in E.
      * right. apply Z.ltb_ge in E. lia.
Qed.

(** Whenever the corrector returns: it made at most [max_it] iterations,
    [normF] is the infinity norm of the augmented mismatch at the returned
    point, [converged] is true exactly when that norm is below [tol], and
    a run that did not converge used all its iterations. *)
Lemma cpf_corrector_returns (V0 : list C) (lam0 : Q)
    (V : list C) (converged : pyflag) (i : Z) (lam normF : Q) :
  corrector V0 lam0 = Ok (V, converged, i, lam, normF) ->
  (0 <= i <= Z.max 0 max_it)%Z /\
  (exists F, F_at V lam = Ok F /\ normF = np.norm_inf F) /\
  (truthy converged = true <-> normF < tol) /\
  (truthy converged = false -> i = Z.max 0 max_it).
Proof.
  unfold cpf_corrector. intros H.
  apply bind_ok_inv in H as (s0 & H0 & H).
  apply bind_ok_inv in H as (s & Hs & H). inversion H; subst; clear H.
  destruct (corrector_init_inv V0 lam0 s0 H0) as (Hinv0 & Hi0 & _ & _).
  destruct (corrector_loop_exit _ s0 s Hinv0 Hs)
    as ((HF & Hn & Hc) & Hle & Hmax & Hexit).
  rewrite Hi0 in *.
  repeat split; try lia.
  - exists (c_F s). now split.
  - intros Ht. apply Qlt_bool_iff. congruence.
  - intros Ht. apply Qlt_bool_iff in Ht. congruence.
  - intros Hf. destruct Hexit as [Ht | Hge]; [ lia | congruence | lia ].
Qed.

(** C6: if the augmented mismatch at the trial point [(V0, lam0)] already
    has infinity norm below [tol], the corrector returns converged true,
    iteration count 0 and [V0], [lam0] unchanged. *)
Theorem cpf_corrector_idempotent (V0 : list C) (lam0 : Q) (F : list Q) :
  F_at V0 lam0 = Ok F ->
  np.norm_inf F < tol ->
  corrector V0 lam0 = Ok (V0, PyBool true, 0%Z, lam0, np.norm_inf F).
Proof.
  intros HF Hlt. unfold cpf_corrector.
  rewrite corrector_init_eq, HF. simpl.
  apply Qlt_bool_iff in Hlt. rewrite Hlt.
  now destruct (Z.to_nat max_it).
Qed.

End CorrectorProperties.

(** ** The predictor *)


Lemma length_set_nth {A : Type} (v : list A) (i : nat) (x : A) :
  length (np.set_nth v i x) = length v.
Proof.
  revert i. induction v as [| h t IH]; intros [| i]; simpl; auto.
Qed.



Lemma length_put_seq {A : Type} (idx : list nat) (vals v : list A) :
  length (np.put_seq v idx vals) = length v.
Proof.
  revert vals v. induction idx as [| i idx IH]; intros [| x vals] v; simpl;
    auto. now rewrite IH, length_set_nth.
Qed.







Lemma put_length {A : Type} (v : list A) (idx : list nat) (vals v' : list A) :
  np.put v idx vals = Ok v' -> length v' = length v /\ in_range v idx.
Proof.
  intros H. unfold np.put in H.
  destruct (forallb _ idx) eqn:Hall; [ | discriminate ].
  split.
  - destruct (_ =? _)%nat; [ | discriminate ]. injection H as <-.
    apply length_put_seq.
  - unfold in_range. apply Forall_forall. intros i Hi.
    rewrite forallb_forall in Hall. apply Nat.ltb_lt. now apply Hall.
Qed.


Section PredictorProperties.

Context {K : kernels}.



End PredictorProperties.

(** ** Pseudo arc-length through the corrector and the predictor *)

Section PseudoArcLength.

Context {K : kernels}.

(** C7 (as the code has it): called with the pseudo arc-length scheme and
    a tangent vector of length [2*nb+1], the corrector does not return: the
    first evaluation of [P] raises [IndexError] before any Newton
    iteration. *)
Theorem cpf_corrector_pseudo_arc_length_raises
    (Ybus : mat.matrix) (Sbus : list C) (pv pq : list nat)
    (Sxfr Vprv : list C) (lamprv : Q) (z : list Q) (step tol : Q)
    (max_it : Z) (V0 : list C) (lam0 : Q) :
  length z = (2 * length V0 + 1)%nat ->
  cpf_corrector Ybus Sbus pv pq Sxfr Vprv lamprv z step 3 tol max_it V0 lam0
    = Raise IndexError.
Proof.
  intros Hz. unfold cpf_corrector, corrector_init. cbv zeta.
  destruct (np.take _ (pv ++ pq)) as [m1 | e] eqn:H1; cbn [bind].
  - destruct (np.take _ pq) as [m2 | e] eqn:H2; cbn [bind].
    + rewrite cpf_p_pseudo_arc_length_raises by lia. reflexivity.
    + f_equal. eapply take_raise; eauto.
  - f_equal. eapply take_raise; eauto.
Qed.

(** C5 (as the code has it): called with the pseudo arc-length scheme the
    predictor returns neither tangent nor trial point: [cpf_p_jac] raises
    before the tangent is computed. *)
Theorem cpf_predictor_pseudo_arc_length_raises
    (V : list C) (lam : Q) (Ybus : mat.matrix) (Sxfr : list C)
    (pv pq : list nat) (step : Q) (z : list Q) (Vprv : list C) (lamprv : Q) :
  exists e,
    cpf_predictor V lam Ybus Sxfr pv pq step z Vprv lamprv 3 = Raise e.
Proof.
  unfold cpf_predictor. cbv zeta.
  destruct (jacobian Ybus V (pv ++ pq) pq) as [J | e]; cbn [bind];
    [ | now exists e ].
  destruct (np.take Sxfr (pv ++ pq)) as [s1 | e]; cbn [bind];
    [ | now exists e ].
  destruct (np.take Sxfr pq) as [s2 | e]; cbn [bind]; [ | now exists e ].
  rewrite cpf_p_jac_pseudo_arc_length_raises. cbn [bind].
  now exists IndexError.
Qed.

End PseudoArcLength.

(** ** The driver: step bounds *)

Lemma Qabs_max_nonneg (x m : Q) : 0 <= Qmax (Qabs x) m.
Proof.
  apply Qle_trans with (Qabs x); [ apply Qabs_nonneg | apply Q.le_max_l ].
Qed.

Lemma Qmult_le_l_nonneg (x y z : Q) : 0 <= z -> x <= y -> z * x <= z * y.
Proof.
  intros Hz Hxy. rewrite (Qmult_comm z x), (Qmult_comm z y).
  now apply Qmult_le_compat_r.
Qed.

Lemma norm_inf_nonneg (a : list Q) : 0 <= np.norm_inf a.
Proof.
  destruct a as [| x a]; simpl; [ apply Qle_refl | apply Qabs_max_nonneg ].
Qed.

Section StepBounds.

Context {K : kernels}.

Variables (Ybus : mat.matrix) (Sbus_base : list C) (Sxfr : list C)
          (pv pq : list nat) (step_min step_max error_tol tol : Q)
          (max_it : Z) (stop_at : stop_target).

Hypothesis step_min_nonneg : 0 <= step_min.

Local Notation "'bounded'" := (step_in_bounds_while_adapting step_min step_max).
Local Notation "'sinv'" := (step_inv step_min step_max).

(** The adaptive policy keeps a step that is within bounds within bounds. *)
Lemma adapted_step_in_bounds (step err step' : Q) :
  0 <= err ->
  step_min <= step <= step_max ->
  to_float (adapted_step step_min step_max error_tol step err) = Ok step' ->
  step_min <= step' <= step_max.
Proof.
  intros Herr [Hlo Hhi] H. unfold adapted_step, fdiv_ext in H.
  destruct (Qlt_bool err error_tol) eqn:Elt.
  - apply Qlt_bool_iff in Elt.
    destruct (Qeq_bool err 0) eqn:E0.
    + destruct (Qlt_bool 0 (step * error_tol)); simpl in H.
      * injection H as <-. split; [ lra | apply Qle_refl ].
      * destruct (Qlt_bool (step * error_tol) 0); discriminate.
    + apply Qeq_bool_neq in E0. simpl in H.
      assert (Hpos : 0 < err) by (apply Qle_lteq in Herr as [Hp | Hz];
                                  [ assumption | now symmetry in Hz ]).
      assert (Hstep : 0 <= step) by lra.
      destruct (Qlt_bool step_max (step * error_tol / err)) eqn:Ec;
        simpl in H; injection H as <-.
      * split; [ lra | apply Qle_refl ].
      * apply Qlt_bool_false_iff in Ec. split; [ | assumption ].
        apply Qle_trans with step; [ assumption | ].
        apply Qle_shift_div_l; [ assumption | ].
        apply Qmult_le_l_nonneg; lra.
  - apply Qlt_bool_false_iff in Elt.
    destruct (Qeq_bool err 0) eqn:E0.
    + destruct (Qlt_bool 0 (step * error_tol)); simpl in H;
        [ discriminate | ].
      destruct (Qlt_bool (step * error_tol) 0); simpl in H;
        [ | discriminate ].
      injection H as <-. split; [ apply Qle_refl | lra ].
    + apply Qeq_bool_neq in E0. simpl in H.
      assert (Hpos : 0 < err) by (apply Qle_lteq in Herr as [Hp | Hz];
                                  [ assumption | now symmetry in Hz ]).
      assert (Hstep : 0 <= step) by lra.
      destruct (Qlt_bool (step * error_tol / err) step_min) eqn:Ec;
        simpl in H; injection H as <-.
      * split; [ apply Qle_refl | lra ].
      * apply Qlt_bool_false_iff in Ec. split; [ assumption | ].
        apply Qle_trans with step; [ | assumption ].
        apply Qle_shift_div_r; [ assumption | ].
        apply Qmult_le_l_nonneg; lra.
Qed.

(** The stopping rule leaves the trajectory and the corrector's results
    alone; it either keeps the step or disables the adaptation. *)
Lemma stop_rule_effect (st st' : driver_state) :
  stop_rule stop_at st = Ok st' ->
  d_Voltage_series st' = d_Voltage_series st /\
  d_Lambda_series st' = d_Lambda_series st /\
  d_normF st' = d_normF st /\
  d_success st' = d_success st /\
  (d_adapt_step st' = PyInt 0 \/
   (d_adapt_step st' = d_adapt_step st /\ d_step st' = d_step st)).
Proof.
  unfold stop_rule. intros H.
  destruct stop_at as [s | target];
    repeat match type of H with
      | (if ?b then _ else _) = Ok _ => destruct b
      end;
    try discriminate; injection H as <-; simpl; auto 10.
Qed.

Lemma adapt_effect (st st' : driver_state) (V0 : list C) (lam0 : Q) :
  adapt pv pq step_min step_max error_tol st V0 lam0 = Ok st' ->
  d_Voltage_series st' = d_Voltage_series st /\
  d_Lambda_series st' = d_Lambda_series st /\
  d_normF st' = d_normF st /\
  d_success st' = d_success st /\
  d_continuation st' = d_continuation st /\
  (sinv st -> sinv st').
Proof.
  unfold adapt. intros H.
  destruct (truthy (d_adapt_step st) && truthy (d_continuation st)) eqn:E.
  - apply bind_ok_inv in H as (err & Herr & H).
    apply bind_ok_inv in H as (step' & Hstep & H).
    injection H as <-. simpl. repeat (split; [ reflexivity | ]).
    unfold step_inv; simpl. intros Hst Ha.
    apply (adapted_step_in_bounds (d_step st) err); auto.
    unfold cpf_error in Herr. inv_bind Herr. injection Herr as <-.
    apply norm_inf_nonneg.
  - injection H as <-. auto 10.
Qed.

(** One pass of the loop: its calls respect the bounds and so does the
    state it leaves. *)
Lemma runcpf2_body_step_inv (st : driver_state)
    (evs : list event) (r : result driver_state) :
  runcpf2_body Ybus Sbus_base Sxfr pv pq step_min step_max error_tol tol
               max_it stop_at st = (evs, r) ->
  sinv st ->
  Forall bounded evs /\ forall st', r = Ok st' -> sinv st'.
Proof.
  unfold runcpf2_body. intros H Hst.
  assert (Hcalls : forall V c i l n,
             Forall bounded
               [CallPredictor (d_step st) (d_approximation_order st)
                              (d_adapt_step st);
                CallCorrector (d_step st) (d_approximation_order st)
                              (d_adapt_step st);
                CorrectorReturned V c i l n]).
  { intros. constructor; [ exact Hst | ]. constructor; [ exact Hst | ].
    constructor; [ exact I | constructor ]. }
  destruct (cpf_predictor _ _ _ _ _ _ _ _ _ _ _) as [[[V0 lam0] z] | e].
  - destruct (cpf_corrector _ _ _ _ _ _ _ _ _ _ _ _ _ _)
      as [[[[[V success] i] lam] normF] | e].
    + destruct (negb (truthy success)); injection H as <- <-.
      * split; [ apply Hcalls | ].
        intros st' Hst'. injection Hst' as <-. exact Hst.
      * split; [ apply Hcalls | ].
        intros st' Hst'.
        apply bind_ok_inv in Hst' as (st2 & H2 & Hst').
        apply adapt_effect in Hst' as (_ & _ & _ & _ & _ & Hinv).
        apply Hinv.
        apply stop_rule_effect in H2 as (_ & _ & _ & _ & [H0 | [Ha Hs]]).
        -- unfold step_inv. rewrite H0. discriminate.
        -- unfold step_inv. rewrite Ha, Hs. exact Hst.
    + injection H as <- <-. split; [ | discriminate ].
      constructor; [ exact Hst | ]. constructor; [ exact Hst | constructor ].
  - injection H as <- <-. split; [ | discriminate ].
    constructor; [ exact Hst | constructor ].
Qed.

Lemma runcpf2_loop_step_inv (fuel : nat) (st : driver_state) :
  sinv st ->
  Forall bounded
    (fst (runcpf2_loop Ybus Sbus_base Sxfr pv pq step_min step_max error_tol
                       tol max_it stop_at fuel st)).
Proof.
  revert st. induction fuel as [| fuel IH]; intros st Hst; simpl.
  - destruct (truthy (d_continuation st)); constructor.
  - destruct (truthy (d_continuation st)); [ | constructor ].
    destruct (runcpf2_body _ _ _ _ _ _ _ _ _ _ _ st) as [evs r] eqn:Hb.
    destruct (runcpf2_body_step_inv st evs r Hb Hst) as [Hevs Hr].
    destruct r as [st' | e]; [ | exact Hevs ].
    specialize (IH st' (Hr st' eq_refl)).
    destruct (runcpf2_loop _ _ _ _ _ _ _ _ _ _ _ fuel st') as [evs' out].
    simpl in *. apply Forall_app. now split.
Qed.

End StepBounds.

(** With a positive step, a positive tolerance and a positive [step_max]
    the quotient [step * error_tol / cpf_error] is never [nan] nor
    [-inf], and an infinite one is capped: the new step is a positive
    float. *)
Section StepPositive.

Context {K : kernels}.

Variables (Ybus : mat.matrix) (Sbus_base : list C) (Sxfr : list C)
          (pv pq : list nat) (step_min step_max error_tol tol : Q)
          (max_it : Z) (stop_at : stop_target).

Hypothesis error_tol_pos : 0 < error_tol.
Hypothesis step_max_pos : 0 < step_max.

Lemma adapted_step_finite (step err : Q) :
  0 <= err -> 0 < step ->
  exists step',
    adapted_step step_min step_max error_tol step err = Finite step' /\
    0 < step'.
Proof.
  intros Herr Hstep. unfold adapted_step, fdiv_ext.
  assert (Hnum : 0 < step * error_tol).
  { rewrite <- (Qmult_0_l error_tol). now apply Qmult_lt_compat_r. }
  assert (Hquot : ~ err == 0 -> 0 < step * error_tol / err).
  { intros Hne. apply Qlt_shift_div_l; [ | lra ].
    apply Qle_lteq in Herr as [Hp | Hz]; [ exact Hp | ].
    symmetry in Hz. contradiction. }
  destruct (Qlt_bool err error_tol) eqn:Elt.
  - destruct (Qeq_bool err 0) eqn:E0.
    + apply Qlt_bool_iff in Hnum. rewrite Hnum. cbn [fgt].
      exists step_max. split; [ reflexivity | exact step_max_pos ].
    + apply Qeq_bool_neq in E0. cbn [fgt].
      destruct (Qlt_bool step_max (step * error_tol / err)).
      * exists step_max. split; [ reflexivity | exact step_max_pos ].
      * eexists. split; [ reflexivity | exact (Hquot E0) ].
  - apply Qlt_bool_false_iff in Elt.
    assert (E0 : ~ err == 0) by lra.
    destruct (Qeq_bool err 0) eqn:E0'.
    + apply Qeq_bool_iff in E0'. contradiction.
    + cbn [flt].
      destruct (Qlt_bool (step * error_tol / err) step_min) eqn:Ec.
      * apply Qlt_bool_iff in Ec. exists step_min.
        split; [ reflexivity | ]. specialize (Hquot E0). lra.
      * eexists. split; [ reflexivity | exact (Hquot E0) ].
Qed.

Lemma cpf_error_raise (V : list C) (lam : Q) (V0 : list C) (lam0 : Q)
    (e : exn) :
  cpf_error pv pq V lam V0 lam0 = Raise e -> e = IndexError.
Proof.
  unfold cpf_error. intros H.
  repeat match type of H with
    | bind ?m _ = Raise _ =>
        let x := fresh "x" in
        let Hm := fresh "Hm" in
        destruct m as [x | ?] eqn:Hm;
        [ cbn [bind] in H
        | cbn [bind] in H; injection H as <-; now apply take_raise in Hm ]
    end.
  discriminate.
Qed.

Lemma cpf_error_nonneg (V : list C) (lam : Q) (V0 : list C) (lam0 : Q)
    (err : Q) :
  cpf_error pv pq V lam V0 lam0 = Ok err -> 0 <= err.
Proof.
  unfold cpf_error. intros H. inv_bind H. injection H as <-.
  apply norm_inf_nonneg.
Qed.

(** The adaptation of the step never stops on a special value: it returns,
    with a positive step, or the indexing of [V] or [V0] raises. *)
Lemma adapt_finite (st : driver_state) (V0 : list C) (lam0 : Q) :
  step_positive st ->
  match adapt pv pq step_min step_max error_tol st V0 lam0 with
  | Ok st' => step_positive st'
  | Raise e => e = IndexError
  end.
Proof.
  unfold adapt, step_positive. intros Hst.
  destruct (truthy (d_adapt_step st) && truthy (d_continuation st)) eqn:E;
    [ | exact Hst ].
  apply andb_true_iff in E as [Ea _].
  destruct (cpf_error pv pq (d_V st) (d_lam st) V0 lam0) as [err | e] eqn:He;
    cbn [bind]; [ | now apply cpf_error_raise in He ].
  apply cpf_error_nonneg in He.
  destruct (adapted_step_finite (d_step st) err He (Hst Ea))
    as (step' & -> & Hpos).
  cbn. intros _. exact Hpos.
Qed.

Lemma runcpf2_body_step_positive (st : driver_state)
    (evs : list event) (r : result driver_state) :
  runcpf2_body Ybus Sbus_base Sxfr pv pq step_min step_max error_tol tol
               max_it stop_at st = (evs, r) ->
  step_positive st ->
  Forall step_positive_while_adapting evs /\
  forall st', r = Ok st' -> step_positive st'.
Proof.
  unfold runcpf2_body. intros H Hst.
  assert (Hcalls : forall V c i l n,
             Forall step_positive_while_adapting
               [CallPredictor (d_step st) (d_approximation_order st)
                              (d_adapt_step st);
                CallCorrector (d_step st) (d_approximation_order st)
                              (d_adapt_step st);
                CorrectorReturned V c i l n]).
  { intros. constructor; [ exact Hst | ]. constructor; [ exact Hst | ].
    constructor; [ exact I | constructor ]. }
  destruct (cpf_predictor _ _ _ _ _ _ _ _ _ _ _) as [[[V0 lam0] z] | e].
  - destruct (cpf_corrector _ _ _ _ _ _ _ _ _ _ _ _ _ _)
      as [[[[[V success] i] lam] normF] | e].
    + destruct (negb (truthy success)); injection H as <- <-.
      * split; [ apply Hcalls | ].
        intros st' Hst'. injection Hst' as <-. exact Hst.
      * split; [ apply Hcalls | ].
        intros st' Hst'.
        apply bind_ok_inv in Hst' as (st2 & H2 & Hst').
        assert (H2pos : step_positive st2).
        { apply (stop_rule_effect stop_at) in H2
            as (_ & _ & _ & _ & [H0 | [Ha Hs]]).
          - unfold step_positive. rewrite H0. discriminate.
          - unfold step_positive. rewrite Ha, Hs. exact Hst. }
        pose proof (adapt_finite st2 V0 lam0 H2pos) as Hf.
        rewrite Hst' in Hf. exact Hf.
    + injection H as <- <-. split; [ | discriminate ].
      constructor; [ exact Hst | ]. constructor; [ exact Hst | constructor ].
  - injection H as <- <-. split; [ | discriminate ].
    constructor; [ exact Hst | constructor ].
Qed.

Lemma runcpf2_loop_step_positive (fuel : nat) (st : driver_state) :
  step_positive st ->
  Forall step_positive_while_adapting
    (fst (runcpf2_loop Ybus Sbus_base Sxfr pv pq step_min step_max error_tol
                       tol max_it stop_at fuel st)).
Proof.
  revert st. induction fuel as [| fuel IH]; intros st Hst; simpl.
  - destruct (truthy (d_continuation st)); constructor.
  - destruct (truthy (d_continuation st)); [ | constructor ].
    destruct (runcpf2_body _ _ _ _ _ _ _ _ _ _ _ st) as [evs r] eqn:Hb.
    destruct (runcpf2_body_step_positive st evs r Hb Hst) as [Hevs Hr].
    destruct r as [st' | e]; [ | exact Hevs ].
    specialize (IH st' (Hr st' eq_refl)).
    destruct (runcpf2_loop _ _ _ _ _ _ _ _ _ _ _ fuel st') as [evs' out].
    simpl in *. apply Forall_app. now split.
Qed.

End StepPositive.

(** C2 (as the code has it): when the initial step is positive and
    satisfies [0 <= step_min <= step <= step_max], and [error_tol] is
    positive, every step that a run of [runcpf2] passes to [cpf_predictor]
    and [cpf_corrector] while [adapt_step] is still true lies in
    [[step_min, step_max]] and is positive (so that the next rescaling has
    a float value again).  (The overshoot branches set [step = lam] or
    [step = stop_at - lam] unclamped and clear [adapt_step]; the steps they
    produce are not covered.) *)
Theorem runcpf2_adapted_steps_bounded {K : kernels}
    (fuel : nat) (Ybus : mat.matrix) (Sbus_base Sbus_target : list C)
    (V : list C) (pv pq : list nat) (step : Q) (approximation_order : Z)
    (adapt_step : pyflag) (step_min step_max error_tol tol : Q) (max_it : Z)
    (stop_at : stop_target) :
  0 <= step_min -> step_min <= step <= step_max ->
  0 < step -> 0 < error_tol ->
  Forall (step_in_bounds_while_adapting step_min step_max)
    (fst (runcpf2 fuel Ybus Sbus_base Sbus_target V pv pq step
                  approximation_order adapt_step step_min step_max error_tol
                  tol max_it stop_at)) /\
  Forall step_positive_while_adapting
    (fst (runcpf2 fuel Ybus Sbus_base Sbus_target V pv pq step
                  approximation_order adapt_step step_min step_max error_tol
                  tol max_it stop_at)).
Proof.
  intros Hmin Hstep Hpos Htol. unfold runcpf2. split.
  - apply runcpf2_loop_step_inv; [ exact Hmin | ].
    intros _. exact Hstep.
  - apply runcpf2_loop_step_positive; [ exact Htol | lra | ].
    intros _. exact Hpos.
Qed.

(** A run on the two-bus network: initial step [0.2] with bounds
    [[0.1, 0.2]], adaptation on, target [lam = 0.25].  After the first
    accepted step ([lam = 0.2]) the next one would overshoot, so the step
    becomes [0.25 - 0.2 = 0.05], below [step_min], and is passed to the
    predictor and the corrector. *)
Lemma runcpf2_overshoot_step_below_min :
  ~ Forall (step_in_bounds (1 # 10) (1 # 5))
      (fst (@runcpf2 axis_kernels 5 two_bus.Ybus two_bus.Sbus two_bus.Sbus
              two_bus.V two_bus.pv two_bus.pq (1 # 5) 1 (PyBool true)
              (1 # 10) (1 # 5) (1 # 1000) (1 # 1000000) 20
              (StopNum (1 # 4)))).
Proof.
  intros H. rewrite Forall_forall in H.
  specialize (H (CallPredictor (1 # 20) 1 (PyInt 0))).
  assert (Hin : In (CallPredictor (1 # 20) 1 (PyInt 0))
                   (fst (@runcpf2 axis_kernels 5 two_bus.Ybus two_bus.Sbus
                           two_bus.Sbus two_bus.V two_bus.pv two_bus.pq
                           (1 # 5) 1 (PyBool true) (1 # 10) (1 # 5)
                           (1 # 1000) (1 # 1000000) 20 (StopNum (1 # 4))))).
  { vm_compute. right. right. right. left. reflexivity. }
  destruct (H Hin) as [Hlo _]. revert Hlo. vm_compute. intros Hlo.
  apply Hlo. reflexivity.
Qed.

Lemma runcpf2_adapted_steps_bounded_witness :
  Forall (step_in_bounds_while_adapting (1 # 10) (1 # 5))
    (fst (@runcpf2 axis_kernels 5 two_bus.Ybus two_bus.Sbus two_bus.Sbus
            two_bus.V two_bus.pv two_bus.pq (1 # 5) 1 (PyBool true)
            (1 # 10) (1 # 5) (1 # 1000) (1 # 1000000) 20
            (StopNum (1 # 4)))) /\
  Forall step_positive_while_adapting
    (fst (@runcpf2 axis_kernels 5 two_bus.Ybus two_bus.Sbus two_bus.Sbus
            two_bus.V two_bus.pv two_bus.pq (1 # 5) 1 (PyBool true)
            (1 # 10) (1 # 5) (1 # 1000) (1 # 1000000) 20
            (StopNum (1 # 4)))).
Proof.
  apply (@runcpf2_adapted_steps_bounded axis_kernels).
  - vm_compute. discriminate.
  - split; vm_compute; discriminate.
  - reflexivity.
  - reflexivity.
Defined.

(** ** The driver: an unrecognised stop target *)

(** [upper] turns into a capital letter that letter and its small one. *)
Lemma upper_ascii_capital (c d : ascii) :
  (65 <= nat_of_ascii d <= 90)%nat ->
  Ascii.eqb (upper_ascii c) d = same_letter c d.
Proof.
  intros Hd. unfold upper_ascii, same_letter.
  pose proof (nat_ascii_bounded c) as Hc.
  destruct ((97 <=? nat_of_ascii c) && (nat_of_ascii c <=? 122))%nat eqn:E.
  - apply andb_true_iff in E as [E1 E2]. apply Nat.leb_le in E1, E2.
    assert (Hcd : Ascii.eqb c d = false)
      by (apply Ascii.eqb_neq; intros ->; lia).
    rewrite Hcd. cbn [orb].
    destruct (Nat.eqb_spec (nat_of_ascii c) (nat_of_ascii d + 32)) as [He | He].
    + apply Ascii.eqb_eq. rewrite <- (ascii_nat_embedding d). f_equal. lia.
    + apply Ascii.eqb_neq. intros Heq. apply He. rewrite <- Heq.
      rewrite nat_ascii_embedding by lia. lia.
  - assert (Hn : (nat_of_ascii c =? nat_of_ascii d + 32)%nat = false).
    { apply Nat.eqb_neq. intros Heq. rewrite Heq in E.
      apply andb_false_iff in E as [E | E]; apply Nat.leb_gt in E; lia. }
    now rewrite Hn, orb_false_r.
Qed.

(** Comparing [upper s] with a word in capitals is comparing [s] with it
    letter by letter, the case of the letters set aside. *)
Lemma upper_spells (s t : string) :
  capitals t = true -> String.eqb (upper s) t = spells s t.
Proof.
  revert t. induction s as [| c s IH]; intros [| d t] Ht; try reflexivity.
  cbn [capitals] in Ht. apply andb_true_iff in Ht as [Hd Ht].
  apply andb_true_iff in Hd as [Hd1 Hd2]. apply Nat.leb_le in Hd1, Hd2.
  cbn [upper spells String.eqb].
  rewrite (upper_ascii_capital c d (conj Hd1 Hd2)), (IH t Ht).
  now destruct (same_letter c d).
Qed.




(** ** The driver: the adaptive step *)

Lemma norm_inf_sub (a b : list Q) :
  np.norm_inf (np.sub a b) = max_abs_diff a b.
Proof.
  revert b. induction a as [| x a IH]; intros [| y b]; try reflexivity.
  change (np.norm_inf (np.sub (x :: a) (y :: b)))
    with (Qmax (Qabs (x - y)) (np.norm_inf (np.sub a b))).
  simpl. now rewrite IH.
Qed.

Lemma to_float_ok (a : fval) (q : Q) : to_float a = Ok q -> a = Finite q.
Proof.
  destruct a; simpl; intros H; try discriminate. now injection H as <-.
Qed.

Section AdaptiveStep.

Context {K : kernels}.

Variables (pv pq : list nat) (step_min step_max error_tol : Q).

Lemma in_range_app {A : Type} (v : list A) (i1 i2 : list nat) :
  in_range v (i1 ++ i2) -> in_range v i1 /\ in_range v i2.
Proof.
  unfold in_range. apply Forall_app.
Qed.

Lemma take_in_range_map {A B : Type} (f : A -> B) (v : list A) (d : A)
    (idx : list nat) (l : list A) :
  np.take v idx = Ok l -> map f l = map (fun i => f (nth i v d)) idx.
Proof.
  unfold np.take. revert l.
  induction idx as [| i idx IH]; simpl; intros l H.
  - now injection H as <-.
  - apply bind_ok_inv in H as (x & Hx & H).
    apply bind_ok_inv in H as (xs & Hxs & H). injection H as <-.
    simpl. rewrite (IH xs Hxs). f_equal. f_equal.
    unfold np.getitem in Hx. destruct (nth_error v i) eqn:E; [ | discriminate ].
    injection Hx as <-. symmetry. now apply nth_error_nth.
Qed.

(** The error the driver computes, when the indexing does not raise, is the
    one over (angle at PQ buses, magnitude at non-reference buses, lam). *)
Lemma cpf_error_ok (V : list C) (lam : Q) (V0 : list C) (lam0 : Q)
    (err : Q) :
  cpf_error pv pq V lam V0 lam0 = Ok err ->
  err = prediction_error pv pq V lam V0 lam0.
Proof.
  unfold cpf_error, prediction_error. intros H.
  apply bind_ok_inv in H as (v1 & H1 & H).
  apply bind_ok_inv in H as (v2 & H2 & H).
  apply bind_ok_inv in H as (w1 & H3 & H).
  apply bind_ok_inv in H as (w2 & H4 & H).
  injection H as <-. rewrite norm_inf_sub. unfold angles_at, magnitudes_at.
  now rewrite (take_in_range_map angle V C0 pq v1 H1),
    (take_in_range_map cabs V C0 _ v2 H2),
    (take_in_range_map angle V0 C0 pq w1 H3),
    (take_in_range_map cabs V0 C0 _ w2 H4).
Qed.

(** With a non-zero error the new step is the rescaled one. *)
Lemma adapted_step_eq (step err : Q) :
  ~ err == 0 ->
  exists step',
    adapted_step step_min step_max error_tol step err = Finite step' /\
    step' == rescaled_step step_min step_max error_tol step err.
Proof.
  intros Hne. unfold adapted_step, rescaled_step, fdiv_ext.
  destruct (Qeq_bool err 0) eqn:E0;
    [ apply Qeq_bool_iff in E0; contradiction | ].
  assert (Hq : step * error_tol / err == step * (error_tol / err))
    by (now field).
  destruct (Qlt_bool err error_tol) eqn:Elt; cbn [fgt flt].
  - apply Qlt_bool_iff in Elt.
    rewrite (proj1 (Qlt_alt err error_tol) Elt).
    destruct (Qlt_bool step_max (step * error_tol / err)) eqn:Ec;
      eexists; (split; [ reflexivity | ]).
    + apply Qlt_bool_iff in Ec. rewrite Q.min_r; [ reflexivity | lra ].
    + apply Qlt_bool_false_iff in Ec. rewrite Q.min_l; [ exact Hq | lra ].
  - apply Qlt_bool_false_iff in Elt.
    assert (Hc : (err ?= error_tol) <> Lt)
      by (intros Hc; apply (proj2 (Qlt_alt err error_tol)) in Hc; lra).
    assert (Hr : match err ?= error_tol with
                 | Lt => Qmin (step * (error_tol / err)) step_max
                 | _ => Qmax (step * (error_tol / err)) step_min
                 end = Qmax (step * (error_tol / err)) step_min)
      by (destruct (err ?= error_tol); congruence).
    rewrite Hr.
    destruct (Qlt_bool (step * error_tol / err) step_min) eqn:Ec;
      eexists; (split; [ reflexivity | ]).
    + apply Qlt_bool_iff in Ec. rewrite Q.max_r; [ reflexivity | lra ].
    + apply Qlt_bool_false_iff in Ec. rewrite Q.max_l; [ exact Hq | lra ].
Qed.

(** With a zero error the quotient is [inf] in numpy, and the cap makes the
    step [step_max]. *)
Lemma adapted_step_zero_error (step err : Q) :
  err == 0 -> 0 < error_tol -> 0 < step ->
  adapted_step step_min step_max error_tol step err = Finite step_max.
Proof.
  intros Hz Htol Hstep. unfold adapted_step, fdiv_ext.
  assert (Hlt : Qlt_bool err error_tol = true)
    by (apply Qlt_bool_iff; rewrite Hz; exact Htol).
  assert (H0 : Qeq_bool err 0 = true) by (now apply Qeq_bool_iff).
  assert (Hpos : Qlt_bool 0 (step * error_tol) = true).
  { apply Qlt_bool_iff. rewrite <- (Qmult_0_l error_tol).
    apply Qmult_lt_compat_r; assumption. }
  now rewrite Hlt, H0, Hpos.
Qed.

End AdaptiveStep.

(** The cap applies only when the step grows and the floor only when it
    shrinks: a step above [step_max] that shrinks can stay above it. *)
Example adapted_step_not_capped_when_shrinking :
  exists step',
    adapted_step (1 # 10) 1 (1 # 1000) 10 (2 # 1000) = Finite step' /\
    step' == 5 /\ 1 < step'.
Proof.
  eexists. split; [ vm_compute; reflexivity | ].
  split; vm_compute; reflexivity.
Qed.

(** ** The driver: a corrector call that does not converge *)

Lemma split_cons {A : Type} (x a : A) (l1 l2 l : list A) :
  l1 ++ x :: l2 = a :: l ->
  (l1 = [] /\ x = a /\ l2 = l) \/
  (exists l1', l1 = a :: l1' /\ l1' ++ x :: l2 = l).
Proof.
  destruct l1 as [| b l1]; simpl; intros H; injection H as Hx Hl; subst.
  - left. repeat split.
  - right. exists l1. split; reflexivity.
Qed.

Lemma app_cons_nil {A : Type} (x : A) (l1 l2 : list A) :
  l1 ++ x :: l2 = [] -> False.
Proof.
  destruct l1; discriminate.
Qed.

Section FailedCorrector.

Context {K : kernels}.

Variables (Ybus : mat.matrix) (Sbus_base : list C) (Sxfr : list C)
          (pv pq : list nat) (step_min step_max error_tol tol : Q)
          (max_it : Z) (stop_at : stop_target).

Local Notation "'body'" :=
  (runcpf2_body Ybus Sbus_base Sxfr pv pq step_min step_max error_tol tol
                max_it stop_at).
Local Notation "'loop'" :=
  (runcpf2_loop Ybus Sbus_base Sxfr pv pq step_min step_max error_tol tol
                max_it stop_at).

(** The step adaptation leaves the trajectory and the corrector's results
    alone. *)
Lemma adapt_frame (st st' : driver_state) (V0 : list C) (lam0 : Q) :
  adapt pv pq step_min step_max error_tol st V0 lam0 = Ok st' ->
  d_Voltage_series st' = d_Voltage_series st /\
  d_Lambda_series st' = d_Lambda_series st /\
  d_normF st' = d_normF st /\
  d_success st' = d_success st.
Proof.
  unfold adapt. intros H.
  destruct (truthy (d_adapt_step st) && truthy (d_continuation st)).
  - apply bind_ok_inv in H as (err & _ & H).
    apply bind_ok_inv in H as (step' & _ & H).
    injection H as <-. simpl. auto.
  - injection H as <-. auto.
Qed.

(** From any state of the loop: a corrector call that returns not converged
    is the last call of the run, and the run returns the trajectory held on
    entry followed by the points accepted before that call. *)
Lemma runcpf2_loop_failed_corrector (fuel : nat) :
  forall (st : driver_state) (tr : list event) (out : outcome)
         (tr1 : list event) (V : list C) (converged : pyflag) (i : Z)
         (lam normF : Q) (tr2 : list event),
    loop fuel st = (tr, out) ->
    tr = tr1 ++ CorrectorReturned V converged i lam normF :: tr2 ->
    truthy converged = false ->
    tr2 = [] /\
    out = Returned (d_Voltage_series st ++ map fst (accepted tr1))
                   (d_Lambda_series st ++ map snd (accepted tr1))
                   normF converged.
Proof.
  induction fuel as [| fuel IH];
    intros st tr out tr1 V converged i lam normF tr2 Hrun Htr Hconv;
    simpl in Hrun.
  - destruct (truthy (d_continuation st)); injection Hrun as <- <-;
      symmetry in Htr; now apply app_cons_nil in Htr.
  - destruct (truthy (d_continuation st));
      [ | injection Hrun as <- <-; symmetry in Htr;
          now apply app_cons_nil in Htr ].
    unfold runcpf2_body in Hrun.
    destruct (cpf_predictor _ _ _ _ _ _ _ _ _ _ _) as [[[V0 lam0] z] | e].
    2:{ injection Hrun as <- <-. symmetry in Htr.
        apply split_cons in Htr as [(_ & He & _) | (l & _ & Htr)];
          [ discriminate | now apply app_cons_nil in Htr ]. }
    destruct (cpf_corrector _ _ _ _ _ _ _ _ _ _ _ _ _ _)
      as [[[[[V1 conv1] i1] lam1] normF1] | e].
    2:{ injection Hrun as <- <-. symmetry in Htr.
        apply split_cons in Htr as [(_ & He & _) | (l & _ & Htr)];
          [ discriminate | ].
        apply split_cons in Htr as [(_ & He & _) | (l' & _ & Htr)];
          [ discriminate | now apply app_cons_nil in Htr ]. }
    destruct (truthy conv1) eqn:Hc1; cbn [negb] in Hrun.
    + (* the point is accepted *)
      destruct (st2 <- stop_rule stop_at _ ;; adapt _ _ _ _ _ st2 V0 lam0)
        as [st' | e] eqn:Hnext.
      * destruct (loop fuel st') as [tr' out'] eqn:Hloop.
        injection Hrun as <- <-. symmetry in Htr. cbn [app] in Htr.
        apply split_cons in Htr as [(_ & He & _) | (l & -> & Htr)];
          [ discriminate | ].
        apply split_cons in Htr as [(_ & He & _) | (l' & -> & Htr)];
          [ discriminate | ].
        apply split_cons in Htr as [(_ & He & _) | (l'' & -> & Htr)];
          [ injection He as -> -> -> -> ->; congruence | ].
        symmetry in Htr.
        destruct (IH st' tr' out' l'' V converged i lam normF tr2
                     Hloop Htr Hconv) as [-> ->].
        split; [ reflexivity | ].
        apply bind_ok_inv in Hnext as (st2 & H2 & Hnext).
        apply adapt_frame in Hnext as (HV & HL & _ & _).
        apply stop_rule_effect in H2 as (HV2 & HL2 & _).
        rewrite HV, HL, HV2, HL2. cbn [d_Voltage_series d_Lambda_series].
        cbn [accepted]. rewrite Hc1. cbn [map fst snd].
        now rewrite <- !app_assoc.
      * injection Hrun as <- <-. symmetry in Htr.
        apply split_cons in Htr as [(_ & He & _) | (l & _ & Htr)];
          [ discriminate | ].
        apply split_cons in Htr as [(_ & He & _) | (l' & _ & Htr)];
          [ discriminate | ].
        apply split_cons in Htr as [(_ & He & _) | (l'' & _ & Htr)];
          [ injection He as -> -> -> -> ->; congruence
          | now apply app_cons_nil in Htr ].
    + (* the corrector did not converge: [break] *)
      assert (Hend : forall st0, d_continuation st0 = PyInt 0 ->
                                 loop fuel st0 = ([], driver_return st0)).
      { intros st0 H0. destruct fuel; simpl; now rewrite H0. }
      rewrite Hend in Hrun by reflexivity.
      injection Hrun as <- <-. symmetry in Htr. cbn [app] in Htr.
      apply split_cons in Htr as [(_ & He & _) | (l & -> & Htr)];
        [ discriminate | ].
      apply split_cons in Htr as [(_ & He & _) | (l' & -> & Htr)];
        [ discriminate | ].
      apply split_cons in Htr as [(-> & He & ->) | (l'' & _ & Htr)];
        [ | now apply app_cons_nil in Htr ].
      injection He as -> -> -> -> ->.
      split; [ reflexivity | ].
      unfold driver_return. cbn [d_normF d_success d_Voltage_series
                                 d_Lambda_series accepted map].
      now rewrite !app_nil_r.
Qed.

End FailedCorrector.

(** C8: whenever a corrector call inside [runcpf2] returns not converged,
    the driver makes no further call and returns; the returned
    [Voltage_series] and [Lambda_series] hold exactly the points of the
    corrector calls that converged before, one per call and in order, and
    the returned success flag is the corrector's false flag. *)
Theorem runcpf2_failed_corrector_stops {K : kernels}
    (fuel : nat) (Ybus : mat.matrix) (Sbus_base Sbus_target : list C)
    (V : list C) (pv pq : list nat) (step : Q) (approximation_order : Z)
    (adapt_step : pyflag) (step_min step_max error_tol tol : Q) (max_it : Z)
    (stop_at : stop_target)
    (tr : list event) (out : outcome) (tr1 : list event) (V1 : list C)
    (converged : pyflag) (i : Z) (lam normF : Q) (tr2 : list event) :
  runcpf2 fuel Ybus Sbus_base Sbus_target V pv pq step approximation_order
          adapt_step step_min step_max error_tol tol max_it stop_at
    = (tr, out) ->
  tr = tr1 ++ CorrectorReturned V1 converged i lam normF :: tr2 ->
  truthy converged = false ->
  tr2 = [] /\
  out = Returned (map fst (accepted tr1)) (map snd (accepted tr1))
                 normF converged.
Proof.
  unfold runcpf2. intros Hrun Htr Hconv.
  exact (runcpf2_loop_failed_corrector _ _ _ _ _ _ _ _ _ _ _ fuel _ tr out
           tr1 V1 converged i lam normF tr2 Hrun Htr Hconv).
Qed.

(** ** The theorems at concrete inputs *)

(** A three-bus layout: bus 0 reference, bus 1 PV, bus 2 PQ; [z] is the
    tangent vector the driver starts from. *)
Lemma cpf_pseudo_arc_length_index_error_witness :
  @cpf_p axis_kernels 3 (1 # 5) [0; 0; 0; 0; 0; 0; 1]
         [mkC 1 0; mkC 1 0; mkC 1 0] 0 [mkC 1 0; mkC 1 0; mkC 1 0] 0
         [1%nat] [2%nat] [1%nat; 2%nat] = Raise IndexError /\
  @cpf_p_jac axis_kernels 3 [0; 0; 0; 0; 0; 0; 1]
         [mkC 1 0; mkC 1 0; mkC 1 0] 0 [mkC 1 0; mkC 1 0; mkC 1 0] 0
         [1%nat] [2%nat] [1%nat; 2%nat] = Raise IndexError.
Proof.
  apply (@cpf_pseudo_arc_length_index_error axis_kernels). reflexivity.
Defined.

Lemma cpf_unknown_parameterization_witness :
  @cpf_p axis_kernels 4 (1 # 5) [0; 0; 0; 0; 1] two_bus.V 0 two_bus.V 0
         two_bus.pv two_bus.pq two_bus.pq = Raise UnboundLocalError /\
  @cpf_p_jac axis_kernels 4 [0; 0; 0; 0; 1] two_bus.V 0 two_bus.V 0
         two_bus.pv two_bus.pq two_bus.pq = Raise UnboundLocalError.
Proof.
  apply (@cpf_unknown_parameterization axis_kernels); discriminate.
Defined.

Lemma cpf_arc_length_witness :
  let V := [mkC 1 0; mkC (-1) 0; mkC (1 # 2) 0] in
  let Vprv := [mkC 1 0; mkC 1 0; mkC 1 0] in
  (exists P,
     @cpf_p axis_kernels 2 (1 # 5) [0; 0; 0; 0; 0; 0; 1] V (3 # 10) Vprv
            (1 # 10) [1%nat] [2%nat] [1%nat; 2%nat] = Ok P /\
     P == @arc_length_P axis_kernels (1 # 5) V (3 # 10) Vprv (1 # 10)
                        [1%nat; 2%nat] [2%nat]) /\
  exists dP_dlam,
    @cpf_p_jac axis_kernels 2 [0; 0; 0; 0; 0; 0; 1] V (3 # 10) Vprv (1 # 10)
               [1%nat] [2%nat] [1%nat; 2%nat]
      = Ok (@arc_length_dP_dV axis_kernels V Vprv [1%nat; 2%nat] [2%nat],
            dP_dlam) /\
    (3 # 10 == 1 # 10 -> dP_dlam = 1) /\
    (~ 3 # 10 == 1 # 10 -> dP_dlam = 2 * ((3 # 10) - (1 # 10))).
Proof.
  apply (@cpf_arc_length axis_kernels); repeat constructor.
Defined.

(** On the two-bus network the point [lam = 0.2] predicted from [lam = 0]
    with step 0.2 has a zero augmented mismatch. *)
Lemma cpf_corrector_idempotent_witness :
  exists normF,
    @cpf_corrector axis_kernels two_bus.Ybus two_bus.Sbus two_bus.pv
      two_bus.pq two_bus.Sbus two_bus.V 0 [0; 0; 0; 0; 1] (1 # 5) 1
      (1 # 1000000) 20 two_bus.V (1 # 5)
    = Ok (two_bus.V, PyBool true, 0%Z, 1 # 5, normF).
Proof.
  eexists.
  eapply (@cpf_corrector_idempotent axis_kernels two_bus.Ybus two_bus.Sbus
            two_bus.pv two_bus.pq two_bus.Sbus two_bus.V 0 [0; 0; 0; 0; 1]
            (1 # 5) 1 (1 # 1000000) 20 two_bus.V (1 # 5)).
  - vm_compute. reflexivity.
  - vm_compute. reflexivity.
Defined.

Lemma cpf_corrector_pseudo_arc_length_raises_witness :
  @cpf_corrector axis_kernels two_bus.Ybus two_bus.Sbus two_bus.pv
    two_bus.pq two_bus.Sbus two_bus.V 0 [0; 0; 0; 0; 1] (1 # 5) 3
    (1 # 1000000) 20 two_bus.V (1 # 5)
  = Raise IndexError.
Proof.
  apply (@cpf_corrector_pseudo_arc_length_raises axis_kernels). reflexivity.
Defined.

(** On the two-bus network, target [lam = 0.25] and initial step 0.1: two
    points are accepted ([lam = 0.1], then [lam = 0.3] with the step grown to
    [step_max]); the third corrector call does not converge within four
    iterations, and the run returns the two accepted points. *)
Lemma runcpf2_failed_corrector_stops_witness :
  let run := @runcpf2 axis_kernels 5 two_bus.Ybus two_bus.Sbus two_bus.Sbus
               two_bus.V two_bus.pv two_bus.pq (1 # 10) 1 (PyBool true)
               (1 # 20) (1 # 5) (1 # 1000) (1 # 1000000) 4
               (StopNum (1 # 4)) in
  exists normF,
    snd run = Returned (map fst (accepted (firstn 8 (fst run))))
                       (map snd (accepted (firstn 8 (fst run))))
                       normF (PyInt 0) /\
    length (accepted (firstn 8 (fst run))) = 2%nat.
Proof.
  intros run. eexists. split.
  - eapply (proj2 (@runcpf2_failed_corrector_stops axis_kernels 5
                     two_bus.Ybus two_bus.Sbus two_bus.Sbus two_bus.V
                     two_bus.pv two_bus.pq (1 # 10) 1 (PyBool true)
                     (1 # 20) (1 # 5) (1 # 1000) (1 # 1000000) 4
                     (StopNum (1 # 4)) (fst run) (snd run)
                     (firstn 8 (fst run)) _ (PyInt 0) _ _ _ _
                     (surjective_pairing run) _ eq_refl)).
  - vm_compute. reflexivity.
  Unshelve.
  all: try (vm_compute; reflexivity).
Defined.


(** * Further properties *)

(** ** The natural parameterization *)

(** In natural mode [cpf_p] and [cpf_p_jac] read neither [z] nor the
    voltages, so they return for every input: [P = |lam - lamprv| - step],
    [dP/dV] is the zero vector with one entry per angle and magnitude
    unknown, and [dP/dlam] is [1] when [lam >= lamprv] and [-1] otherwise. *)
Theorem cpf_natural {K : kernels}
    (step : Q) (z : list Q) (V : list C) (lam : Q) (Vprv : list C)
    (lamprv : Q) (pv pq pvpq : list nat) :
  (exists P, cpf_p 1 step z V lam Vprv lamprv pv pq pvpq = Ok P /\
             P == Qabs (lam - lamprv) - step) /\
  (exists dP_dlam,
      cpf_p_jac 1 z V lam Vprv lamprv pv pq pvpq
        = Ok (np.zeros (length pv + 2 * length pq), dP_dlam) /\
      (lamprv <= lam -> dP_dlam = 1) /\
      (lam < lamprv -> dP_dlam = -1)).
Proof.
  unfold cpf_p, cpf_p_jac. cbn [Z.eqb Pos.eqb].
  destruct (Qle_bool lamprv lam) eqn:E.
  - apply Qle_bool_iff in E. split.
    + eexists. split; [ reflexivity | ].
      rewrite Qabs_pos by lra. reflexivity.
    + exists 1. split; [ reflexivity | ]. split; [ reflexivity | ].
      intros Hlt. lra.
  - assert (Hlt : lam < lamprv).
    { apply Qnot_le_lt. intros Hle. apply Qle_bool_iff in Hle. congruence. }
    split.
    + eexists. split; [ reflexivity | ].
      rewrite Qabs_neg by lra. ring.
    + exists (-1). split; [ reflexivity | ]. split; [ | reflexivity ].
      intros Hle. lra.
Qed.

(** ** The corrector: edge cases and what convergence gives *)

Lemma norm_inf_bounds (a : list Q) :
  Forall (fun x => Qabs x <= np.norm_inf a) a.
Proof.
  induction a as [| x a IH]; simpl; constructor.
  - apply Q.le_max_l.
  - eapply Forall_impl; [ | exact IH ].
    intros y Hy. simpl in Hy.
    eapply Qle_trans; [ exact Hy | apply Q.le_max_r ].
Qed.

Section CorrectorEdges.

Context {K : kernels}.

Variables (Ybus : mat.matrix) (Sbus : list C) (pv pq : list nat)
          (Sxfr Vprv : list C) (lamprv : Q) (z : list Q) (step : Q)
          (parameterization : Z) (tol : Q) (max_it : Z).

Local Notation "'F_at'" :=
  (augmented_mismatch Ybus Sbus pv pq Sxfr Vprv lamprv z step
                      parameterization).
Local Notation "'corrector'" :=
  (cpf_corrector Ybus Sbus pv pq Sxfr Vprv lamprv z step parameterization
                 tol max_it).

(** With [max_it <= 0] the Newton loop is never entered: the corrector
    returns the trial point with iteration count 0, converged or not
    according to the first tolerance check alone. *)
Theorem cpf_corrector_no_iteration (V0 : list C) (lam0 : Q) (F : list Q) :
  (max_it <= 0)%Z ->
  F_at V0 lam0 = Ok F ->
  corrector V0 lam0 =
  Ok (V0, (if Qlt_bool (np.norm_inf F) tol then PyBool true else PyInt 0),
      0%Z, lam0, np.norm_inf F).
Proof.
  intros Hmax HF. unfold cpf_corrector.
  rewrite corrector_init_eq, HF. cbn [bind].
  replace (Z.to_nat max_it) with O by lia.
  cbn [corrector_loop].
  destruct (negb _ && _); reflexivity.
Qed.

(** When the corrector returns converged, every component of the augmented
    mismatch at the returned point (each power-balance residual and the
    parameterization residual) is below [tol] in absolute value. *)
Theorem cpf_corrector_converged_residuals (V0 : list C) (lam0 : Q)
    (V : list C) (converged : pyflag) (i : Z) (lam normF : Q) :
  corrector V0 lam0 = Ok (V, converged, i, lam, normF) ->
  truthy converged = true ->
  exists F, F_at V lam = Ok F /\ Forall (fun x => Qabs x < tol) F.
Proof.
  unfold cpf_corrector. intros H Hc.
  apply bind_ok_inv in H as (s0 & H0 & H).
  apply bind_ok_inv in H as (s & Hs & H). injection H as <- <- <- <- <-.
  destruct (corrector_init_inv _ _ _ _ _ _ _ _ _ _ _ V0 lam0 s0 H0)
    as (Hinv0 & _).
  destruct (corrector_loop_exit _ _ _ _ _ _ _ _ _ _ _ _ _ s0 s Hinv0 Hs)
    as ((HF & Hn & Hconv) & _).
  exists (c_F s). split; [ exact HF | ].
  assert (Hlt : c_normF s < tol) by (apply Qlt_bool_iff; congruence).
  eapply Forall_impl; [ | apply norm_inf_bounds ].
  intros x Hx. simpl in Hx. rewrite <- Hn in Hx. lra.
Qed.

End CorrectorEdges.

(** In natural mode a converged corrector call has moved [lam] by [step],
    to within [tol]: [| |lam - lamprv| - step | < tol]. *)
Theorem cpf_corrector_natural_step {K : kernels}
    (Ybus : mat.matrix) (Sbus : list C) (pv pq : list nat)
    (Sxfr Vprv : list C) (lamprv : Q) (z : list Q) (step tol : Q)
    (max_it : Z) (V0 : list C) (lam0 : Q)
    (V : list C) (converged : pyflag) (i : Z) (lam normF : Q) :
  cpf_corrector Ybus Sbus pv pq Sxfr Vprv lamprv z step 1 tol max_it V0 lam0
    = Ok (V, converged, i, lam, normF) ->
  truthy converged = true ->
  Qabs (Qabs (lam - lamprv) - step) < tol.
Proof.
  unfold cpf_corrector. intros H Hc.
  apply bind_ok_inv in H as (s0 & H0 & H).
  apply bind_ok_inv in H as (s & Hs & H). injection H as <- <- <- <- <-.
  destruct (corrector_init_inv _ _ _ _ _ _ _ _ _ _ _ V0 lam0 s0 H0)
    as (Hinv0 & _).
  destruct (corrector_loop_exit _ _ _ _ _ _ _ _ _ _ _ _ _ s0 s Hinv0 Hs)
    as ((HF & Hn & Hconv) & _).
  assert (Hlt : c_normF s < tol) by (apply Qlt_bool_iff; congruence).
  unfold augmented_mismatch in HF. cbv zeta in HF. inv_bind HF.
  injection HF as HF.
  pose proof (norm_inf_bounds (c_F s)) as Hb. rewrite <- HF in Hb.
  rewrite !Forall_app in Hb. destruct Hb as (_ & _ & Hb).
  inversion Hb as [| ? ? HP _]; subst. rewrite HF, <- Hn in HP.
  unfold cpf_p in Hx1. cbn [Z.eqb Pos.eqb] in Hx1.
  destruct (Qle_bool lamprv (c_lam s)) eqn:E; injection Hx1 as <-.
  - apply Qle_bool_iff in E.
    rewrite (Qabs_pos (c_lam s - lamprv)) by lra. lra.
  - assert (Hl : c_lam s < lamprv).
    { apply Qnot_le_lt. intros Hle. apply Qle_bool_iff in Hle. congruence. }
    rewrite (Qabs_neg (c_lam s - lamprv)) by lra.
    assert (Heq : - (c_lam s - lamprv) - step == lamprv - c_lam s - step)
      by ring.
    rewrite Heq. lra.
Qed.

(** ** The driver: one pass of the loop *)

Lemma accepted_app (tr1 tr2 : list event) :
  accepted (tr1 ++ tr2) = accepted tr1 ++ accepted tr2.
Proof.
  induction tr1 as [| e tr1 IH]; simpl; [ reflexivity | ].
  destruct e as [? ? ? | ? ? ? | V c i l n]; try exact IH.
  destruct (truthy c); simpl; now rewrite IH.
Qed.

Section DriverPass.

Context {K : kernels}.

Variables (Ybus : mat.matrix) (Sbus_base : list C) (Sxfr : list C)
          (pv pq : list nat) (step_min step_max error_tol tol : Q)
          (max_it : Z) (stop_at : stop_target).

Local Notation "'body'" :=
  (runcpf2_body Ybus Sbus_base Sxfr pv pq step_min step_max error_tol tol
                max_it stop_at).

(** What the stopping rule decides: it stops on the stop condition, or
    goes on, in which case (unless the mode is "FULL") [lam] has not
    decreased; and it either keeps the scheme and the adaptation flag or
    switches to the natural scheme with the adaptation off. *)
Lemma stop_rule_decision (st st' : driver_state) :
  stop_rule stop_at st = Ok st' ->
  d_lam st' = d_lam st /\
  ((d_continuation st' = PyInt 0 /\
    stop_condition stop_at (d_lam_prev st) (d_lam st)) \/
   (d_continuation st' = d_continuation st /\
    (not_full stop_at -> d_lam_prev st <= d_lam st))) /\
  ((d_approximation_order st' = d_approximation_order st /\
    d_adapt_step st' = d_adapt_step st) \/
   (d_approximation_order st' = 1%Z /\ d_adapt_step st' = PyInt 0)).
Proof.
  unfold stop_rule, stop_condition, not_full. intros H.
  destruct stop_at as [s | target].
  - rewrite <- (upper_spells s "FULL" eq_refl),
      <- (upper_spells s "NOSE" eq_refl).
    destruct (String.eqb (upper s) "FULL") eqn:Efull.
    + destruct (Qlt_bool (Qabs (d_lam st)) (1 # 100000000)) eqn:E1.
      * injection H as <-. cbn. apply Qlt_bool_iff in E1.
        split; [ reflexivity | ]. split; [ left | left ]; auto.
      * destruct (_ && _); injection H as <-; cbn;
          (split; [ reflexivity | ]);
          (split; [ right; split; [ reflexivity | discriminate ] | ]);
          auto.
    + destruct (String.eqb (upper s) "NOSE") eqn:Enose; [ | discriminate ].
      destruct (Qlt_bool (d_lam st) (d_lam_prev st)) eqn:E1;
        injection H as <-; cbn; (split; [ reflexivity | ]).
      * apply Qlt_bool_iff in E1. split; [ left | left ]; auto.
      * apply Qlt_bool_false_iff in E1. split; [ right | left ]; auto.
  - destruct (Qlt_bool (d_lam st) (d_lam_prev st)) eqn:E1.
    + injection H as <-. cbn. apply Qlt_bool_iff in E1.
      split; [ reflexivity | ]. split; [ left | left ]; auto.
    + apply Qlt_bool_false_iff in E1.
      destruct (Qlt_bool (Qabs (target - d_lam st)) (1 # 100000000)) eqn:E2.
      * injection H as <-. cbn. apply Qlt_bool_iff in E2.
        split; [ reflexivity | ]. split; [ left | left ]; auto.
      * destruct (Qlt_bool target (d_lam st + d_step st));
          injection H as <-; cbn; (split; [ reflexivity | ]);
          (split; [ right; split; [ reflexivity | auto ] | ]); auto.
Qed.

Lemma adapt_keeps (st st' : driver_state) (V0 : list C) (lam0 : Q) :
  adapt pv pq step_min step_max error_tol st V0 lam0 = Ok st' ->
  d_lam st' = d_lam st /\
  d_continuation st' = d_continuation st /\
  d_approximation_order st' = d_approximation_order st /\
  d_adapt_step st' = d_adapt_step st.
Proof.
  unfold adapt. intros H.
  destruct (truthy (d_adapt_step st) && truthy (d_continuation st)).
  - apply bind_ok_inv in H as (err & _ & H).
    apply bind_ok_inv in H as (step' & _ & H).
    injection H as <-. cbn. auto.
  - injection H as <-. auto.
Qed.

(** Every call of a pass is made with the scheme and the adaptation flag
    the pass starts with. *)
Lemma runcpf2_body_calls (st : driver_state) (evs : list event)
    (r : result driver_state) :
  body st = (evs, r) ->
  Forall (call_with (d_approximation_order st) (d_adapt_step st)) evs.
Proof.
  unfold runcpf2_body. intros H.
  destruct (cpf_predictor _ _ _ _ _ _ _ _ _ _ _) as [[[V0 lam0] z] | e].
  - destruct (cpf_corrector _ _ _ _ _ _ _ _ _ _ _ _ _ _)
      as [[[[[V success] i] lam] normF] | e].
    + destruct (negb (truthy success)); injection H as <- _;
        repeat (constructor; [ cbn; auto | ]); constructor.
    + injection H as <- _.
      repeat (constructor; [ cbn; auto | ]); constructor.
  - injection H as <- _.
    repeat (constructor; [ cbn; auto | ]); constructor.
Qed.

(** A pass that leaves a state: the two calls, what the corrector returned,
    and how the state changed. *)
Lemma runcpf2_body_ok (st st' : driver_state) (evs : list event) :
  body st = (evs, Ok st') ->
  exists V converged i lam normF,
    evs = [CallPredictor (d_step st) (d_approximation_order st)
                         (d_adapt_step st);
           CallCorrector (d_step st) (d_approximation_order st)
                         (d_adapt_step st);
           CorrectorReturned V converged i lam normF] /\
    d_normF st' = Some normF /\ d_success st' = Some converged /\
    (truthy converged = false ->
     d_continuation st' = PyInt 0 /\
     d_Voltage_series st' = d_Voltage_series st /\
     d_Lambda_series st' = d_Lambda_series st /\
     d_approximation_order st' = d_approximation_order st /\
     d_adapt_step st' = d_adapt_step st) /\
    (truthy converged = true ->
     d_Voltage_series st' = d_Voltage_series st ++ [V] /\
     d_Lambda_series st' = d_Lambda_series st ++ [lam] /\
     d_lam st' = lam /\
     ((d_continuation st' = PyInt 0 /\
       stop_condition stop_at (d_lam st) lam) \/
      (d_continuation st' = d_continuation st /\
       (not_full stop_at -> d_lam st <= lam))) /\
     ((d_approximation_order st' = d_approximation_order st /\
       d_adapt_step st' = d_adapt_step st) \/
      (d_approximation_order st' = 1%Z /\ d_adapt_step st' = PyInt 0))).
Proof.
  unfold runcpf2_body. intros H.
  destruct (cpf_predictor _ _ _ _ _ _ _ _ _ _ _) as [[[V0 lam0] z] | e];
    [ | discriminate ].
  destruct (cpf_corrector _ _ _ _ _ _ _ _ _ _ _ _ _ _)
    as [[[[[V success] i] lam] normF] | e]; [ | discriminate ].
  exists V, success, i, lam, normF.
  destruct (truthy success) eqn:Hs; cbn [negb] in H.
  - injection H as <- H. split; [ reflexivity | ].
    apply bind_ok_inv in H as (st2 & H2 & H).
    destruct (adapt_frame _ _ _ _ _ _ _ _ _ H) as (HV & HL & Hn & Hsu).
    destruct (adapt_keeps _ _ _ _ H) as (Hl & Hc & Ho & Ha).
    destruct (stop_rule_effect _ _ _ H2) as (HV2 & HL2 & Hn2 & Hsu2 & _).
    destruct (stop_rule_decision _ _ H2) as (Hl2 & Hstop & Hsw).
    cbn in HV2, HL2, Hn2, Hsu2, Hl2, Hstop, Hsw.
    rewrite Hn, Hn2, Hsu, Hsu2, HV, HV2, HL, HL2, Hl, Hl2, Hc, Ho, Ha.
    split; [ reflexivity | ]. split; [ reflexivity | ].
    split; [ discriminate | ]. intros _.
    repeat (split; [ reflexivity | ]). split; assumption.
  - injection H as <- <-. cbn. split; [ reflexivity | ].
    split; [ reflexivity | ]. split; [ reflexivity | ].
    split; [ auto | discriminate ].
Qed.

End DriverPass.

(** ** The driver: the trajectory and the end of a run *)

Lemma last_cons_default {A : Type} (a d : A) (l : list A) :
  last (a :: l) d = last l a.
Proof.
  revert a. induction l as [| b l IH]; intros a; [ reflexivity | ].
  change (last (a :: b :: l) d) with (last (b :: l) d).
  rewrite IH. symmetry. destruct l; [ reflexivity | ].
  change (last (b :: a0 :: l) a) with (last (a0 :: l) a).
  change (last (a0 :: l) b) with (last (a0 :: l) b).
  clear IH. revert a0. induction l as [| c l IHl]; intros a0;
    [ reflexivity | ].
  change (last (a0 :: c :: l) a) with (last (c :: l) a).
  change (last (a0 :: c :: l) b) with (last (c :: l) b).
  apply IHl.
Qed.

Section DriverRun.

Context {K : kernels}.

Variables (Ybus : mat.matrix) (Sbus_base : list C) (Sxfr : list C)
          (pv pq : list nat) (step_min step_max error_tol tol : Q)
          (max_it : Z) (stop_at : stop_target).

Local Notation "'body'" :=
  (runcpf2_body Ybus Sbus_base Sxfr pv pq step_min step_max error_tol tol
                max_it stop_at).
Local Notation "'loop'" :=
  (runcpf2_loop Ybus Sbus_base Sxfr pv pq step_min step_max error_tol tol
                max_it stop_at).

(** From any state: a run that returns hands back the trajectory held on
    entry followed by the accepted points, and the flag and the norm of the
    last corrector call. *)
Lemma runcpf2_loop_returned (fuel : nat) :
  forall (st : driver_state) (tr : list event) (Vs : list (list C))
         (Ls : list Q) (normF : Q) (success : pyflag),
    loop fuel st = (tr, Returned Vs Ls normF success) ->
    Vs = d_Voltage_series st ++ map fst (accepted tr) /\
    Ls = d_Lambda_series st ++ map snd (accepted tr) /\
    ((tr = [] /\ d_normF st = Some normF /\ d_success st = Some success) \/
     exists tr' V i lam,
       tr = tr' ++ [CorrectorReturned V success i lam normF]).
Proof.
  induction fuel as [| fuel IH]; intros st tr Vs Ls normF success H;
    simpl in H.
  - destruct (truthy (d_continuation st)); [ discriminate | ].
    injection H as <- H. unfold driver_return in H.
    destruct (d_normF st) as [n |]; [ | discriminate ].
    destruct (d_success st) as [s |]; [ | discriminate ].
    injection H as <- <- <- <-. cbn [accepted map]. rewrite !app_nil_r.
    split; [ reflexivity | ]. split; [ reflexivity | ]. left. auto.
  - destruct (truthy (d_continuation st)).
    + destruct (body st) as [evs [st' | e]] eqn:Hb; [ | discriminate ].
      destruct (loop fuel st') as [tr' out'] eqn:Hl.
      injection H as <- ->.
      destruct (IH _ _ _ _ _ _ Hl) as (HV & HL & Hlast).
      destruct (runcpf2_body_ok _ _ _ _ _ _ _ _ _ _ _ _ _ _ Hb)
        as (V & conv & i & lam & nF & -> & Hn & Hs & Hfail & Hacc).
      rewrite accepted_app. cbn [accepted].
      destruct (truthy conv) eqn:Hc.
      * destruct (Hacc eq_refl) as (HV' & HL' & _).
        rewrite HV' in HV. rewrite HL' in HL.
        rewrite <- !app_assoc in HV, HL. cbn [app map fst snd].
        split; [ exact HV | ]. split; [ exact HL | ]. right.
        destruct Hlast as [(-> & Hn' & Hs') | (tr'' & V' & i' & lam' & ->)].
        -- rewrite Hn in Hn'. rewrite Hs in Hs'.
           injection Hn' as ->. injection Hs' as ->.
           eexists [_; _], V, i, lam. reflexivity.
        -- eexists (_ :: _ :: _ :: tr''), V', i', lam'. reflexivity.
      * destruct (Hfail eq_refl) as (_ & HV' & HL' & _).
        rewrite HV' in HV. rewrite HL' in HL. cbn [app map fst snd].
        split; [ exact HV | ]. split; [ exact HL | ]. right.
        destruct Hlast as [(-> & Hn' & Hs') | (tr'' & V' & i' & lam' & ->)].
        -- rewrite Hn in Hn'. rewrite Hs in Hs'.
           injection Hn' as ->. injection Hs' as ->.
           eexists [_; _], V, i, lam. reflexivity.
        -- eexists (_ :: _ :: _ :: tr''), V', i', lam'. reflexivity.
    + injection H as <- H. unfold driver_return in H.
      destruct (d_normF st) as [n |]; [ | discriminate ].
      destruct (d_success st) as [s |]; [ | discriminate ].
      injection H as <- <- <- <-. cbn [accepted map]. rewrite !app_nil_r.
      split; [ reflexivity | ]. split; [ reflexivity | ]. left. auto.
Qed.

Lemma runcpf2_body_stop_inv (st st' : driver_state) (evs : list event) :
  truthy (d_continuation st) = true ->
  stop_inv stop_at st ->
  body st = (evs, Ok st') ->
  stop_inv stop_at st'.
Proof.
  intros Hcont [Hlam _] Hb.
  destruct (runcpf2_body_ok _ _ _ _ _ _ _ _ _ _ _ _ _ _ Hb)
    as (V & conv & i & lam & nF & _ & _ & Hs & Hfail & Hacc).
  unfold stop_inv. destruct (truthy conv) eqn:Hc.
  - destruct (Hacc eq_refl) as (_ & HL & Hl & [[H0 Hstop] | [Hsame _]] & _).
    + rewrite H0. split; [ discriminate | ]. intros _ s Hs' _.
      exists (d_Lambda_series st), lam. split; [ exact HL | ].
      now rewrite <- Hlam.
    + rewrite Hsame. split; [ | congruence ]. intros _.
      rewrite Hl, HL. symmetry. apply last_last.
  - destruct (Hfail eq_refl) as (H0 & _). rewrite H0.
    split; [ discriminate | ]. intros _ s Hs' Ht. congruence.
Qed.

Lemma runcpf2_loop_stop_condition (fuel : nat) :
  forall (st : driver_state) (tr : list event) (Vs : list (list C))
         (Ls : list Q) (normF : Q) (success : pyflag),
    stop_inv stop_at st ->
    loop fuel st = (tr, Returned Vs Ls normF success) ->
    truthy success = true ->
    exists Ls' lam,
      Ls = Ls' ++ [lam] /\ stop_condition stop_at (last Ls' 0) lam.
Proof.
  induction fuel as [| fuel IH]; intros st tr Vs Ls normF success Hinv H Hs;
    simpl in H.
  - destruct (truthy (d_continuation st)) eqn:Hc; [ discriminate | ].
    injection H as _ H. unfold driver_return in H.
    destruct (d_normF st) as [n |]; [ | discriminate ].
    destruct (d_success st) as [s |] eqn:Hsu; [ | discriminate ].
    injection H as _ <- _ <-. destruct Hinv as [_ Hinv].
    exact (Hinv Hc s Hsu Hs).
  - destruct (truthy (d_continuation st)) eqn:Hc.
    + destruct (body st) as [evs [st' | e]] eqn:Hb; [ | discriminate ].
      destruct (loop fuel st') as [tr' out'] eqn:Hl.
      injection H as _ ->.
      eapply IH; [ | exact Hl | exact Hs ].
      eapply runcpf2_body_stop_inv; eauto.
    + injection H as _ H. unfold driver_return in H.
      destruct (d_normF st) as [n |]; [ | discriminate ].
      destruct (d_success st) as [s |] eqn:Hsu; [ | discriminate ].
      injection H as _ <- _ <-. destruct Hinv as [_ Hinv].
      exact (Hinv Hc s Hsu Hs).
Qed.

(** The calls of a run are made with the scheme and flag of the state it
    starts from, up to some point, and from there on with the natural
    scheme and the adaptation off. *)
Lemma runcpf2_loop_switch (fuel : nat) :
  forall (st : driver_state),
  exists tr1 tr2,
    fst (loop fuel st) = tr1 ++ tr2 /\
    Forall (call_with (d_approximation_order st) (d_adapt_step st)) tr1 /\
    Forall (call_with 1%Z (PyInt 0)) tr2.
Proof.
  induction fuel as [| fuel IH]; intros st; simpl.
  - exists [], []. destruct (truthy (d_continuation st)); cbn; auto.
  - destruct (truthy (d_continuation st));
      [ | exists [], []; cbn; auto ].
    destruct (body st) as [evs r] eqn:Hb.
    pose proof (runcpf2_body_calls _ _ _ _ _ _ _ _ _ _ _ _ _ _ Hb) as Hcalls.
    destruct r as [st' | e]; [ | exists evs, []; cbn;
                                   rewrite app_nil_r; auto ].
    destruct (IH st') as (t1 & t2 & Htr & H1 & H2).
    destruct (loop fuel st') as [tr' out']. cbn [fst] in *. subst tr'.
    destruct (runcpf2_body_ok _ _ _ _ _ _ _ _ _ _ _ _ _ _ Hb)
      as (V & conv & i & lam & nF & _ & _ & _ & Hfail & Hacc).
    assert (Hsw : (d_approximation_order st' = d_approximation_order st /\
                   d_adapt_step st' = d_adapt_step st) \/
                  (d_approximation_order st' = 1%Z /\
                   d_adapt_step st' = PyInt 0)).
    { destruct (truthy conv).
      - now destruct (Hacc eq_refl) as (_ & _ & _ & _ & Hsw).
      - destruct (Hfail eq_refl) as (_ & _ & _ & Ho & Ha). now left. }
    destruct Hsw as [[Ho Ha] | [Ho Ha]]; rewrite Ho, Ha in H1.
    + exists (evs ++ t1), t2. rewrite app_assoc.
      split; [ reflexivity | ]. split; [ | exact H2 ].
      apply Forall_app. now split.
    + exists evs, (t1 ++ t2).
      split; [ reflexivity | ]. split; [ exact Hcalls | ].
      apply Forall_app. now split.
Qed.

End DriverRun.

(** Every run of [runcpf2] that returns hands back exactly the points its
    converged corrector calls produced, one per call and in order (so both
    series have the same length), together with the [converged] flag and the
    mismatch norm of its last corrector call. *)
Theorem runcpf2_returns_accepted_points {K : kernels}
    (fuel : nat) (Ybus : mat.matrix) (Sbus_base Sbus_target : list C)
    (V : list C) (pv pq : list nat) (step : Q) (approximation_order : Z)
    (adapt_step : pyflag) (step_min step_max error_tol tol : Q) (max_it : Z)
    (stop_at : stop_target)
    (tr : list event) (Vs : list (list C)) (Ls : list Q) (normF : Q)
    (success : pyflag) :
  runcpf2 fuel Ybus Sbus_base Sbus_target V pv pq step approximation_order
          adapt_step step_min step_max error_tol tol max_it stop_at
    = (tr, Returned Vs Ls normF success) ->
  Vs = map fst (accepted tr) /\
  Ls = map snd (accepted tr) /\
  length Vs = length Ls /\
  exists tr' V1 i lam, tr = tr' ++ [CorrectorReturned V1 success i lam normF].
Proof.
  unfold runcpf2. intros H.
  apply runcpf2_loop_returned in H as (HV & HL & Hlast).
  cbn [driver_init d_Voltage_series d_Lambda_series app] in HV, HL.
  split; [ exact HV | ]. split; [ exact HL | ].
  split; [ now rewrite HV, HL, !length_map | ].
  destruct Hlast as [(_ & Hn & _) | Hlast]; [ discriminate | exact Hlast ].
Qed.

(** A run of [runcpf2] towards a number or an ASCII string that returns
    with success true has stopped on its stopping rule: its last accepted
    [lam] is within 1e-8 of zero ("FULL"), below the one before ("NOSE"), or
    below the one before or within 1e-8 of the target (numeric target); the
    value before the first accepted one being the initial [lam = 0]. *)
Theorem runcpf2_success_meets_stop_condition {K : kernels}
    (fuel : nat) (Ybus : mat.matrix) (Sbus_base Sbus_target : list C)
    (V : list C) (pv pq : list nat) (step : Q) (approximation_order : Z)
    (adapt_step : pyflag) (step_min step_max error_tol tol : Q) (max_it : Z)
    (stop_at : stop_target)
    (tr : list event) (Vs : list (list C)) (Ls : list Q) (normF : Q)
    (success : pyflag) :
  ascii_target stop_at ->
  runcpf2 fuel Ybus Sbus_base Sbus_target V pv pq step approximation_order
          adapt_step step_min step_max error_tol tol max_it stop_at
    = (tr, Returned Vs Ls normF success) ->
  truthy success = true ->
  exists Ls' lam,
    Ls = Ls' ++ [lam] /\ stop_condition stop_at (last Ls' 0) lam.
Proof.
  unfold runcpf2. intros _ H Hs.
  eapply runcpf2_loop_stop_condition; [ | exact H | exact Hs ].
  split; cbn; [ reflexivity | discriminate ].
Qed.

(** The scheme and the adaptation flag change at most once in a run, and
    only to the natural scheme with the adaptation off: the calls before
    that point use the values [runcpf2] was given, the calls after it use
    [approximation_order = 1] and [adapt_step = 0]; the adaptation is never
    switched back on. *)
Theorem runcpf2_switches_once {K : kernels}
    (fuel : nat) (Ybus : mat.matrix) (Sbus_base Sbus_target : list C)
    (V : list C) (pv pq : list nat) (step : Q) (approximation_order : Z)
    (adapt_step : pyflag) (step_min step_max error_tol tol : Q) (max_it : Z)
    (stop_at : stop_target) :
  exists tr1 tr2,
    fst (runcpf2 fuel Ybus Sbus_base Sbus_target V pv pq step
                 approximation_order adapt_step step_min step_max error_tol
                 tol max_it stop_at) = tr1 ++ tr2 /\
    Forall (call_with approximation_order adapt_step) tr1 /\
    Forall (call_with 1%Z (PyInt 0)) tr2.
Proof.
  unfold runcpf2.
  destruct (runcpf2_loop_switch Ybus Sbus_base
              (np.zipWith Csub Sbus_target Sbus_base) pv pq step_min step_max
              error_tol tol max_it stop_at fuel
              (driver_init Sbus_base V step approximation_order adapt_step))
    as (tr1 & tr2 & H).
  exists tr1, tr2. exact H.
Qed.

(** ** The driver with a scheme other than natural or arc-length *)




(** ** The driver: [lam] does not decrease before the end *)

Lemma nondecreasing_snoc (a x : Q) (l : list Q) :
  nondecreasing (a :: l) -> last l a <= x -> nondecreasing (a :: l ++ [x]).
Proof.
  revert a. induction l as [| b l IH]; intros a [Hab Hl] Hx.
  - cbn in *. auto.
  - rewrite last_cons_default in Hx.
    change ((b :: l) ++ [x]) with (b :: l ++ [x]).
    split; [ exact Hab | ]. apply IH; assumption.
Qed.

Lemma nondecreasing_removelast (l : list Q) :
  nondecreasing l -> nondecreasing (removelast l).
Proof.
  induction l as [| a l IH]; intros H; [ exact I | ].
  destruct l as [| b l]; [ exact I | ].
  destruct H as [Hab Hl].
  change (removelast (a :: b :: l)) with (a :: removelast (b :: l)).
  split; [ | now apply IH ].
  destruct l as [| c l]; [ exact I | exact Hab ].
Qed.

Section LambdaOrder.

Context {K : kernels}.

Variables (Ybus : mat.matrix) (Sbus_base : list C) (Sxfr : list C)
          (pv pq : list nat) (step_min step_max error_tol tol : Q)
          (max_it : Z) (stop_at : stop_target).

Hypothesis stop_not_full : not_full stop_at.

Local Notation "'body'" :=
  (runcpf2_body Ybus Sbus_base Sxfr pv pq step_min step_max error_tol tol
                max_it stop_at).
Local Notation "'loop'" :=
  (runcpf2_loop Ybus Sbus_base Sxfr pv pq step_min step_max error_tol tol
                max_it stop_at).

Lemma runcpf2_body_lam_inv (st st' : driver_state) (evs : list event) :
  truthy (d_continuation st) = true ->
  lam_inv st ->
  body st = (evs, Ok st') ->
  lam_inv st'.
Proof.
  intros Hcont [Hgo _] Hb. destruct (Hgo Hcont) as [Hnd Hlam].
  destruct (runcpf2_body_ok _ _ _ _ _ _ _ _ _ _ _ _ _ _ Hb)
    as (V & conv & i & lam & nF & _ & _ & _ & Hfail & Hacc).
  unfold lam_inv. destruct (truthy conv) eqn:Hc.
  - destruct (Hacc eq_refl) as (_ & HL & Hl & [[H0 _] | [Hsame Hle]] & _).
    + rewrite H0, HL. split; [ discriminate | ]. intros _.
      change (0 :: d_Lambda_series st ++ [lam])
        with ((0 :: d_Lambda_series st) ++ [lam]).
      now rewrite removelast_last.
    + rewrite Hsame, HL, Hl. split; [ | congruence ]. intros _. split.
      * apply nondecreasing_snoc; [ exact Hnd | ].
        rewrite <- Hlam. now apply Hle.
      * symmetry. apply last_last.
  - destruct (Hfail eq_refl) as (H0 & _ & HL & _). rewrite H0, HL.
    split; [ discriminate | ]. intros _.
    now apply nondecreasing_removelast.
Qed.

Lemma runcpf2_loop_lam_order (fuel : nat) :
  forall (st : driver_state) (tr : list event) (Vs : list (list C))
         (Ls : list Q) (normF : Q) (success : pyflag),
    lam_inv st ->
    loop fuel st = (tr, Returned Vs Ls normF success) ->
    nondecreasing (removelast (0 :: Ls)).
Proof.
  induction fuel as [| fuel IH]; intros st tr Vs Ls normF success Hinv H;
    simpl in H.
  - destruct (truthy (d_continuation st)) eqn:Hc; [ discriminate | ].
    injection H as _ H. unfold driver_return in H.
    destruct (d_normF st) as [n |]; [ | discriminate ].
    destruct (d_success st) as [s |]; [ | discriminate ].
    injection H as _ <- _ _. destruct Hinv as [_ Hinv]. now apply Hinv.
  - destruct (truthy (d_continuation st)) eqn:Hc.
    + destruct (body st) as [evs [st' | e]] eqn:Hb; [ | discriminate ].
      destruct (loop fuel st') as [tr' out'] eqn:Hl.
      injection H as _ ->.
      eapply IH; [ | exact Hl ].
      eapply runcpf2_body_lam_inv; eauto.
    + injection H as _ H. unfold driver_return in H.
      destruct (d_normF st) as [n |]; [ | discriminate ].
      destruct (d_success st) as [s |]; [ | discriminate ].
      injection H as _ <- _ _. destruct Hinv as [_ Hinv]. now apply Hinv.
Qed.

End LambdaOrder.

(** With the stop target "NOSE" or a number, the values of [lam] along the
    returned trajectory, starting from the initial 0, never decrease except
    possibly at the last accepted step (the one that ends the run). *)
Theorem runcpf2_lambda_nondecreasing {K : kernels}
    (fuel : nat) (Ybus : mat.matrix) (Sbus_base Sbus_target : list C)
    (V : list C) (pv pq : list nat) (step : Q) (approximation_order : Z)
    (adapt_step : pyflag) (step_min step_max error_tol tol : Q) (max_it : Z)
    (stop_at : stop_target)
    (tr : list event) (Vs : list (list C)) (Ls : list Q) (normF : Q)
    (success : pyflag) :
  not_full stop_at ->
  runcpf2 fuel Ybus Sbus_base Sbus_target V pv pq step approximation_order
          adapt_step step_min step_max error_tol tol max_it stop_at
    = (tr, Returned Vs Ls normF success) ->
  nondecreasing (removelast (0 :: Ls)).
Proof.
  unfold runcpf2. intros Hnf H.
  eapply runcpf2_loop_lam_order; [ exact Hnf | | exact H ].
  split; cbn; [ intros _; auto | discriminate ].
Qed.

(** ** The Jacobian: shape and zero voltages *)

Lemma mapM_length {A B : Type} (f : A -> result B) (l : list A)
    (l' : list B) :
  mapM f l = Ok l' -> length l' = length l.
Proof.
  revert l'. induction l as [| x l IH]; simpl; intros l' H.
  - now injection H as <-.
  - apply bind_ok_inv in H as (y & _ & H).
    apply bind_ok_inv in H as (ys & Hys & H). injection H as <-.
    simpl. f_equal. now apply IH.
Qed.

Lemma mapM_forall {A B : Type} (f : A -> result B) (P : B -> Prop)
    (l : list A) (l' : list B) :
  (forall x y, f x = Ok y -> P y) -> mapM f l = Ok l' -> Forall P l'.
Proof.
  intros Hf. revert l'. induction l as [| x l IH]; simpl; intros l' H.
  - injection H as <-. constructor.
  - apply bind_ok_inv in H as (y & Hy & H).
    apply bind_ok_inv in H as (ys & Hys & H). injection H as <-.
    constructor; [ eapply Hf; eauto | now apply IH ].
Qed.

Lemma sub_take_shape {A : Type} (m : list (list A)) (rows cols : list nat)
    (a : list (list A)) :
  mat.sub_take m rows cols = Ok a ->
  has_shape a (length rows) (length cols).
Proof.
  unfold mat.sub_take, has_shape. intros H.
  apply bind_ok_inv in H as (rs & Hrs & H). split.
  - rewrite (mapM_length _ _ _ H). now apply take_length in Hrs.
  - eapply mapM_forall; [ | exact H ].
    intros r y Hy. now apply take_length in Hy.
Qed.

Lemma map_map_shape {A B : Type} (f : A -> B) (m : list (list A))
    (r c : nat) :
  has_shape m r c -> has_shape (map (map f) m) r c.
Proof.
  unfold has_shape. intros [Hr Hc]. split; [ now rewrite length_map | ].
  apply Forall_map. eapply Forall_impl; [ | exact Hc ].
  intros row Hrow. now rewrite length_map.
Qed.

Lemma hstack_shape {A : Type} (a b : list (list A)) (r c1 c2 : nat) :
  has_shape a r c1 -> has_shape b r c2 ->
  has_shape (mat.hstack a b) r (c1 + c2).
Proof.
  unfold has_shape, mat.hstack. revert b r.
  induction a as [| x a IH]; intros [| y b] r [Hr Hc] [Hr' Hc'];
    simpl in *; subst; try discriminate; [ split; constructor | ].
  inversion Hc; subst. inversion Hc'; subst.
  destruct (IH b (length a)) as [Hl Hf]; [ now split | split; [ lia | assumption ] | ].
  split; [ now rewrite Hl | ].
  constructor; [ now rewrite length_app | exact Hf ].
Qed.

Lemma vstack_shape {A : Type} (a b : list (list A)) (r1 r2 c : nat) :
  has_shape a r1 c -> has_shape b r2 c ->
  has_shape (mat.vstack a b) (r1 + r2) c.
Proof.
  unfold has_shape, mat.vstack. intros [Hr Hc] [Hr' Hc']. split.
  - rewrite length_app. lia.
  - apply Forall_app. now split.
Qed.

Section JacobianShape.

Context {K : kernels}.

Lemma jacobian_shape_aux (Ybus : mat.matrix) (V : list C)
    (pvpq pq : list nat) (J : list (list Q)) :
  jacobian Ybus V pvpq pq = Ok J ->
  has_shape J (length pvpq + length pq) (length pvpq + length pq).
Proof.
  unfold jacobian. intros H. inv_bind H. injection H as <-.
  apply vstack_shape; apply hstack_shape; apply map_map_shape;
    eapply sub_take_shape; eassumption.
Qed.

(** Whenever [jacobian] returns, the matrix is square, with one row and
    one column per angle unknown ([pvpq]) and per magnitude unknown
    ([pq]). *)
Theorem jacobian_square (Ybus : mat.matrix) (V : list C)
    (pvpq pq : list nat) (J : list (list Q)) :
  jacobian Ybus V pvpq pq = Ok J ->
  has_shape J (length pvpq + length pq) (length pvpq + length pq).
Proof.
  apply jacobian_shape_aux.
Qed.

(** The gradient [dP/dV] of the natural and of the arc-length scheme has
    one entry per unknown of the power-flow Jacobian. *)
Lemma cpf_p_jac_length (parameterization : Z) (z : list Q) (V : list C)
    (lam : Q) (Vprv : list C) (lamprv : Q) (pv pq : list nat)
    (dP_dV : list Q) (dP_dlam : Q) :
  cpf_p_jac parameterization z V lam Vprv lamprv pv pq (pv ++ pq)
    = Ok (dP_dV, dP_dlam) ->
  length dP_dV = (length (pv ++ pq) + length pq)%nat.
Proof.
  unfold cpf_p_jac. intros H.
  destruct (parameterization =? 1)%Z.
  - destruct (Qle_bool lamprv lam); injection H as <- _;
      unfold np.zeros; rewrite repeat_length, length_app; lia.
  - destruct (parameterization =? 2)%Z.
    + cbv zeta in H. inv_bind H;
        injection H as <- _; unfold np.scale, np.sub;
        rewrite length_map;
        apply take_length in Hx, Hx0, Hx1, Hx2;
        assert (Hl : forall (a b : list Q),
                   length a = length b ->
                   length (np.zipWith Qminus a b) = length a)
          by (induction a as [| u a IHa]; intros [| v b] Hab; simpl in *;
              try discriminate; auto);
        rewrite Hl by (rewrite !length_app; congruence);
        rewrite length_app; congruence.
    + destruct (parameterization =? 3)%Z; [ | discriminate ].
      cbv zeta in H. inv_bind H. discriminate.
Qed.

(** The linear system that the predictor and the corrector hand to
    [spsolve] is square: the augmented matrix has one more row and one more
    column than the power-flow Jacobian. *)
Theorem augmented_jacobian_square (Ybus : mat.matrix) (V : list C)
    (Sxfr : list C) (parameterization : Z) (z : list Q) (lam : Q)
    (Vprv : list C) (lamprv : Q) (pv pq : list nat)
    (J : list (list Q)) (sx1 sx2 : list C) (dP_dV : list Q) (dP_dlam : Q) :
  jacobian Ybus V (pv ++ pq) pq = Ok J ->
  np.take Sxfr (pv ++ pq) = Ok sx1 ->
  np.take Sxfr pq = Ok sx2 ->
  cpf_p_jac parameterization z V lam Vprv lamprv pv pq (pv ++ pq)
    = Ok (dP_dV, dP_dlam) ->
  let n := (length pv + 2 * length pq)%nat in
  has_shape (augment J (np.neg (map re sx1 ++ map im sx2)) dP_dV dP_dlam)
            (n + 1) (n + 1).
Proof.
  intros HJ H1 H2 Hg n.
  apply jacobian_shape_aux in HJ.
  apply take_length in H1, H2. apply cpf_p_jac_length in Hg.
  rewrite length_app in HJ, H1, Hg.
  assert (Hn : (length pv + length pq + length pq = n)%nat)
    by (unfold n; lia).
  rewrite Hn in HJ, Hg.
  unfold augment. apply vstack_shape.
  - apply hstack_shape; [ exact HJ | ].
    split.
    + unfold np.neg. rewrite !length_map, length_app, !length_map. lia.
    + apply Forall_map. apply Forall_forall. intros x _. reflexivity.
  - split; [ reflexivity | ].
    constructor; [ rewrite length_app; simpl; lia | constructor ].
Qed.

End JacobianShape.

Section ZeroVoltage.

Context {K : kernels}.






End ZeroVoltage.

(** ** The further properties at concrete inputs *)

(** The corrector on the two-bus network, natural scheme, at the point
    predicted from [lam = 0] with step 0.2. *)
Lemma cpf_corrector_returns_witness :
  exists V converged i lam normF,
    @cpf_corrector axis_kernels two_bus.Ybus two_bus.Sbus two_bus.pv
      two_bus.pq two_bus.Sbus two_bus.V 0 [0; 0; 0; 0; 1] (1 # 5) 1
      (1 # 1000000) 20 two_bus.V (1 # 5)
    = Ok (V, converged, i, lam, normF) /\
    (0 <= i <= Z.max 0 20)%Z /\
    (truthy converged = true <-> normF < 1 # 1000000).
Proof.
  destruct (@cpf_corrector axis_kernels two_bus.Ybus two_bus.Sbus two_bus.pv
              two_bus.pq two_bus.Sbus two_bus.V 0 [0; 0; 0; 0; 1] (1 # 5) 1
              (1 # 1000000) 20 two_bus.V (1 # 5))
    as [[[[[V converged] i] lam] normF] | e] eqn:H;
    [ | vm_compute in H; discriminate ].
  exists V, converged, i, lam, normF. split; [ reflexivity | ].
  destruct (@cpf_corrector_returns axis_kernels _ _ _ _ _ _ _ _ _ _ _ _ _ _
              _ _ _ _ _ H) as (Hi & _ & Hc & _).
  split; assumption.
Defined.

Lemma cpf_corrector_no_iteration_witness :
  exists converged normF,
    @cpf_corrector axis_kernels two_bus.Ybus two_bus.Sbus two_bus.pv
      two_bus.pq two_bus.Sbus two_bus.V 0 [0; 0; 0; 0; 1] (1 # 5) 1
      (1 # 1000000) 0 two_bus.V (3 # 10)
    = Ok (two_bus.V, converged, 0%Z, 3 # 10, normF) /\
    truthy converged = false.
Proof.
  eexists _, _. split.
  - eapply (@cpf_corrector_no_iteration axis_kernels two_bus.Ybus
              two_bus.Sbus two_bus.pv two_bus.pq two_bus.Sbus two_bus.V 0
              [0; 0; 0; 0; 1] (1 # 5) 1 (1 # 1000000) 0 two_bus.V (3 # 10)).
    + discriminate.
    + vm_compute. reflexivity.
  - vm_compute. reflexivity.
Defined.

Lemma cpf_corrector_converged_residuals_witness :
  exists F,
    @augmented_mismatch axis_kernels two_bus.Ybus two_bus.Sbus two_bus.pv
      two_bus.pq two_bus.Sbus two_bus.V 0 [0; 0; 0; 0; 1] (1 # 5) 1
      two_bus.V (1 # 5) = Ok F /\
    Forall (fun x => Qabs x < 1 # 1000000) F.
Proof.
  eapply (@cpf_corrector_converged_residuals axis_kernels two_bus.Ybus
            two_bus.Sbus two_bus.pv two_bus.pq two_bus.Sbus two_bus.V 0
            [0; 0; 0; 0; 1] (1 # 5) 1 (1 # 1000000) 20 two_bus.V (1 # 5)
            two_bus.V (PyBool true) 0%Z (1 # 5)).
  - vm_compute. reflexivity.
  - reflexivity.
Defined.

Lemma cpf_corrector_natural_step_witness :
  Qabs (Qabs ((1 # 5) - 0) - (1 # 5)) < 1 # 1000000.
Proof.
  eapply (@cpf_corrector_natural_step axis_kernels two_bus.Ybus
            two_bus.Sbus two_bus.pv two_bus.pq two_bus.Sbus two_bus.V 0
            [0; 0; 0; 0; 1] (1 # 5) (1 # 1000000) 20 two_bus.V (1 # 5)
            two_bus.V (PyBool true) 0%Z (1 # 5)).
  - vm_compute. reflexivity.
  - reflexivity.
Defined.


(** The run of [runcpf2_failed_corrector_stops_witness]: two accepted
    points, then a corrector call that does not converge. *)
Lemma runcpf2_returns_accepted_points_witness :
  exists tr Vs Ls normF success,
    @runcpf2 axis_kernels 5 two_bus.Ybus two_bus.Sbus two_bus.Sbus
      two_bus.V two_bus.pv two_bus.pq (1 # 10) 1 (PyBool true)
      (1 # 20) (1 # 5) (1 # 1000) (1 # 1000000) 4 (StopNum (1 # 4))
    = (tr, Returned Vs Ls normF success) /\
    Vs = map fst (accepted tr) /\ Ls = map snd (accepted tr) /\
    length Vs = length Ls.
Proof.
  destruct (@runcpf2 axis_kernels 5 two_bus.Ybus two_bus.Sbus two_bus.Sbus
              two_bus.V two_bus.pv two_bus.pq (1 # 10) 1 (PyBool true)
              (1 # 20) (1 # 5) (1 # 1000) (1 # 1000000) 4 (StopNum (1 # 4)))
    as [tr [Vs Ls normF success | e | ]] eqn:H;
    [ | vm_compute in H; discriminate | vm_compute in H; discriminate ].
  exists tr, Vs, Ls, normF, success. split; [ reflexivity | ].
  destruct (@runcpf2_returns_accepted_points axis_kernels _ _ _ _ _ _ _ _ _
              _ _ _ _ _ _ _ _ _ _ _ _ H) as (HV & HL & Hlen & _).
  split; [ exact HV | ]. split; [ exact HL | exact Hlen ].
Defined.

(** A run on the two-bus network in the mode "Full" with a step of 1e-9:
    the first accepted [lam] is within 1e-8 of zero, and the run returns
    there with success. *)
Lemma runcpf2_success_meets_stop_condition_witness :
  exists tr Vs Ls normF success,
    @runcpf2 axis_kernels 5 two_bus.Ybus two_bus.Sbus two_bus.Sbus
      two_bus.V two_bus.pv two_bus.pq (1 # 1000000000) 1 (PyBool true)
      (1 # 10) (1 # 5) (1 # 1000) (1 # 1000000) 20 (StopStr "Full")
    = (tr, Returned Vs Ls normF success) /\
    truthy success = true /\
    exists Ls' lam,
      Ls = Ls' ++ [lam] /\
      stop_condition (StopStr "Full") (last Ls' 0) lam.
Proof.
  destruct (@runcpf2 axis_kernels 5 two_bus.Ybus two_bus.Sbus two_bus.Sbus
              two_bus.V two_bus.pv two_bus.pq (1 # 1000000000) 1
              (PyBool true) (1 # 10) (1 # 5) (1 # 1000) (1 # 1000000) 20
              (StopStr "Full"))
    as [tr [Vs Ls normF success | e | ]] eqn:H;
    [ | vm_compute in H; discriminate | vm_compute in H; discriminate ].
  assert (Hs : truthy success = true).
  { pose proof H as H'. vm_compute in H'. now injection H' as _ _ _ _ <-. }
  exists tr, Vs, Ls, normF, success. split; [ reflexivity | ].
  split; [ exact Hs | ].
  exact (@runcpf2_success_meets_stop_condition axis_kernels _ _ _ _ _ _ _ _
           _ _ _ _ _ _ _ (StopStr "Full") _ _ _ _ _ eq_refl H Hs).
Defined.

Lemma runcpf2_lambda_nondecreasing_witness :
  exists tr Vs Ls normF success,
    @runcpf2 axis_kernels 5 two_bus.Ybus two_bus.Sbus two_bus.Sbus
      two_bus.V two_bus.pv two_bus.pq (1 # 5) 1 (PyBool true)
      (1 # 10) (1 # 5) (1 # 1000) (1 # 1000000) 20 (StopNum (1 # 4))
    = (tr, Returned Vs Ls normF success) /\
    nondecreasing (removelast (0 :: Ls)).
Proof.
  destruct (@runcpf2 axis_kernels 5 two_bus.Ybus two_bus.Sbus two_bus.Sbus
              two_bus.V two_bus.pv two_bus.pq (1 # 5) 1 (PyBool true)
              (1 # 10) (1 # 5) (1 # 1000) (1 # 1000000) 20
              (StopNum (1 # 4)))
    as [tr [Vs Ls normF success | e | ]] eqn:H;
    [ | vm_compute in H; discriminate | vm_compute in H; discriminate ].
  exists tr, Vs, Ls, normF, success. split; [ reflexivity | ].
  exact (@runcpf2_lambda_nondecreasing axis_kernels _ _ _ _ _ _ _ _
           _ _ _ _ _ _ _ (StopNum (1 # 4)) _ _ _ _ _ I H).
Defined.


Lemma jacobian_square_witness :
  exists J,
    @jacobian axis_kernels two_bus.Ybus two_bus.V (two_bus.pv ++ two_bus.pq)
              two_bus.pq = Ok J /\
    has_shape J 2 2.
Proof.
  exists [[1; 0]; [0; 1]]. split; [ vm_compute; reflexivity | ].
  apply (@jacobian_square axis_kernels two_bus.Ybus two_bus.V
           (two_bus.pv ++ two_bus.pq) two_bus.pq).
  vm_compute. reflexivity.
Defined.

Lemma augmented_jacobian_square_witness :
  has_shape (augment [[1; 0]; [0; 1]]
               (np.neg (map re [C0] ++ map im [C0])) (np.zeros 2) 1) 3 3.
Proof.
  apply (@augmented_jacobian_square axis_kernels two_bus.Ybus two_bus.V
           two_bus.Sbus 1 [0; 0; 0; 0; 1] 0 two_bus.V 0 two_bus.pv
           two_bus.pq [[1; 0]; [0; 1]] [C0] [C0] (np.zeros 2) 1);
    vm_compute; reflexivity.
Defined.

(** ** Arc length: the first step and the sign of [P] *)

Lemma sum_sq_nonneg (l : list Q) : 0 <= np.sum (np.sq l).
Proof.
  induction l as [| x l IH].
  - unfold np.sum. simpl. lra.
  - change (np.sq (x :: l)) with (x ^ 2 :: np.sq l). rewrite sum_cons.
    assert (Hx : 0 <= x ^ 2) by (simpl; nra). lra.
Qed.

Lemma sub_self_zero (a : list Q) : Forall (fun x => x == 0) (np.sub a a).
Proof.
  unfold np.sub. induction a as [| x a IH]; simpl; constructor;
    [ ring | exact IH ].
Qed.

Lemma sum_sq_zero (l : list Q) :
  Forall (fun x => x == 0) l -> np.sum (np.sq l) == 0.
Proof.
  induction 1 as [| x l Hx _ IH].
  - reflexivity.
  - change (np.sq (x :: l)) with (x ^ 2 :: np.sq l).
    rewrite sum_cons, IH, Hx. reflexivity.
Qed.

Lemma zipWith_length {A B C : Type} (f : A -> B -> C) (a : list A)
    (b : list B) :
  length a = length b -> length (np.zipWith f a b) = length a.
Proof.
  revert b. induction a as [| x a IH]; intros [| y b] H; simpl in *;
    try discriminate; auto.
Qed.

Section ArcLengthFirstStep.

Context {K : kernels}.

(** In arc-length mode [P] is never below [-step^2]. *)
Theorem cpf_arc_length_lower_bound
    (step : Q) (z : list Q) (V : list C) (lam : Q) (Vprv : list C)
    (lamprv : Q) (pv pq pvpq : list nat) (P : Q) :
  cpf_p 2 step z V lam Vprv lamprv pv pq pvpq = Ok P ->
  - step ^ 2 <= P.
Proof.
  unfold cpf_p. cbn [Z.eqb Pos.eqb]. cbv zeta. intros H. inv_bind H.
  injection H as <-.
  pose proof (sum_sq_nonneg (np.sub (x ++ x0 ++ [lam])
                                    (x1 ++ x2 ++ [lamprv]))) as Hs.
  lra.
Qed.

(** At the previous solution itself (the situation of the first predictor
    call, where [V = Vprv] and [lam = lamprv]) the arc-length residual is
    [-step^2] and its gradient is [(0, ..., 0, 1)]: the fall-back
    [dP/dlam = 1] keeps the last row of the augmented matrix from being
    zero. *)
Theorem cpf_arc_length_first_step
    (step : Q) (z : list Q) (V : list C) (lam : Q)
    (pv pq pvpq : list nat) :
  in_range V pvpq -> in_range V pq ->
  (exists P, cpf_p 2 step z V lam V lam pv pq pvpq = Ok P /\
             P == - step ^ 2) /\
  (exists dP_dV,
      cpf_p_jac 2 z V lam V lam pv pq pvpq = Ok (dP_dV, 1) /\
      length dP_dV = (length pvpq + length pq)%nat /\
      Forall (fun x => x == 0) dP_dV).
Proof.
  intros H1 H2. split.
  - unfold cpf_p. cbn [Z.eqb Pos.eqb]. cbv zeta.
    rewrite (take_angle V pvpq H1), (take_cabs V pq H2). cbn [bind].
    eexists. split; [ reflexivity | ].
    rewrite sum_sq_zero by apply sub_self_zero. ring.
  - unfold cpf_p_jac. cbn [Z.eqb Pos.eqb]. cbv zeta.
    rewrite (take_angle V pvpq H1), (take_cabs V pq H2). cbn [bind].
    rewrite Qeq_bool_refl. eexists. split; [ reflexivity | ]. split.
    + unfold np.scale, np.sub.
      rewrite length_map, zipWith_length by reflexivity.
      now rewrite length_app, !length_map.
    + unfold np.scale. apply Forall_map.
      eapply Forall_impl; [ | apply sub_self_zero ].
      intros x Hx. simpl in Hx. rewrite Hx. ring.
Qed.

End ArcLengthFirstStep.

(** ** Vector lengths along a run *)

Section Lengths.

Context {K : kernels}.

Lemma iadd_at_length (a : list Q) (idx : list nat) (d a' : list Q) :
  iadd_at a idx d = Ok a' -> length a' = length a.
Proof.
  unfold iadd_at. intros H. apply bind_ok_inv in H as (cur & _ & H).
  now apply put_length in H.
Qed.

Lemma polar_length (Vm Va : list Q) :
  length Vm = length Va -> length (polar Vm Va) = length Vm.
Proof.
  apply zipWith_length.
Qed.

(** Whenever the predictor returns, the trial voltage vector has as many
    entries as the current one and the tangent vector keeps its length. *)
Lemma cpf_predictor_lengths
    (V : list C) (lam : Q) (Ybus : mat.matrix) (Sxfr : list C)
    (pv pq : list nat) (step : Q) (z : list Q) (Vprv : list C) (lamprv : Q)
    (parameterization : Z) (V0 : list C) (lam0 : Q) (z' : list Q) :
  cpf_predictor V lam Ybus Sxfr pv pq step z Vprv lamprv parameterization
    = Ok (V0, lam0, z') ->
  length V0 = length V /\ length z' = length z.
Proof.
  intros H. unfold cpf_predictor in H. cbv zeta in H. inv_bind H.
  injection H as <- _ <-.
  apply put_length in Hx3 as [Hz _].
  apply mapM_length in Hx4.
  apply put_length in Hx7 as [Ha _].
  apply put_length in Hx10 as [Hm _].
  rewrite length_map in Ha, Hm. split.
  - rewrite polar_length; congruence.
  - congruence.
Qed.

Section CorrectorLengths.

Variables (Ybus : mat.matrix) (Sbus : list C) (pv pq : list nat)
          (Sxfr Vprv : list C) (lamprv : Q) (z : list Q) (step : Q)
          (parameterization : Z) (tol : Q) (max_it : Z).

Lemma corrector_iteration_length (n : nat) (s s' : corrector_state) :
  length (c_Va s) = n -> length (c_Vm s) = n ->
  corrector_iteration Ybus Sbus pv pq Sxfr Vprv lamprv z step
                      parameterization tol s = Ok s' ->
  length (c_V s') = n /\ length (c_Va s') = n /\ length (c_Vm s') = n.
Proof.
  intros Ha Hm H. unfold corrector_iteration in H. cbv zeta in H.
  inv_bind H. injection H as <-. cbn [c_V c_Va c_Vm].
  assert (Hx2' : length x2 = n).
  { destruct (length pv =? 0)%nat.
    - injection Hx3 as <-. exact Ha.
    - apply iadd_at_length in Hx3. congruence. }
  assert (Hl : length l0 = n /\ length l1 = n).
  { destruct (length pq =? 0)%nat.
    - injection Hx4 as <- <-. now split.
    - apply bind_ok_inv in Hx4 as (Va' & HVa & Hx4).
      apply bind_ok_inv in Hx4 as (Vm' & HVm & Hx4).
      injection Hx4 as <- <-.
      apply iadd_at_length in HVa, HVm. split; congruence. }
  destruct Hl as [Hl0 Hl1].
  assert (Hp : length (polar l1 l0) = n)
    by (rewrite polar_length; congruence).
  now rewrite !length_map.
Qed.

Lemma corrector_loop_length (n : nat) (fuel : nat) :
  forall s s',
    length (c_V s) = n -> length (c_Va s) = n -> length (c_Vm s) = n ->
    corrector_loop Ybus Sbus pv pq Sxfr Vprv lamprv z step parameterization
                   tol max_it fuel s = Ok s' ->
    length (c_V s') = n.
Proof.
  induction fuel as [| fuel IH]; intros s s' HV Ha Hm H; simpl in H.
  - destruct (_ && _); injection H as <-; exact HV.
  - destruct (_ && _); [ | injection H as <-; exact HV ].
    apply bind_ok_inv in H as (s1 & H1 & H).
    destruct (corrector_iteration_length n s s1 Ha Hm H1) as (HV1 & Ha1 & Hm1).
    exact (IH s1 s' HV1 Ha1 Hm1 H).
Qed.

(** Whenever the corrector returns, the voltage vector it returns has as
    many entries as the trial vector it was given. *)
Lemma cpf_corrector_length (V0 : list C) (lam0 : Q)
    (V : list C) (converged : pyflag) (i : Z) (lam normF : Q) :
  cpf_corrector Ybus Sbus pv pq Sxfr Vprv lamprv z step parameterization
                tol max_it V0 lam0 = Ok (V, converged, i, lam, normF) ->
  length V = length V0.
Proof.
  unfold cpf_corrector. intros H.
  apply bind_ok_inv in H as (s0 & H0 & H).
  apply bind_ok_inv in H as (s & Hs & H). injection H as <- _ _ _ _.
  rewrite corrector_init_eq in H0.
  apply bind_ok_inv in H0 as (F & _ & H0). injection H0 as <-.
  eapply corrector_loop_length; [ | | | exact Hs ]; cbn;
    now rewrite ?length_map.
Qed.

End CorrectorLengths.

End Lengths.

Section TrajectoryLengths.

Context {K : kernels}.

Variables (Ybus : mat.matrix) (Sbus_base : list C) (Sxfr : list C)
          (pv pq : list nat) (step_min step_max error_tol tol : Q)
          (max_it : Z) (stop_at : stop_target).

Lemma stop_rule_V (st st' : driver_state) :
  stop_rule stop_at st = Ok st' -> d_V st' = d_V st.
Proof.
  unfold stop_rule. intros H.
  destruct stop_at as [s | target];
    repeat match type of H with
      | (if ?b then _ else _) = Ok _ => destruct b
      end;
    try discriminate; now injection H as <-.
Qed.

Lemma adapt_V (st st' : driver_state) (V0 : list C) (lam0 : Q) :
  adapt pv pq step_min step_max error_tol st V0 lam0 = Ok st' ->
  d_V st' = d_V st.
Proof.
  unfold adapt. intros H.
  destruct (truthy (d_adapt_step st) && truthy (d_continuation st)).
  - apply bind_ok_inv in H as (err & _ & H).
    apply bind_ok_inv in H as (step' & _ & H). now injection H as <-.
  - now injection H as <-.
Qed.

Lemma runcpf2_body_lengths (n : nat) (st st' : driver_state)
    (evs : list event) :
  length (d_V st) = n ->
  Forall (fun Vk => length Vk = n) (d_Voltage_series st) ->
  runcpf2_body Ybus Sbus_base Sxfr pv pq step_min step_max error_tol tol
               max_it stop_at st = (evs, Ok st') ->
  length (d_V st') = n /\
  Forall (fun Vk => length Vk = n) (d_Voltage_series st').
Proof.
  intros HV Hs H. unfold runcpf2_body in H.
  destruct (cpf_predictor _ _ _ _ _ _ _ _ _ _ _)
    as [[[V0 lam0] z] | e] eqn:Hp; [ | discriminate ].
  destruct (cpf_corrector _ _ _ _ _ _ _ _ _ _ _ _ _ _)
    as [[[[[V1 success] i] lam] normF] | e] eqn:Hc; [ | discriminate ].
  apply cpf_predictor_lengths in Hp as [Hp _].
  apply cpf_corrector_length in Hc.
  assert (H1 : length V1 = n) by congruence.
  destruct (negb (truthy success)).
  - injection H as _ <-. cbn. now split.
  - injection H as _ H. apply bind_ok_inv in H as (st2 & H2 & H).
    rewrite (adapt_V _ _ _ _ H), (stop_rule_V _ _ H2).
    destruct (adapt_frame _ _ _ _ _ _ _ _ _ H) as (-> & _).
    destruct (stop_rule_effect _ _ _ H2) as (-> & _). cbn.
    split; [ exact H1 | ]. apply Forall_app. split; [ exact Hs | ].
    now constructor.
Qed.

Lemma runcpf2_loop_lengths (n : nat) (fuel : nat) :
  forall (st : driver_state) (tr : list event) (Vs : list (list C))
         (Ls : list Q) (normF : Q) (success : pyflag),
    length (d_V st) = n ->
    Forall (fun Vk => length Vk = n) (d_Voltage_series st) ->
    runcpf2_loop Ybus Sbus_base Sxfr pv pq step_min step_max error_tol tol
                 max_it stop_at fuel st
      = (tr, Returned Vs Ls normF success) ->
    Forall (fun Vk => length Vk = n) Vs.
Proof.
  induction fuel as [| fuel IH]; intros st tr Vs Ls normF success HV Hs H;
    simpl in H.
  - destruct (truthy (d_continuation st)); [ discriminate | ].
    injection H as _ H. unfold driver_return in H.
    destruct (d_normF st); [ | discriminate ].
    destruct (d_success st); [ | discriminate ].
    now injection H as <- _ _ _.
  - destruct (truthy (d_continuation st)).
    + destruct (runcpf2_body _ _ _ _ _ _ _ _ _ _ _ st)
        as [evs [st' | e]] eqn:Hb; [ | discriminate ].
      destruct (runcpf2_loop _ _ _ _ _ _ _ _ _ _ _ fuel st')
        as [tr' out'] eqn:Hl.
      injection H as _ ->.
      destruct (runcpf2_body_lengths n st st' evs HV Hs Hb) as [HV' Hs'].
      exact (IH _ _ _ _ _ _ HV' Hs' Hl).
    + injection H as _ H. unfold driver_return in H.
      destruct (d_normF st); [ | discriminate ].
      destruct (d_success st); [ | discriminate ].
      now injection H as <- _ _ _.
Qed.

End TrajectoryLengths.

(** Every voltage vector of the trajectory that [runcpf2] returns has as
    many entries as the initial voltage vector. *)
Theorem runcpf2_trajectory_lengths {K : kernels}
    (fuel : nat) (Ybus : mat.matrix) (Sbus_base Sbus_target : list C)
    (V : list C) (pv pq : list nat) (step : Q) (approximation_order : Z)
    (adapt_step : pyflag) (step_min step_max error_tol tol : Q) (max_it : Z)
    (stop_at : stop_target)
    (tr : list event) (Vs : list (list C)) (Ls : list Q) (normF : Q)
    (success : pyflag) :
  runcpf2 fuel Ybus Sbus_base Sbus_target V pv pq step approximation_order
          adapt_step step_min step_max error_tol tol max_it stop_at
    = (tr, Returned Vs Ls normF success) ->
  Forall (fun Vk => length Vk = length V) Vs.
Proof.
  unfold runcpf2. intros H.
  eapply runcpf2_loop_lengths; [ | | exact H ]; cbn;
    [ reflexivity | constructor ].
Qed.

(** ** The driver: calls come in passes *)

Section Passes.

Context {K : kernels}.

Variables (Ybus : mat.matrix) (Sbus_base : list C) (Sxfr : list C)
          (pv pq : list nat) (step_min step_max error_tol tol : Q)
          (max_it : Z) (stop_at : stop_target).


End Passes.


(** ** The derivative matrices, entry by entry *)

Lemma Ceq_refl (a : C) : Ceq a a.
Proof. split; reflexivity. Qed.

Lemma Ceq_sym (a b : C) : Ceq a b -> Ceq b a.
Proof. intros [H1 H2]. split; now symmetry. Qed.

Lemma Ceq_trans (a b c : C) : Ceq a b -> Ceq b c -> Ceq a c.
Proof. intros [H1 H2] [H3 H4]. split; etransitivity; eauto. Qed.

Lemma Cadd_Ceq (a a' b b' : C) :
  Ceq a a' -> Ceq b b' -> Ceq (Cadd a b) (Cadd a' b').
Proof.
  intros [H1 H2] [H3 H4]. split; simpl; [ rewrite H1, H3 | rewrite H2, H4 ];
    reflexivity.
Qed.

Lemma Csub_Ceq (a a' b b' : C) :
  Ceq a a' -> Ceq b b' -> Ceq (Csub a b) (Csub a' b').
Proof.
  intros [H1 H2] [H3 H4]. split; simpl; [ rewrite H1, H3 | rewrite H2, H4 ];
    reflexivity.
Qed.

Lemma Cmul_Ceq (a a' b b' : C) :
  Ceq a a' -> Ceq b b' -> Ceq (Cmul a b) (Cmul a' b').
Proof.
  intros [H1 H2] [H3 H4]. split; simpl; rewrite H1, H2, H3, H4; reflexivity.
Qed.

Lemma Cconj_Ceq (a a' : C) : Ceq a a' -> Ceq (Cconj a) (Cconj a').
Proof.
  intros [H1 H2]. split; simpl; [ exact H1 | now rewrite H2 ].
Qed.

Lemma Csum_acc (l : list C) (a : C) :
  Ceq (fold_left Cadd l a) (Cadd a (mat.Csum l)).
Proof.
  unfold mat.Csum. revert a. induction l as [| x l IH]; intros a; simpl.
  - split; simpl; ring.
  - eapply Ceq_trans; [ apply IH | ].
    eapply Ceq_trans; [ | apply Cadd_Ceq; [ apply Ceq_refl
                                          | apply Ceq_sym, IH ] ].
    split; simpl; ring.
Qed.

Lemma cdot_cons (x y : C) (r c : list C) :
  Ceq (mat.cdot (x :: r) (y :: c)) (Cadd (Cmul x y) (mat.cdot r c)).
Proof.
  unfold mat.cdot. simpl. unfold mat.Csum at 1. simpl.
  eapply Ceq_trans; [ apply Csum_acc | ].
  apply Cadd_Ceq; [ | apply Ceq_refl ]. split; simpl; ring.
Qed.

Lemma cdot_zero_l (r c : list C) :
  Forall (fun x => x = C0) r -> Ceq (mat.cdot r c) C0.
Proof.
  intros H. revert c. induction H as [| x r Hx _ IH]; intros c.
  - apply Ceq_refl.
  - destruct c as [| y c]; [ apply Ceq_refl | ].
    eapply Ceq_trans; [ apply cdot_cons | ]. subst x.
    eapply Ceq_trans; [ apply Cadd_Ceq; [ apply Ceq_refl | apply IH ] | ].
    split; simpl; ring.
Qed.

Lemma cdot_zero_r (r c : list C) :
  Forall (fun x => x = C0) c -> Ceq (mat.cdot r c) C0.
Proof.
  intros H. revert r. induction H as [| y c Hy _ IH]; intros r.
  - destruct r; apply Ceq_refl.
  - destruct r as [| x r]; [ apply Ceq_refl | ].
    eapply Ceq_trans; [ apply cdot_cons | ]. subst y.
    eapply Ceq_trans; [ apply Cadd_Ceq; [ apply Ceq_refl | apply IH ] | ].
    split; simpl; ring.
Qed.

Lemma zeros_but_tail (x : C) (r : list C) (i : nat) :
  (forall k, k <> S i -> (k < length (x :: r))%nat ->
             nth k (x :: r) C0 = C0) ->
  x = C0 /\
  (forall k, k <> i -> (k < length r)%nat -> nth k r C0 = C0).
Proof.
  intros H. split.
  - apply (H O); simpl; lia.
  - intros k Hk Hl. apply (H (S k)); simpl; lia.
Qed.

Lemma zeros_all_tail (x : C) (r : list C) :
  (forall k, k <> O -> (k < length (x :: r))%nat ->
             nth k (x :: r) C0 = C0) ->
  Forall (fun y => y = C0) r.
Proof.
  intros H. apply Forall_forall. intros y Hy.
  apply (In_nth r y C0) in Hy as (k & Hk & <-).
  apply (H (S k)); simpl; lia.
Qed.

(** A product with a row that is zero off position [i]. *)
Lemma cdot_single_l (r c : list C) (i : nat) :
  (i < length r)%nat -> (i < length c)%nat ->
  (forall k, k <> i -> (k < length r)%nat -> nth k r C0 = C0) ->
  Ceq (mat.cdot r c) (Cmul (nth i r C0) (nth i c C0)).
Proof.
  revert c i. induction r as [| x r IH]; intros c i Hr Hc Hz;
    [ simpl in Hr; lia | ].
  destruct c as [| y c]; [ simpl in Hc; lia | ].
  eapply Ceq_trans; [ apply cdot_cons | ].
  destruct i as [| i].
  - apply zeros_all_tail in Hz.
    eapply Ceq_trans;
      [ apply Cadd_Ceq; [ apply Ceq_refl | apply cdot_zero_l, Hz ] | ].
    split; simpl; ring.
  - apply zeros_but_tail in Hz as [-> Hz]. simpl in Hr, Hc.
    eapply Ceq_trans;
      [ apply Cadd_Ceq; [ apply Ceq_refl | apply (IH c i); auto; lia ] | ].
    split; simpl; ring.
Qed.

(** A product with a column that is zero off position [i]. *)
Lemma cdot_single_r (r c : list C) (i : nat) :
  (i < length r)%nat -> (i < length c)%nat ->
  (forall k, k <> i -> (k < length c)%nat -> nth k c C0 = C0) ->
  Ceq (mat.cdot r c) (Cmul (nth i r C0) (nth i c C0)).
Proof.
  revert r i. induction c as [| y c IH]; intros r i Hr Hc Hz;
    [ simpl in Hc; lia | ].
  destruct r as [| x r]; [ simpl in Hr; lia | ].
  eapply Ceq_trans; [ apply cdot_cons | ].
  destruct i as [| i].
  - apply zeros_all_tail in Hz.
    eapply Ceq_trans;
      [ apply Cadd_Ceq; [ apply Ceq_refl | apply cdot_zero_r, Hz ] | ].
    split; simpl; ring.
  - apply zeros_but_tail in Hz as [-> Hz]. simpl in Hr, Hc.
    eapply Ceq_trans;
      [ apply Cadd_Ceq; [ apply Ceq_refl | apply (IH r i); auto; lia ] | ].
    split; simpl; ring.
Qed.

Lemma nth_map_seq {A : Type} (f : nat -> A) (n i : nat) (d : A) :
  (i < n)%nat -> nth i (map f (seq 0 n)) d = f i.
Proof.
  intros H.
  rewrite (nth_indep _ d (f O)) by (now rewrite length_map, length_seq).
  rewrite map_nth, seq_nth by exact H. reflexivity.
Qed.

Lemma nth_map_in {A B : Type} (f : A -> B) (l : list A) (i : nat)
    (d : A) (d' : B) :
  (i < length l)%nat -> nth i (map f l) d' = f (nth i l d).
Proof.
  intros H. rewrite (nth_indep _ d' (f d)) by (now rewrite length_map).
  apply map_nth.
Qed.

Lemma nth_zipWith {A B C : Type} (f : A -> B -> C) (a : list A) (b : list B)
    (i : nat) (da : A) (db : B) (d : C) :
  (i < length a)%nat -> (i < length b)%nat ->
  nth i (np.zipWith f a b) d = f (nth i a da) (nth i b db).
Proof.
  revert b i. induction a as [| x a IH]; intros [| y b] [| i] Ha Hb;
    simpl in *; try lia; auto. apply IH; lia.
Qed.

Lemma shape_row {A : Type} (m : list (list A)) (r c i : nat) :
  has_shape m r c -> (i < r)%nat -> length (nth i m []) = c.
Proof.
  intros [Hr Hc] Hi. rewrite Forall_forall in Hc. apply Hc.
  apply nth_In. lia.
Qed.

Lemma shape_ncols (m : mat.matrix) (r c : nat) :
  has_shape m r c -> (0 < r)%nat -> mat.ncols m = c.
Proof.
  intros [Hr Hc] H0. destruct m as [| row m]; [ simpl in Hr; lia | ].
  simpl. now inversion Hc.
Qed.

Lemma diag_shape (v : list C) :
  has_shape (mat.diag v) (length v) (length v).
Proof.
  unfold mat.diag, has_shape. split.
  - now rewrite length_map, length_seq.
  - apply Forall_map. apply Forall_forall. intros i _.
    now rewrite length_map, length_seq.
Qed.

Lemma diag_entry (v : list C) (i j : nat) :
  (i < length v)%nat -> (j < length v)%nat ->
  entry (mat.diag v) i j = if (i =? j)%nat then nth i v C0 else C0.
Proof.
  intros Hi Hj. unfold entry, mat.diag.
  rewrite (nth_map_seq _ _ _ _ Hi). now rewrite (nth_map_seq _ _ _ _ Hj).
Qed.

Lemma mul_shape (a b : mat.matrix) :
  has_shape (mat.mul a b) (length a) (mat.ncols b).
Proof.
  unfold mat.mul, has_shape. split; [ now rewrite length_map | ].
  apply Forall_map. apply Forall_forall. intros r _.
  now rewrite length_map, length_seq.
Qed.

Lemma zip_shape (f : C -> C -> C) (a b : mat.matrix) (r c : nat) :
  has_shape a r c -> has_shape b r c ->
  has_shape (np.zipWith (np.zipWith f) a b) r c.
Proof.
  unfold has_shape. revert b r.
  induction a as [| x a IH]; intros [| y b] r [Hr Hc] [Hr' Hc'];
    simpl in *; subst; try discriminate; [ split; constructor | ].
  inversion Hc; subst. inversion Hc'; subst.
  destruct (IH b (length a)) as [Hl Hf];
    [ now split | split; [ lia | assumption ] | ].
  split; [ now rewrite Hl | ].
  constructor; [ now apply zipWith_length | exact Hf ].
Qed.

Lemma mul_entry (a b : mat.matrix) (i j : nat) :
  (i < length a)%nat -> (j < mat.ncols b)%nat ->
  entry (mat.mul a b) i j = mat.cdot (nth i a []) (mat.col b j).
Proof.
  intros Hi Hj. unfold entry, mat.mul.
  rewrite (nth_map_in _ a i [] [] Hi). now rewrite (nth_map_seq _ _ _ _ Hj).
Qed.

Lemma col_nth (b : mat.matrix) (j k : nat) :
  (k < length b)%nat -> nth k (mat.col b j) C0 = entry b k j.
Proof.
  intros Hk. unfold mat.col, entry. now rewrite (nth_map_in _ b k [] C0 Hk).
Qed.

Lemma map_entry (f : C -> C) (m : mat.matrix) (r c i j : nat) :
  has_shape m r c -> (i < r)%nat -> (j < c)%nat ->
  entry (map (map f) m) i j = f (entry m i j).
Proof.
  intros Hm Hi Hj. unfold entry.
  rewrite (nth_map_in _ m i [] []) by (destruct Hm; lia).
  apply nth_map_in. now rewrite (shape_row m r c i Hm Hi).
Qed.

Lemma zip_entry (f : C -> C -> C) (a b : mat.matrix) (r c i j : nat) :
  has_shape a r c -> has_shape b r c -> (i < r)%nat -> (j < c)%nat ->
  entry (np.zipWith (np.zipWith f) a b) i j = f (entry a i j) (entry b i j).
Proof.
  intros Ha Hb Hi Hj. unfold entry.
  rewrite (nth_zipWith _ a b i [] [] [])
    by (destruct Ha, Hb; lia).
  apply nth_zipWith.
  - now rewrite (shape_row a r c i Ha Hi).
  - now rewrite (shape_row b r c i Hb Hi).
Qed.

(** The product with a matrix whose row [i] is zero off the diagonal. *)
Lemma mul_diag_l (d m : mat.matrix) (n c i j : nat) :
  has_shape d n n -> has_shape m n c -> (i < n)%nat -> (j < c)%nat ->
  (forall k, k <> i -> (k < n)%nat -> entry d i k = C0) ->
  Ceq (entry (mat.mul d m) i j) (Cmul (entry d i i) (entry m i j)).
Proof.
  intros Hd Hm Hi Hj Hz.
  rewrite mul_entry;
    [ | destruct Hd; lia | rewrite (shape_ncols m n c Hm); lia ].
  assert (Hrow : length (nth i d []) = n) by (eapply shape_row; eauto).
  assert (Hcol : length (mat.col m j) = n)
    by (unfold mat.col; rewrite length_map; now destruct Hm).
  eapply Ceq_trans.
  - apply (cdot_single_l _ _ i); [ lia | lia | ].
    intros k Hk Hl. apply Hz; [ exact Hk | lia ].
  - rewrite col_nth by (destruct Hm; lia). apply Ceq_refl.
Qed.

(** The product with a matrix whose column [j] is zero off the diagonal. *)
Lemma mul_diag_r (m d : mat.matrix) (r n i j : nat) :
  has_shape m r n -> has_shape d n n -> (i < r)%nat -> (j < n)%nat ->
  (forall k, k <> j -> (k < n)%nat -> entry d k j = C0) ->
  Ceq (entry (mat.mul m d) i j) (Cmul (entry m i j) (entry d j j)).
Proof.
  intros Hm Hd Hi Hj Hz.
  rewrite mul_entry;
    [ | destruct Hm; lia | rewrite (shape_ncols d n n Hd); lia ].
  assert (Hrow : length (nth i m []) = n) by (eapply shape_row; eauto).
  assert (Hcol : length (mat.col d j) = n)
    by (unfold mat.col; rewrite length_map; now destruct Hd).
  eapply Ceq_trans.
  - apply (cdot_single_r _ _ j); [ lia | lia | ].
    intros k Hk Hl. rewrite col_nth by (destruct Hd; lia).
    apply Hz; [ exact Hk | lia ].
  - rewrite col_nth by (destruct Hd; lia). apply Ceq_refl.
Qed.

Section Derivatives.

Context {K : kernels}.

Lemma unit_voltages_ok (V Vnorm : list C) :
  mapM (fun v => Cdivr v (cabs v)) V = Ok Vnorm ->
  Vnorm = map unit_voltage V.
Proof.
  revert Vnorm. induction V as [| v V IH]; simpl; intros Vnorm H.
  - now injection H as <-.
  - apply bind_ok_inv in H as (y & Hy & H).
    apply bind_ok_inv in H as (ys & Hys & H). injection H as <-.
    rewrite (IH ys Hys). f_equal.
    unfold Cdivr, fdiv, fdiv_ext in Hy.
    destruct (Qeq_bool (cabs v) 0).
    + destruct (Qlt_bool 0 (re v)); [ discriminate | ].
      destruct (Qlt_bool (re v) 0); discriminate.
    + cbn in Hy. now injection Hy as <-.
Qed.

Lemma diag_off_diagonal (f : C -> C) (v : list C) (i k : nat) :
  f C0 = C0 -> (i < length v)%nat -> (k < length v)%nat -> i <> k ->
  entry (map (map f) (mat.diag v)) i k = C0.
Proof.
  intros Hf Hi Hk Hne.
  rewrite (map_entry f _ _ _ i k (diag_shape v) Hi Hk).
  rewrite (diag_entry v i k Hi Hk).
  apply Nat.eqb_neq in Hne. now rewrite Hne.
Qed.

Lemma diag_on_diagonal (v : list C) (i : nat) :
  (i < length v)%nat -> entry (mat.diag v) i i = nth i v C0.
Proof.
  intros Hi. rewrite (diag_entry v i i Hi Hi). now rewrite Nat.eqb_refl.
Qed.

Lemma map_id_matrix (m : mat.matrix) : map (map (fun x : C => x)) m = m.
Proof.
  induction m as [| r m IH]; simpl; [ reflexivity | ].
  now rewrite map_id, IH.
Qed.

Lemma mul_has_shape (a b : mat.matrix) (r n c : nat) :
  has_shape a r n -> has_shape b n c -> (0 < n)%nat ->
  has_shape (mat.mul a b) r c.
Proof.
  intros [Ha _] Hb Hn. pose proof (mul_shape a b) as Hs.
  now rewrite Ha, (shape_ncols b n c Hb Hn) in Hs.
Qed.

(** [Ybus * diag(v)]: column [j] is scaled by [v[j]]. *)
Lemma mul_by_diag (Ybus : mat.matrix) (v : list C) (n i j : nat) :
  has_shape Ybus n n -> length v = n -> (i < n)%nat -> (j < n)%nat ->
  Ceq (entry (mat.mul Ybus (mat.diag v)) i j)
      (Cmul (entry Ybus i j) (nth j v C0)).
Proof.
  intros HY Hv Hi Hj.
  pose proof (diag_shape v) as Hd. rewrite Hv in Hd.
  eapply Ceq_trans.
  - apply (mul_diag_r Ybus (mat.diag v) n n i j HY Hd Hi Hj).
    intros k Hk Hl.
    rewrite <- (map_id_matrix (mat.diag v)).
    apply diag_off_diagonal; [ reflexivity | lia | lia | exact Hk ].
  - rewrite diag_on_diagonal by lia. apply Ceq_refl.
Qed.

(** The two derivative matrices entry by entry, as in the formulas of the
    source: [dS/dVa = j diag(V) conj(diag(Ibus) - Ybus diag(V))] and
    [dS/dVm = diag(V) conj(Ybus diag(V/|V|)) + conj(diag(Ibus)) diag(V/|V|)],
    for a square admittance matrix of the order of [V]. *)
Theorem dSbus_dV_entries (Ybus : mat.matrix) (V : list C) (n : nat)
    (dS_dVm dS_dVa : mat.matrix) (i j : nat) :
  has_shape Ybus n n -> length V = n ->
  dSbus_dV Ybus V = Ok (dS_dVm, dS_dVa) ->
  (i < n)%nat -> (j < n)%nat ->
  let Ibus := mat.mulv Ybus V in
  let dIbus := if (i =? j)%nat then nth i Ibus C0 else C0 in
  Ceq (entry dS_dVa i j)
      (Cmul (Cmul Cj (nth i V C0))
            (Cconj (Csub dIbus (Cmul (entry Ybus i j) (nth j V C0))))) /\
  Ceq (entry dS_dVm i j)
      (Cadd (Cmul (nth i V C0)
                  (Cconj (Cmul (entry Ybus i j)
                               (unit_voltage (nth j V C0)))))
            (Cmul (Cconj dIbus) (unit_voltage (nth j V C0)))).
Proof.
  intros HY HV H Hi Hj Ibus dIbus.
  unfold dSbus_dV in H. cbv zeta in H.
  destruct (mat.is_shape Ybus (length V) (length V)); [ | discriminate ].
  apply bind_ok_inv in H as (Vnorm & Hn & H).
  injection H as <- <-.
  apply unit_voltages_ok in Hn. subst Vnorm.
  assert (HI : length Ibus = n)
    by (unfold Ibus, mat.mulv; rewrite length_map; now destruct HY).
  assert (HVn : length (map unit_voltage V) = n) by (now rewrite length_map).
  pose proof (diag_shape V) as HdV. rewrite HV in HdV.
  pose proof (diag_shape Ibus) as HdI. rewrite HI in HdI.
  pose proof (diag_shape (map unit_voltage V)) as HdN. rewrite HVn in HdN.
  assert (Hpos : (0 < n)%nat) by lia.
  assert (Hy1 : has_shape (mat.mul Ybus (mat.diag V)) n n)
    by (now apply (mul_has_shape _ _ n n n)).
  assert (Hy2 : has_shape (mat.mul Ybus (mat.diag (map unit_voltage V))) n n)
    by (now apply (mul_has_shape _ _ n n n)).
  assert (HdIij : entry (mat.diag Ibus) i j = dIbus)
    by (apply diag_entry; lia).
  split.
  - (* dS_dVa *)
    assert (HS : has_shape (mat.sub (mat.diag Ibus)
                                    (mat.mul Ybus (mat.diag V))) n n)
      by (apply zip_shape; assumption).
    assert (HX : has_shape (mat.conj (mat.sub (mat.diag Ibus)
                                        (mat.mul Ybus (mat.diag V)))) n n)
      by (apply map_map_shape; exact HS).
    assert (HD : has_shape (mat.cmul Cj (mat.diag V)) n n)
      by (apply map_map_shape; exact HdV).
    eapply Ceq_trans.
    + apply (mul_diag_l _ _ n n i j HD HX Hi Hj).
      intros k Hk Hl. unfold mat.cmul.
      apply diag_off_diagonal; [ reflexivity | lia | lia | congruence ].
    + apply Cmul_Ceq.
      * unfold mat.cmul.
        rewrite (map_entry _ _ _ _ i i HdV Hi Hi).
        rewrite diag_on_diagonal by lia. apply Ceq_refl.
      * unfold mat.conj.
        rewrite (map_entry _ _ _ _ i j HS Hi Hj).
        apply Cconj_Ceq. unfold mat.sub.
        rewrite (zip_entry _ _ _ _ _ i j HdI Hy1 Hi Hj), HdIij.
        apply Csub_Ceq; [ apply Ceq_refl | ].
        now apply (mul_by_diag Ybus V n).
  - (* dS_dVm *)
    assert (HA : has_shape
                   (mat.mul (mat.diag V)
                      (mat.conj (mat.mul Ybus
                                   (mat.diag (map unit_voltage V))))) n n).
    { apply (mul_has_shape _ _ n n n); [ exact HdV | | exact Hpos ].
      apply map_map_shape; exact Hy2. }
    assert (HcI : has_shape (mat.conj (mat.diag Ibus)) n n)
      by (apply map_map_shape; exact HdI).
    assert (HB : has_shape
                   (mat.mul (mat.conj (mat.diag Ibus))
                            (mat.diag (map unit_voltage V))) n n)
      by (now apply (mul_has_shape _ _ n n n)).
    unfold mat.add. rewrite (zip_entry _ _ _ _ _ i j HA HB Hi Hj).
    assert (Hu : nth j (map unit_voltage V) C0 = unit_voltage (nth j V C0))
      by (apply nth_map_in; lia).
    apply Cadd_Ceq.
    + eapply Ceq_trans.
      * apply (mul_diag_l _ _ n n i j HdV
                 (map_map_shape Cconj _ n n Hy2) Hi Hj).
        intros k Hk Hl. rewrite <- (map_id_matrix (mat.diag V)).
        apply diag_off_diagonal; [ reflexivity | lia | lia | congruence ].
      * rewrite diag_on_diagonal by lia.
        apply Cmul_Ceq; [ apply Ceq_refl | ].
        unfold mat.conj. rewrite (map_entry _ _ _ _ i j Hy2 Hi Hj).
        apply Cconj_Ceq. rewrite <- Hu.
        now apply (mul_by_diag Ybus (map unit_voltage V) n).
    + eapply Ceq_trans.
      * apply (mul_diag_r _ _ n n i j HcI HdN Hi Hj).
        intros k Hk Hl.
        rewrite <- (map_id_matrix (mat.diag (map unit_voltage V))).
        apply diag_off_diagonal; [ reflexivity | lia | lia | exact Hk ].
      * rewrite diag_on_diagonal by lia. rewrite Hu.
        apply Cmul_Ceq; [ | apply Ceq_refl ].
        unfold mat.conj. rewrite (map_entry _ _ _ _ i j HdI Hi Hj), HdIij.
        apply Ceq_refl.
Qed.


End Derivatives.

(** ** The arc-length, trajectory and derivative properties at concrete
    inputs *)

(** Arc length on the two-bus network, one fifth away from the previous
    solution in [lam] only. *)
Lemma cpf_arc_length_lower_bound_witness :
  exists P,
    @cpf_p axis_kernels 2 (1 # 5) [0; 0; 0; 0; 1] two_bus.V (1 # 5)
      two_bus.V 0 two_bus.pv two_bus.pq (two_bus.pv ++ two_bus.pq) = Ok P /\
    - (1 # 5) ^ 2 <= P.
Proof.
  destruct (@cpf_p axis_kernels 2 (1 # 5) [0; 0; 0; 0; 1] two_bus.V (1 # 5)
              two_bus.V 0 two_bus.pv two_bus.pq (two_bus.pv ++ two_bus.pq))
    as [P | e] eqn:H; [ | vm_compute in H; discriminate ].
  exists P. split; [ reflexivity | ].
  exact (@cpf_arc_length_lower_bound axis_kernels _ _ _ _ _ _ _ _ _ _ H).
Defined.

Lemma cpf_arc_length_first_step_witness :
  (exists P,
     @cpf_p axis_kernels 2 (1 # 5) [0; 0; 0; 0; 1] two_bus.V 0 two_bus.V 0
       two_bus.pv two_bus.pq [1%nat] = Ok P /\
     P == - (1 # 5) ^ 2) /\
  exists dP_dV,
    @cpf_p_jac axis_kernels 2 [0; 0; 0; 0; 1] two_bus.V 0 two_bus.V 0
      two_bus.pv two_bus.pq [1%nat] = Ok (dP_dV, 1) /\
    length dP_dV = (length [1%nat] + length two_bus.pq)%nat /\
    Forall (fun x => x == 0) dP_dV.
Proof.
  apply (@cpf_arc_length_first_step axis_kernels (1 # 5) [0; 0; 0; 0; 1]
           two_bus.V 0 two_bus.pv two_bus.pq [1%nat]).
  - constructor; [ simpl; lia | constructor ].
  - constructor; [ simpl; lia | constructor ].
Defined.

Lemma runcpf2_trajectory_lengths_witness :
  exists tr Vs Ls normF success,
    @runcpf2 axis_kernels 5 two_bus.Ybus two_bus.Sbus two_bus.Sbus
      two_bus.V two_bus.pv two_bus.pq (1 # 5) 1 (PyBool true)
      (1 # 10) (1 # 5) (1 # 1000) (1 # 1000000) 20 (StopNum (1 # 4))
    = (tr, Returned Vs Ls normF success) /\
    Forall (fun Vk => length Vk = length two_bus.V) Vs.
Proof.
  destruct (@runcpf2 axis_kernels 5 two_bus.Ybus two_bus.Sbus two_bus.Sbus
              two_bus.V two_bus.pv two_bus.pq (1 # 5) 1 (PyBool true)
              (1 # 10) (1 # 5) (1 # 1000) (1 # 1000000) 20
              (StopNum (1 # 4)))
    as [tr [Vs Ls normF success | e | ]] eqn:H;
    [ | vm_compute in H; discriminate | vm_compute in H; discriminate ].
  exists tr, Vs, Ls, normF, success. split; [ reflexivity | ].
  exact (@runcpf2_trajectory_lengths axis_kernels _ _ _ _ _ _ _ _ _ _ _ _ _
           _ _ _ _ _ _ _ _ H).
Defined.

(** The off-diagonal entry (0, 1) of both derivative matrices of the
    two-bus network at the flat start. *)
Lemma dSbus_dV_entries_witness :
  exists dS_dVm dS_dVa,
    @dSbus_dV axis_kernels two_bus.Ybus two_bus.V = Ok (dS_dVm, dS_dVa) /\
    Ceq (entry dS_dVa 0 1)
        (Cmul (Cmul Cj (nth 0 two_bus.V C0))
              (Cconj (Csub C0 (Cmul (entry two_bus.Ybus 0 1)
                                    (nth 1 two_bus.V C0))))) /\
    Ceq (entry dS_dVm 0 1)
        (Cadd (Cmul (nth 0 two_bus.V C0)
                    (Cconj (Cmul (entry two_bus.Ybus 0 1)
                                 (@unit_voltage axis_kernels
                                    (nth 1 two_bus.V C0)))))
              (Cmul (Cconj C0)
                    (@unit_voltage axis_kernels (nth 1 two_bus.V C0)))).
Proof.
  destruct (@dSbus_dV axis_kernels two_bus.Ybus two_bus.V)
    as [[dS_dVm dS_dVa] | e] eqn:H; [ | vm_compute in H; discriminate ].
  exists dS_dVm, dS_dVa. split; [ reflexivity | ].
  apply (@dSbus_dV_entries axis_kernels two_bus.Ybus two_bus.V 2 dS_dVm
           dS_dVa 0 1).
  - split; [ reflexivity | ].
    constructor; [ reflexivity | ]. constructor; [ reflexivity | constructor ].
  - reflexivity.
  - exact H.
  - lia.
  - lia.
Defined.

(** * The adaptive step along a run *)

Section AdaptivePass.

Context {K : kernels}.

Variables (Ybus : mat.matrix) (Sbus_base : list C) (Sxfr : list C)
          (pv pq : list nat) (step_min step_max error_tol tol : Q)
          (max_it : Z) (stop_at : stop_target).

Local Notation "'body'" :=
  (runcpf2_body Ybus Sbus_base Sxfr pv pq step_min step_max error_tol tol
                max_it stop_at).
Local Notation "'loop'" :=
  (runcpf2_loop Ybus Sbus_base Sxfr pv pq step_min step_max error_tol tol
                max_it stop_at).

(** A pass after which the loop goes on: the predictor was called at the
    current point, the corrector at the predicted point, it converged, and
    its result is the new current point.  If the adaptation is still on,
    the scheme is unchanged and the new step is the adapted one, for the
    error between the corrector's result and the predictor's. *)
Lemma runcpf2_body_adapts (st st' : driver_state) (evs : list event) :
  body st = (evs, Ok st') ->
  truthy (d_continuation st') = true ->
  exists V0 lam0 z V1 c i lam nF,
    cpf_predictor (d_V st) (d_lam st) Ybus Sxfr pv pq (d_step st) (d_z st)
                  (d_V_prev st) (d_lam_prev st) (d_approximation_order st)
      = Ok (V0, lam0, z) /\
    cpf_corrector Ybus Sbus_base pv pq Sxfr (d_V st) (d_lam st) z (d_step st)
                  (d_approximation_order st) tol max_it V0 lam0
      = Ok (V1, c, i, lam, nF) /\
    evs = [CallPredictor (d_step st) (d_approximation_order st)
                         (d_adapt_step st);
           CallCorrector (d_step st) (d_approximation_order st)
                         (d_adapt_step st);
           CorrectorReturned V1 c i lam nF] /\
    truthy c = true /\ d_V st' = V1 /\ d_lam st' = lam /\
    (truthy (d_adapt_step st') = true ->
     d_approximation_order st' = d_approximation_order st /\
     d_adapt_step st' = d_adapt_step st /\
     adapted_step step_min step_max error_tol (d_step st)
                  (prediction_error pv pq V1 lam V0 lam0)
       = Finite (d_step st')).
Proof.
  unfold runcpf2_body. intros H Hcont.
  destruct (cpf_predictor _ _ _ _ _ _ _ _ _ _ _)
    as [[[V0 lam0] z] | e] eqn:Hp; [ | discriminate ].
  destruct (cpf_corrector _ _ _ _ _ _ _ _ _ _ _ _ _ _)
    as [[[[[V1 c] i] lam] nF] | e] eqn:Hc; [ | discriminate ].
  exists V0, lam0, z, V1, c, i, lam, nF.
  split; [ reflexivity | ]. split; [ exact Hc | ].
  destruct (truthy c) eqn:Ec; cbn [negb] in H.
  - injection H as <- H. split; [ reflexivity | ]. split; [ reflexivity | ].
    apply bind_ok_inv in H as (st2 & H2 & H3).
    pose proof H2 as HV2. apply stop_rule_V in HV2.
    pose proof H2 as Hd2. apply stop_rule_decision in Hd2 as (Hl2 & _ & Hsw).
    pose proof H2 as He2.
    apply stop_rule_effect in He2 as (_ & _ & _ & _ & Hstep).
    pose proof H3 as HV3. apply adapt_V in HV3.
    pose proof H3 as Hk3. apply adapt_keeps in Hk3 as (Hl3 & Hc3 & Ho3 & Ha3).
    cbn in HV2, Hl2, Hsw, Hstep.
    split; [ congruence | ]. split; [ congruence | ].
    intros Ha. rewrite Ha3 in Ha.
    destruct Hsw as [[Ho2 Ha2] | [_ Ha2]];
      [ | rewrite Ha2 in Ha; discriminate ].
    destruct Hstep as [Ha2' | [_ Hs2]];
      [ rewrite Ha2' in Ha; discriminate | ].
    split; [ congruence | ]. split; [ congruence | ].
    unfold adapt in H3. rewrite Ha in H3. rewrite Hc3 in Hcont.
    rewrite Hcont in H3. cbn [andb] in H3.
    apply bind_ok_inv in H3 as (err & Herr & H3).
    apply bind_ok_inv in H3 as (step' & Hstep' & H3).
    injection H3 as <-. cbn [d_step].
    apply cpf_error_ok in Herr. apply to_float_ok in Hstep'.
    rewrite HV2, Hl2 in Herr. rewrite Hs2, Herr in Hstep'. exact Hstep'.
  - injection H as _ <-. cbn in Hcont. discriminate.
Qed.

(** A loop that makes a call has not stopped, and its first call is the
    predictor's, with the step, the scheme and the flag of its state. *)
Lemma runcpf2_loop_head (fuel : nat) (st : driver_state) (e : event)
    (tr : list event) (out : outcome) :
  loop fuel st = (e :: tr, out) ->
  truthy (d_continuation st) = true /\
  e = CallPredictor (d_step st) (d_approximation_order st) (d_adapt_step st).
Proof.
  destruct fuel as [| fuel]; simpl; intros H.
  - destruct (truthy (d_continuation st)); discriminate.
  - destruct (truthy (d_continuation st)); [ | discriminate ].
    split; [ reflexivity | ].
    destruct (body st) as [evs r] eqn:Hb.
    assert (Hevs : exists rest,
               evs = CallPredictor (d_step st) (d_approximation_order st)
                                   (d_adapt_step st) :: rest).
    { unfold runcpf2_body in Hb.
      destruct (cpf_predictor _ _ _ _ _ _ _ _ _ _ _) as [[[V0 lam0] z] | e0].
      - destruct (cpf_corrector _ _ _ _ _ _ _ _ _ _ _ _ _ _)
          as [[[[[V1 c] i] lam] nF] | e0].
        + destruct (negb (truthy c)); injection Hb as <- _; eauto.
        + injection Hb as <- _; eauto.
      - injection Hb as <- _; eauto. }
    destruct Hevs as (rest & ->).
    destruct r as [st' | e0].
    + destruct (loop fuel st') as [evs' out']. now injection H as <- _ _.
    + now injection H as <- _ _.
Qed.

Lemma runcpf2_loop_adapts (fuel : nat) :
  forall (st : driver_state) (tr1 tr2 : list event) (out : outcome)
         (s : Q) (o : Z) (a : pyflag) (V1 : list C) (c : pyflag) (i : Z)
         (lam nF : Q) (s' : Q) (o' : Z) (a' : pyflag),
  loop fuel st
    = (tr1 ++ CallPredictor s o a :: CallCorrector s o a
           :: CorrectorReturned V1 c i lam nF
           :: CallPredictor s' o' a' :: tr2, out) ->
  truthy a' = true ->
  let pt := last (accepted tr1) (d_V st, d_lam st) in
  exists z0 Vp lamp V0 lam0 z,
    cpf_predictor (fst pt) (snd pt) Ybus Sxfr pv pq s z0 Vp lamp o
      = Ok (V0, lam0, z) /\
    cpf_corrector Ybus Sbus_base pv pq Sxfr (fst pt) (snd pt) z s o tol
                  max_it V0 lam0
      = Ok (V1, c, i, lam, nF) /\
    truthy c = true /\ o' = o /\ a' = a /\
    adapted_step step_min step_max error_tol s
                 (prediction_error pv pq V1 lam V0 lam0) = Finite s'.
Proof.
  induction fuel as [| fuel IH]; intros st tr1 tr2 out s o a V1 c i lam nF
                                         s' o' a' H Ha'.
  - simpl in H. destruct (truthy (d_continuation st));
      injection H as H _; symmetry in H; now apply app_cons_nil in H.
  - simpl in H. destruct (truthy (d_continuation st));
      [ | injection H as H _; symmetry in H; now apply app_cons_nil in H ].
    destruct (body st) as [evs r] eqn:Hb.
    destruct r as [st' | e].
    + destruct (loop fuel st') as [evs' out'] eqn:Hl.
      injection H as H _.
      destruct (runcpf2_body_ok _ _ _ _ _ _ _ _ _ _ _ _ _ _ Hb)
        as (Vb & cb & ib & lb & nb & Hevs & _).
      subst evs. cbn [app] in H. symmetry in H.
      apply split_cons in H as [(-> & He1 & H) | (t1 & -> & H)].
      * (* the pass is this one *)
        inversion He1; subst; clear He1. inversion H; subst; clear H.
        destruct (runcpf2_loop_head _ _ _ _ _ Hl) as [Hcont He4].
        inversion He4; subst; clear He4.
        destruct (runcpf2_body_adapts _ _ _ Hb Hcont)
          as (V0 & lam0 & z & V1' & c' & i' & lam' & nF' & Hp & Hc & Hevs'
              & Hconv & _ & _ & Had).
        inversion Hevs'; subst; clear Hevs'.
        destruct (Had Ha') as (Ho & Haa & Hs).
        exists (d_z st), (d_V_prev st), (d_lam_prev st), V0, lam0, z.
        cbn. split; [ exact Hp | ]. split; [ exact Hc | ].
        split; [ exact Hconv | ]. split; [ exact Ho | ].
        split; [ exact Haa | exact Hs ].
      * apply split_cons in H as [(_ & He & _) | (t2 & -> & H)];
          [ discriminate | ].
        apply split_cons in H as [(_ & He & _) | (t3 & -> & H)];
          [ discriminate | ].
        assert (Hcont : truthy (d_continuation st') = true).
        { destruct evs' as [| e' evs'];
            [ now apply app_cons_nil in H | ].
          now destruct (runcpf2_loop_head _ _ _ _ _ Hl). }
        destruct (runcpf2_body_adapts _ _ _ Hb Hcont)
          as (V0 & lam0 & z & V1' & c' & i' & lam' & nF' & _ & _ & Hevs'
              & Hconv & HV' & Hl' & _).
        inversion Hevs'; subst; clear Hevs'.
        specialize (IH st' t3 tr2 out' s o a V1 c i lam nF s' o' a' Hl Ha').
        cbn [accepted]. rewrite Hconv, last_cons_default.
        exact IH.
    + injection H as H _. exfalso.
      assert (Hlen : (length evs <= 3)%nat).
      { unfold runcpf2_body in Hb.
        destruct (cpf_predictor _ _ _ _ _ _ _ _ _ _ _)
          as [[[V0 lam0] z] | e0].
        - destruct (cpf_corrector _ _ _ _ _ _ _ _ _ _ _ _ _ _)
            as [[[[[Vb cb] ib] lb] nb] | e0].
          + destruct (negb (truthy cb)); injection Hb as <- _; simpl; lia.
          + injection Hb as <- _; simpl; lia.
        - injection Hb as <- _; simpl; lia. }
      rewrite H, length_app in Hlen. simpl in Hlen. lia.
Qed.

End AdaptivePass.

(** C4 (as the code has it): take two consecutive passes of a run of
    [runcpf2], the second still made with [adapt_step] true.  The first
    pass called the predictor at the point the run had reached and the
    corrector at the predicted point [(V0, lam0)], the corrector converged
    to [(V1, lam)], and the scheme and the flag did not change.  The
    prediction error is the infinity norm of the difference between
    [(V1, lam)] and [(V0, lam0)] over (angle at the PQ buses, magnitude at
    the non-reference buses, lam); when it is not zero, the step of the
    second pass is the step of the first times [error_tol / error], capped
    at [step_max] when the error is below [error_tol] and floored at
    [step_min] otherwise; when it is zero, with a positive step and
    tolerance, the step of the second pass is [step_max]. *)
Theorem runcpf2_adapts_step {K : kernels}
    (fuel : nat) (Ybus : mat.matrix) (Sbus_base Sbus_target : list C)
    (V : list C) (pv pq : list nat) (step : Q) (approximation_order : Z)
    (adapt_step : pyflag) (step_min step_max error_tol tol : Q) (max_it : Z)
    (stop_at : stop_target)
    (tr1 tr2 : list event) (out : outcome)
    (s : Q) (o : Z) (a : pyflag) (V1 : list C) (c : pyflag) (i : Z)
    (lam nF : Q) (s' : Q) (o' : Z) (a' : pyflag) :
  runcpf2 fuel Ybus Sbus_base Sbus_target V pv pq step approximation_order
          adapt_step step_min step_max error_tol tol max_it stop_at
    = (tr1 ++ CallPredictor s o a :: CallCorrector s o a
           :: CorrectorReturned V1 c i lam nF
           :: CallPredictor s' o' a' :: tr2, out) ->
  truthy a' = true ->
  let Sxfr := np.zipWith Csub Sbus_target Sbus_base in
  let Vc := fst (current_point V tr1) in
  let lamc := snd (current_point V tr1) in
  exists z0 Vp lamp V0 lam0 z,
    cpf_predictor Vc lamc Ybus Sxfr pv pq s z0 Vp lamp o = Ok (V0, lam0, z) /\
    cpf_corrector Ybus Sbus_base pv pq Sxfr Vc lamc z s o tol max_it V0 lam0
      = Ok (V1, c, i, lam, nF) /\
    truthy c = true /\ o' = o /\ a' = a /\
    let err := prediction_error pv pq V1 lam V0 lam0 in
    (~ err == 0 ->
     s' == rescaled_step step_min step_max error_tol s err) /\
    (err == 0 -> 0 < error_tol -> 0 < s -> s' == step_max).
Proof.
  unfold runcpf2. intros H Ha'. cbv zeta.
  eapply runcpf2_loop_adapts in H; [ | exact Ha' ]. cbv zeta in H.
  cbn [driver_init d_V d_lam] in H. fold (current_point V tr1) in H.
  destruct H
    as (z0 & Vp & lamp & V0 & lam0 & z & Hp & Hc & Hconv & Ho & Haa & Hs).
  exists z0, Vp, lamp, V0, lam0, z.
  split; [ exact Hp | ]. split; [ exact Hc | ].
  split; [ exact Hconv | ]. split; [ exact Ho | ]. split; [ exact Haa | ].
  split.
  - intros Hne.
    destruct (adapted_step_eq step_min step_max error_tol s _ Hne)
      as (step' & Hs' & Hq).
    rewrite Hs in Hs'. injection Hs' as <-. exact Hq.
  - intros Hz Htol Hpos.
    rewrite (adapted_step_zero_error step_min step_max error_tol s _
               Hz Htol Hpos) in Hs.
    injection Hs as <-. reflexivity.
Qed.

(** Two passes on the two-bus network towards the nose, with the
    adaptation on: the first step is 0.1, the predicted point is already a
    solution, and the second pass is made with [step_max = 0.2]. *)
Lemma runcpf2_adapts_step_witness :
  exists V1 i lam nF s' tr2 out,
    @runcpf2 axis_kernels 2 two_bus.Ybus two_bus.Sbus two_bus.Sbus
      two_bus.V two_bus.pv two_bus.pq (1 # 10) 1 (PyBool true)
      (1 # 20) (1 # 5) (1 # 1000) (1 # 1000000) 20 (StopStr "NOSE")
    = (CallPredictor (1 # 10) 1 (PyBool true)
         :: CallCorrector (1 # 10) 1 (PyBool true)
         :: CorrectorReturned V1 (PyBool true) i lam nF
         :: CallPredictor s' 1 (PyBool true) :: tr2, out) /\
    exists z0 Vp lamp V0 lam0 z,
      @cpf_predictor axis_kernels two_bus.V 0 two_bus.Ybus
        (np.zipWith Csub two_bus.Sbus two_bus.Sbus) two_bus.pv two_bus.pq
        (1 # 10) z0 Vp lamp 1 = Ok (V0, lam0, z) /\
      @cpf_corrector axis_kernels two_bus.Ybus two_bus.Sbus two_bus.pv
        two_bus.pq (np.zipWith Csub two_bus.Sbus two_bus.Sbus) two_bus.V 0 z
        (1 # 10) 1 (1 # 1000000) 20 V0 lam0
        = Ok (V1, PyBool true, i, lam, nF) /\
      let err := @prediction_error axis_kernels two_bus.pv two_bus.pq
                   V1 lam V0 lam0 in
      (~ err == 0 ->
       s' == rescaled_step (1 # 20) (1 # 5) (1 # 1000) (1 # 10) err) /\
      (err == 0 -> s' == 1 # 5).
Proof.
  destruct (@runcpf2 axis_kernels 2 two_bus.Ybus two_bus.Sbus two_bus.Sbus
      two_bus.V two_bus.pv two_bus.pq (1 # 10) 1 (PyBool true)
      (1 # 20) (1 # 5) (1 # 1000) (1 # 1000000) 20 (StopStr "NOSE"))
    as [tr out] eqn:H.
  pose proof H as H'. vm_compute in H'. injection H' as <- <-.
  eexists _, _, _, _, _, _, _. split; [ reflexivity | ].
  destruct (@runcpf2_adapts_step axis_kernels 2 two_bus.Ybus two_bus.Sbus
              two_bus.Sbus two_bus.V two_bus.pv two_bus.pq (1 # 10) 1
              (PyBool true) (1 # 20) (1 # 5) (1 # 1000) (1 # 1000000) 20
              (StopStr "NOSE") [] _ _ _ _ _ _ _ _ _ _ _ _ _ H eq_refl)
    as (z0 & Vp & lamp & V0 & lam0 & z & Hp & Hc & _ & _ & _ & Hne & Hz).
  exists z0, Vp, lamp, V0, lam0, z.
  split; [ exact Hp | ]. split; [ exact Hc | ].
  split; [ exact Hne | ].
  intros He. apply (Hz He); reflexivity.
Defined.

(** The network [pv_bus], natural scheme, first step 0.15 with bounds
    [[0.1, 0.2]] and [error_tol = 0.001].  The predictor leaves the
    voltages as they are and predicts [lam = 0.15]; the corrector's first
    Newton step turns the PV bus by [pi] and converges there, with the
    same magnitudes and the same [lam].  The driver's error is therefore 0
    and the second pass is made with [step_max = 0.2]; over the angles at
    all non-reference buses the error is [pi], above the tolerance, for
    which the rescaled step is [step_min = 0.1]. *)
Lemma runcpf2_step_ignores_pv_angle :
  exists V0 lam0 z V1 i lam nF s' tr2 out,
    @cpf_predictor half_turn_kernels pv_bus.V 0 pv_bus.Ybus
      (np.zipWith Csub pv_bus.Sbus pv_bus.Sbus) pv_bus.pv pv_bus.pq
      (3 # 20) [0; 0; 0; 0; 0; 0; 1] pv_bus.V 0 1 = Ok (V0, lam0, z) /\
    @cpf_corrector half_turn_kernels pv_bus.Ybus pv_bus.Sbus pv_bus.pv
      pv_bus.pq (np.zipWith Csub pv_bus.Sbus pv_bus.Sbus) pv_bus.V 0 z
      (3 # 20) 1 (1 # 1000000) 20 V0 lam0
      = Ok (V1, PyInt 1, i, lam, nF) /\
    @runcpf2 half_turn_kernels 2 pv_bus.Ybus pv_bus.Sbus pv_bus.Sbus
      pv_bus.V pv_bus.pv pv_bus.pq (3 # 20) 1 (PyBool true)
      (1 # 10) (1 # 5) (1 # 1000) (1 # 1000000) 20 (StopStr "NOSE")
    = (CallPredictor (3 # 20) 1 (PyBool true)
         :: CallCorrector (3 # 20) 1 (PyBool true)
         :: CorrectorReturned V1 (PyInt 1) i lam nF
         :: CallPredictor s' 1 (PyBool true) :: tr2, out) /\
    s' == 1 # 5 /\
    @prediction_error half_turn_kernels pv_bus.pv pv_bus.pq V1 lam V0 lam0
      == 0 /\
    @prediction_error_nonref half_turn_kernels pv_bus.pv pv_bus.pq
      V1 lam V0 lam0 == pi_float /\
    rescaled_step (1 # 10) (1 # 5) (1 # 1000) (3 # 20)
      (@prediction_error_nonref half_turn_kernels pv_bus.pv pv_bus.pq
         V1 lam V0 lam0) == 1 # 10.
Proof.
  eexists _, _, _, _, _, _, _, _, _, _.
  split; [ vm_compute; reflexivity | ].
  split; [ vm_compute; reflexivity | ].
  split; [ vm_compute; reflexivity | ].
  split; [ vm_compute; reflexivity | ].
  split; [ vm_compute; reflexivity | ].
  split; vm_compute; reflexivity.
Qed.

